(** * Naya: audio codec helpers, live playback scheduling, session teardown,
      video polling and the API-key gate

    A shallow embedding of the service functions ([generateVideo], [encode],
    [decode], [decodeAudioData], [createBlob]) and of the live-session part
    of the [App] component ([handleLiveMessage], [stopRecording], the
    [onaudioprocess] callback), all in [src/types.ts], and of
    [src/components/ApiKeySelector.tsx]; then of the other handlers of
    [App]: [handleSendMessage] and the transcription part of
    [handleLiveMessage], [handleGenerateVideo], [startRecording] and
    [handleToggleRecording].

    Conventions of the embedding.
    - A JavaScript string is the list of its UTF-16 code units ([list N]).
    - A [Uint8Array] that owns its whole [ArrayBuffer] (the only kind the
      program builds) is a [list byte].
    - A thrown exception, or the rejection of the promise of an [async]
      function, is the [Throw] case of [result].
    - Calls into the browser made for their effect are recorded in a trace,
      and an environment decides which of them raise.
    - An [AudioContext] is the ranges of sample rates and channel counts
      that its [createBuffer] takes; they are the browser's choice, within
      what the Web Audio API requires. *)

From Stdlib Require Import List NArith ZArith QArith Qabs Qminmax Bool Lia.
From Stdlib Require Import Init.Byte Strings.Byte Strings.String Strings.Ascii.
Import ListNotations.

Set Implicit Arguments.

(** ** Exceptions *)

Inductive error : Type :=
| InvalidCharacterError   (* DOMException of [btoa] / [atob] *)
| RangeError              (* typed-array construction *)
| NotSupportedError       (* DOMException of [createBuffer] *)
| TypeError               (* property access on [undefined] *)
| PlatformError           (* an exception raised inside a browser call *)
| Error (msg : string).   (* [new Error(msg)] *)

Inductive result (A : Type) : Type :=
| Ok (a : A)
| Throw (e : error).

Arguments Ok {A} a.
Arguments Throw {A} e.

Definition rbind {A B} (r : result A) (k : A -> result B) : result B :=
  match r with
  | Ok a => k a
  | Throw e => Throw e
  end.

Declare Scope result_scope.
Delimit Scope result_scope with result.
Notation "'let!' x ':=' r 'in' k" := (rbind r (fun x => k))
  (at level 10, x name, r at level 100, k at level 200) : result_scope.
Open Scope result_scope.

(** ** Computations with state and exceptions

    A computation reads and writes a state of type [S] and may throw; what
    it did before throwing stays done. *)

Definition M (S A : Type) : Type := S -> result A * S.

Definition ret {S A} (a : A) : M S A := fun s => (Ok a, s).

Definition bind {S A B} (m : M S A) (k : A -> M S B) : M S B :=
  fun s => match m s with
           | (Ok a, s') => k a s'
           | (Throw e, s') => (Throw e, s')
           end.

Definition lift {S A} (r : result A) : M S A := fun s => (r, s).
Definition get {S} : M S S := fun s => (Ok s, s).
Definition modify {S} (f : S -> S) : M S unit := fun s => (Ok tt, f s).

(** [try { m } catch (e) { h e }] *)
Definition try_catch {S A} (m : M S A) (h : error -> M S A) : M S A :=
  fun s => match m s with
           | (Ok a, s') => (Ok a, s')
           | (Throw e, s') => h e s'
           end.

(** [try { m } finally { f }] *)
Definition try_finally {S A} (m : M S A) (f : M S unit) : M S A :=
  fun s => match m s with
           | (r, s') =>
               match f s' with
               | (Ok _, s'') => (r, s'')
               | (Throw e, s'') => (Throw e, s'')
               end
           end.

Declare Scope eff_scope.
Delimit Scope eff_scope with eff.
Notation "x <- m ;; k" := (bind m (fun x => k))
  (at level 61, m at next level, right associativity) : eff_scope.
Notation "m ;; k" := (bind m (fun _ => k))
  (at level 61, right associativity) : eff_scope.

Fixpoint forEach {S A} (f : A -> M S unit) (l : list A) : M S unit :=
  match l with
  | [] => ret tt
  | x :: l' => bind (f x) (fun _ => forEach f l')
  end.

Definition when_some {S A} (o : option A) (f : A -> M S unit) : M S unit :=
  match o with
  | Some a => f a
  | None => ret tt
  end.

(** ** Base64: the platform's [btoa] and [atob]

    [btoa] and [atob] are browser built-ins, not code of the repository.
    They are modelled after the HTML standard ("forgiving-base64 encode" and
    "forgiving-base64 decode"), which refers to RFC 4648 for the alphabet. *)

Module Base64.
Local Open Scope N_scope.

Definition jsstring := list N.

Definition pad : N := 61.   (* '=' *)

(** Alphabet: index (0..63) to code unit. *)
Definition enc (i : N) : N :=
  if i <? 26 then 65 + i                (* 'A'..'Z' *)
  else if i <? 52 then 97 + (i - 26)    (* 'a'..'z' *)
  else if i <? 62 then 48 + (i - 52)    (* '0'..'9' *)
  else if i =? 62 then 43               (* '+' *)
  else 47.                              (* '/' *)

(** Alphabet: code unit to index, [None] outside the alphabet. *)
Definition dec (c : N) : option N :=
  if (65 <=? c) && (c <=? 90) then Some (c - 65)
  else if (97 <=? c) && (c <=? 122) then Some (c - 97 + 26)
  else if (48 <=? c) && (c <=? 57) then Some (c - 48 + 52)
  else if c =? 43 then Some 62
  else if c =? 47 then Some 63
  else None.

(** The 6-bit groups of a byte string, without padding: four per complete
    3-byte group, two or three for a trailing group of one or two bytes. *)
Fixpoint sextets (l : list N) : list N :=
  match l with
  | a :: b :: c :: rest =>
      a / 4 :: (a mod 4) * 16 + b / 16 :: (b mod 16) * 4 + c / 64 :: c mod 64
        :: sextets rest
  | [a; b] => [a / 4; (a mod 4) * 16 + b / 16; (b mod 16) * 4]
  | [a] => [a / 4; (a mod 4) * 16]
  | [] => []
  end.

Definition padding (len : nat) : list N :=
  match Nat.modulo len 3 with
  | 1%nat => [pad; pad]
  | 2%nat => [pad]
  | _ => []
  end.

(** [btoa(s)]: throws [InvalidCharacterError] when [s] has a code unit above
    U+00FF, otherwise the base64 text of the bytes. *)
Definition btoa (s : jsstring) : result jsstring :=
  if forallb (fun c => c <? 256) s
  then Ok (map enc (sextets s) ++ padding (List.length s))
  else Throw InvalidCharacterError.

Definition is_ascii_whitespace (c : N) : bool :=
  (c =? 9) || (c =? 10) || (c =? 12) || (c =? 13) || (c =? 32).

(** Removes one or two trailing ['='], working on the reversed text. *)
Definition strip_pad_rev (r : list N) : list N :=
  match r with
  | c1 :: r1 =>
      if c1 =? pad then
        match r1 with
        | c2 :: r2 => if c2 =? pad then r2 else r1
        | [] => r1
        end
      else r
  | [] => r
  end.

Definition remove_padding (s : jsstring) : jsstring :=
  if Nat.eqb (Nat.modulo (List.length s) 4) 0 then rev (strip_pad_rev (rev s)) else s.

Fixpoint dec_all (s : jsstring) : option (list N) :=
  match s with
  | [] => Some []
  | c :: s' =>
      match dec c, dec_all s' with
      | Some v, Some vs => Some (v :: vs)
      | _, _ => None
      end
  end.

(** Regroups 6-bit values into bytes; a trailing pair gives one byte (the
    last four bits are dropped), a trailing triple gives two (the last two
    bits are dropped). *)
Fixpoint unsextets (l : list N) : list N :=
  match l with
  | a :: b :: c :: d :: rest =>
      a * 4 + b / 16 :: ((b mod 16) * 16 + c / 4) :: ((c mod 4) * 64 + d)
        :: unsextets rest
  | [a; b; c] => [a * 4 + b / 16; (b mod 16) * 16 + c / 4]
  | [a; b] => [a * 4 + b / 16]
  | _ => []
  end.

(** [atob(s)]: strip ASCII whitespace; if the length is a multiple of 4 drop
    one or two trailing ['=']; fail if the length is then 1 modulo 4 or a
    character is outside the alphabet; otherwise decode. *)
Definition atob (s : jsstring) : result jsstring :=
  let data := remove_padding (filter (fun c => negb (is_ascii_whitespace c)) s) in
  if Nat.eqb (Nat.modulo (List.length data) 4) 1 then Throw InvalidCharacterError
  else match dec_all data with
       | Some vs => Ok (unsextets vs)
       | None => Throw InvalidCharacterError
       end.

End Base64.

(** ** JavaScript numbers

    A finite number is represented by the rational it denotes.  The
    arithmetic the audio helpers perform is exact on the values they meet: a
    [Float32Array] element times 32768 and a 16-bit integer divided by 32768
    are both representable, and the quotient of two array lengths is only
    truncated or compared with integers, which rounding does not affect.
    The sum [nextStartTime += duration] is taken exactly. *)

Inductive number : Type :=
| NaN
| PInf
| NInf
| Fin (q : Q).

(** Truncation toward zero. *)
Definition Qtrunc (q : Q) : Z := Z.quot (Qnum q) (Zpos (Qden q)).

(** Least integer not below [q]. *)
Definition Qceil (q : Q) : Z := (- Z.div (- Qnum q) (Zpos (Qden q)))%Z.

(** ECMAScript [ToInt16]: truncate, reduce modulo 2^16 into the signed range;
    [NaN] and the infinities give 0. *)
Definition wrap16 (z : Z) : Z :=
  let m := (z mod 65536)%Z in
  if (m >=? 32768)%Z then (m - 65536)%Z else m.

Definition ToInt16 (x : number) : Z :=
  match x with
  | Fin q => wrap16 (Qtrunc q)
  | _ => 0%Z
  end.

(** Web IDL conversion to [unsigned long]. *)
Definition ToUint32 (x : number) : nat :=
  match x with
  | Fin q => Z.to_nat (Qtrunc q mod 4294967296)
  | _ => 0%nat
  end.

(** [x * k] for a positive finite constant [k]. *)
Definition times (x : number) (k : Q) : number :=
  match x with
  | Fin q => Fin (q * k)
  | other => other
  end.

(** [a / b] for two array lengths or counts. *)
Definition count_div (a b : nat) : number :=
  match b with
  | O => match a with O => NaN | _ => PInf end
  | _ => Fin (Z.of_nat a # Pos.of_nat b)
  end.

(** Number of iterations of [for (let i = 0; i < x; i++)].  The program
    only runs such a loop on a finite bound. *)
Definition iterations (x : number) : nat :=
  match x with
  | Fin q => Z.to_nat (Qceil q)
  | _ => 0%nat
  end.

(** ** Typed arrays *)

Module TypedArray.

Definition byte_of_Z (z : Z) : byte :=
  match Byte.of_N (Z.to_N (z mod 256)) with
  | Some b => b
  | None => x00
  end.

Definition Z_of_byte (b : byte) : Z := Z.of_N (Byte.to_N b).

(** [new Int16Array(buffer)] on a little-endian platform: [RangeError] when
    the byte length is odd. *)
Fixpoint Int16Array_of_buffer (buf : list byte) : result (list Z) :=
  match buf with
  | [] => Ok []
  | [_] => Throw RangeError
  | lo :: hi :: rest =>
      match Int16Array_of_buffer rest with
      | Ok vs =>
          let u := (Z_of_byte lo + 256 * Z_of_byte hi)%Z in
          Ok ((if (u >=? 32768)%Z then u - 65536 else u)%Z :: vs)
      | Throw e => Throw e
      end
  end.

(** [new Uint8Array(int16.buffer)]: the bytes of an [Int16Array]. *)
Fixpoint buffer_of_Int16Array (vs : list Z) : list byte :=
  match vs with
  | [] => []
  | v :: vs' =>
      let u := (v mod 65536)%Z in
      byte_of_Z u :: byte_of_Z (u / 256) :: buffer_of_Int16Array vs'
  end.

(** [a[i] = v]: ignored when [i] is out of range. *)
Fixpoint store {A} (a : list A) (i : nat) (v : A) : list A :=
  match a, i with
  | [], _ => []
  | _ :: a', O => v :: a'
  | x :: a', S i' => x :: store a' i' v
  end.

End TypedArray.

(** ** Audio helper functions ([services/geminiService.ts]) *)

Module Audio.
Import Base64 TypedArray.

Record Blob : Type := mkBlob { data : jsstring; mimeType : string }.

Record AudioBuffer : Type := mkAudioBuffer {
  numberOfChannels : nat;
  length : nat;                     (* sample-frames *)
  sampleRate : Q;
  channels : list (list number)     (* [getChannelData(c)] *)
}.

Definition duration (b : AudioBuffer) : Q :=
  inject_Z (Z.of_nat (length b)) / sampleRate b.

(** What the program meets of an [AudioContext]: the nominal ranges of its
    [createBuffer].  The browser chooses them; the Web Audio API only says
    what they must include. *)
Record AudioContext : Type := mkAudioContext {
  minSampleRate : Q;
  maxSampleRate : Q;
  maxChannels : nat
}.

(** A sample rate and a number of channels within the nominal ranges. *)
Definition supports (ctx : AudioContext) (rate : Q) (numChannels : nat) : bool :=
  negb (Qle_bool rate 0)
  && Qle_bool (minSampleRate ctx) rate && Qle_bool rate (maxSampleRate ctx)
  && Nat.leb numChannels (maxChannels ctx).

(** [ctx.createBuffer(numberOfChannels, length, sampleRate)] of the Web Audio
    API: [NotSupportedError] when an argument is zero, negative or outside
    its nominal range, otherwise a buffer of silence.  The length has no
    range but to be at least 1. *)
Definition createBuffer (ctx : AudioContext) (numChannels : nat) (len : number)
    (rate : Q) : result AudioBuffer :=
  let n := ToUint32 len in
  if Nat.eqb numChannels 0 || Nat.eqb n 0 || negb (supports ctx rate numChannels)
  then Throw NotSupportedError
  else Ok (mkAudioBuffer numChannels n rate
             (repeat (repeat (Fin 0) n) numChannels)).

(** [encode]: the loop appends [String.fromCharCode(bytes[i])] for each
    byte, then [btoa]. *)
Definition encode (bytes : list byte) : result jsstring :=
  let binary := fold_left (fun acc b => acc ++ [Byte.to_N b]) bytes [] in
  btoa binary.

(** [decode]: [atob], then each code unit stored into a [Uint8Array]. *)
Definition decode (base64 : jsstring) : result (list byte) :=
  let! binaryString := atob base64 in
  Ok (map (fun c => byte_of_Z (Z.of_N c)) binaryString).

(** [dataInt16[k] / 32768.0]; an index out of range reads [undefined]. *)
Definition sample_at (dataInt16 : list Z) (k : nat) : number :=
  match nth_error dataInt16 k with
  | Some v => Fin (v # 32768)
  | None => NaN
  end.

(** The inner loop over [i] for one channel. *)
Definition fill_channel (dataInt16 : list Z) (numChannels channel : nat)
    (frameCount : number) (channelData : list number) : list number :=
  fold_left
    (fun cd i => store cd i (sample_at dataInt16 (i * numChannels + channel)))
    (seq 0 (iterations frameCount)) channelData.

Definition decodeAudioData (data : list byte) (ctx : AudioContext) (rate : Q)
    (numChannels : nat) : result AudioBuffer :=
  let! dataInt16 := Int16Array_of_buffer data in
  let frameCount := count_div (List.length dataInt16) numChannels in
  let! buffer := createBuffer ctx numChannels frameCount rate in
  Ok (mkAudioBuffer (numberOfChannels buffer) (length buffer) (sampleRate buffer)
        (map (fun channel =>
                fill_channel dataInt16 numChannels channel frameCount
                  (nth channel (channels buffer) []))
             (seq 0 numChannels))).

Definition createBlob (samples : list number) : result Blob :=
  let int16 := map (fun x => ToInt16 (times x 32768)) samples in
  let! text := encode (buffer_of_Int16Array int16) in
  Ok (mkBlob text "audio/pcm;rate=16000").

End Audio.

(** ** The live session ([App.tsx]) *)

Module App.
Import Base64 TypedArray Audio.

(** Browser objects are identified by a number. *)
Definition handle := nat.

(** Calls into the browser and the SDK made for their effect. *)
Inductive call : Type :=
| TrackStop (track : handle)                 (* [track.stop()] *)
| SessionThenClose (session : handle)        (* [promise.then(s => s.close())] *)
| SessionThenSend (session : handle) (media : Blob)
                                             (* [promise.then(s => s.sendRealtimeInput(..))] *)
| NodeDisconnect (node : handle)             (* [node.disconnect()] *)
| ContextClose (ctx : handle)                (* [ctx.close()] *)
| CreateBufferSource (ctx src : handle)      (* [ctx.createBufferSource()] *)
| SetBuffer (src : handle) (buffer : AudioBuffer)
| SourceConnect (src ctx : handle)           (* [source.connect(ctx.destination)] *)
| AddEndedListener (src : handle)
| SourceStart (src : handle) (buffer : AudioBuffer) (when : Q)
                                             (* [source.start(when)], with the buffer
                                                the source holds *)
| SourceStop (src : handle).                 (* [source.stop()] *)

(** [audioContextRef.current] *)
Record contexts : Type := mkContexts {
  input : handle;
  output : handle;
  scriptProcessor : option handle;
  source : option handle
}.

(** [audioPlaybackRef.current] *)
Record playback : Type := mkPlayback {
  nextStartTime : Q;
  sources : list handle      (* a [Set], in insertion order *)
}.

Record state : Type := mkState {
  isRecording : bool;
  mediaStreamRef : option (list handle);     (* the tracks of the stream *)
  sessionPromiseRef : option handle;
  audioContextRef : option contexts;
  audioPlaybackRef : playback;
  trace : list call;                         (* calls performed, oldest first *)
  fresh : handle                             (* next object identity *)
}.

Definition set_isRecording (b : bool) (s : state) : state :=
  mkState b (mediaStreamRef s) (sessionPromiseRef s) (audioContextRef s)
    (audioPlaybackRef s) (trace s) (fresh s).

Definition set_sessionPromiseRef (v : option handle) (s : state) : state :=
  mkState (isRecording s) (mediaStreamRef s) v (audioContextRef s)
    (audioPlaybackRef s) (trace s) (fresh s).

Definition set_audioContextRef (v : option contexts) (s : state) : state :=
  mkState (isRecording s) (mediaStreamRef s) (sessionPromiseRef s) v
    (audioPlaybackRef s) (trace s) (fresh s).

Definition set_playback (p : playback) (s : state) : state :=
  mkState (isRecording s) (mediaStreamRef s) (sessionPromiseRef s)
    (audioContextRef s) p (trace s) (fresh s).

Definition set_nextStartTime (t : Q) (s : state) : state :=
  set_playback (mkPlayback t (sources (audioPlaybackRef s))) s.

Definition set_sources (l : list handle) (s : state) : state :=
  set_playback (mkPlayback (nextStartTime (audioPlaybackRef s)) l) s.

(** Appends a performed call to the trace. *)
Definition record (c : call) (s : state) : state :=
  mkState (isRecording s) (mediaStreamRef s) (sessionPromiseRef s)
    (audioContextRef s) (audioPlaybackRef s) (trace s ++ [c]) (fresh s).

Definition next_fresh (s : state) : state :=
  mkState (isRecording s) (mediaStreamRef s) (sessionPromiseRef s)
    (audioContextRef s) (audioPlaybackRef s) (trace s) (S (fresh s)).

(** [Set.prototype.add] and [Set.prototype.delete] *)
Definition set_add (x : handle) (l : list handle) : list handle :=
  if existsb (Nat.eqb x) l then l else l ++ [x].

Definition set_delete (x : handle) (l : list handle) : list handle :=
  filter (fun y => negb (Nat.eqb x y)) l.

Local Open Scope eff_scope.

(** Messages of the live session, as far as the audio path reads them. *)
Record Content : Type := mkContent {
  parts : option (list (option jsstring))   (* [parts[k]?.inlineData?.data] *)
}.

Record ServerContent : Type := mkServerContent {
  modelTurn : option Content;
  interrupted : bool
}.

Record LiveServerMessage : Type := mkMessage {
  serverContent : option ServerContent
}.

(** [message.serverContent?.modelTurn?.parts[0]?.inlineData?.data] *)
Definition audioData_of (m : LiveServerMessage) : result (option jsstring) :=
  match serverContent m with
  | None => Ok None
  | Some sc =>
      match modelTurn sc with
      | None => Ok None
      | Some turn =>
          match parts turn with
          | None => Throw TypeError
          | Some ps => Ok (match ps with p :: _ => p | [] => None end)
          end
      end
  end.

Definition is_interrupted (m : LiveServerMessage) : bool :=
  match serverContent m with
  | Some sc => interrupted sc
  | None => false
  end.

Definition truthy (o : option jsstring) : option jsstring :=
  match o with
  | Some (c :: t) => Some (c :: t)
  | _ => None
  end.

Section Platform.

(** Whether a call into the browser raises an exception. *)
Variable raises : call -> bool.

(** The audio contexts of the browser, as far as [createBuffer] goes. *)
Variable webAudio : AudioContext.

Definition perform (c : call) : M state unit :=
  fun s =>
    if raises c then (Throw PlatformError, s)
    else (Ok tt, record c s).

Definition createBufferSource (ctx : handle) : M state handle :=
  s <- get ;;
  let src := fresh s in
  perform (CreateBufferSource ctx src) ;;
  modify next_fresh ;;
  ret src.

(** The audio-playback part of [handleLiveMessage]; [now] is the value of
    [outputCtx.currentTime] when the message is handled. *)
Definition playAudio (now : Q) (audioData : jsstring) (outputCtx : handle)
  : M state unit :=
  modify (fun s => set_nextStartTime
                     (Qmax (nextStartTime (audioPlaybackRef s)) now) s) ;;
  bytes <- lift (decode audioData) ;;
  audioBuffer <- lift (decodeAudioData bytes webAudio 24000 1) ;;
  src <- createBufferSource outputCtx ;;
  perform (SetBuffer src audioBuffer) ;;
  perform (SourceConnect src outputCtx) ;;
  perform (AddEndedListener src) ;;
  s <- get ;;
  perform (SourceStart src audioBuffer (nextStartTime (audioPlaybackRef s))) ;;
  modify (fun s => set_nextStartTime
                     (nextStartTime (audioPlaybackRef s) + duration audioBuffer) s) ;;
  modify (fun s => set_sources (set_add src (sources (audioPlaybackRef s))) s).

(** Stop every source, clear the set, reset the schedule. *)
Definition resetPlayback : M state unit :=
  s <- get ;;
  forEach (fun src => perform (SourceStop src)) (sources (audioPlaybackRef s)) ;;
  modify (set_sources []) ;;
  modify (set_nextStartTime 0).

(** [handleLiveMessage], without the transcription part, which only updates
    the chat transcript. *)
Definition handleLiveMessage (now : Q) (message : LiveServerMessage) : M state unit :=
  audioData <- lift (audioData_of message) ;;
  s <- get ;;
  match truthy audioData, audioContextRef s with
  | Some d, Some ctxs => playAudio now d (output ctxs)
  | _, _ => ret tt
  end ;;
  if is_interrupted message then resetPlayback else ret tt.

(** The ['ended'] listener of a source: [playback.sources.delete(source)]. *)
Definition onEnded (src : handle) (s : state) : state :=
  set_sources (set_delete src (sources (audioPlaybackRef s))) s.

(** [scriptProcessor.onaudioprocess] installed by [startRecording]. *)
Definition frameSize : nat := 4096.

Definition onaudioprocess (inputData : list number) : M state unit :=
  pcmBlob <- lift (createBlob inputData) ;;
  s <- get ;;
  when_some (sessionPromiseRef s) (fun session =>
    perform (SessionThenSend session pcmBlob)).

Definition stopRecording : M state unit :=
  modify (set_isRecording false) ;;
  s <- get ;;
  when_some (mediaStreamRef s) (forEach (fun track => perform (TrackStop track))) ;;
  s <- get ;;
  when_some (sessionPromiseRef s) (fun session =>
    perform (SessionThenClose session) ;;
    modify (set_sessionPromiseRef None)) ;;
  s <- get ;;
  when_some (audioContextRef s) (fun ctxs =>
    when_some (scriptProcessor ctxs) (fun n => perform (NodeDisconnect n)) ;;
    when_some (source ctxs) (fun n => perform (NodeDisconnect n)) ;;
    perform (ContextClose (input ctxs)) ;;
    perform (ContextClose (output ctxs)) ;;
    modify (set_audioContextRef None)) ;;
  resetPlayback.

(** What the session receives over time: messages, each handled to
    completion before the next event, and ['ended'] events of sources.  A
    handler that throws leaves a rejected promise behind and the session
    goes on. *)
Inductive event : Type :=
| Message (now : Q) (message : LiveServerMessage)
| Ended (src : handle).

Definition step (e : event) (s : state) : state :=
  match e with
  | Message now m => snd (handleLiveMessage now m s)
  | Ended src => onEnded src s
  end.

Definition run (evs : list event) (s : state) : state :=
  fold_left (fun s e => step e s) evs s.

End Platform.

(** An environment in which no call raises. *)
Definition no_failure : call -> bool := fun _ => false.

(** The references as [App] initialises them. *)
Definition initial : state :=
  mkState false None None None (mkPlayback 0 []) [] 0%nat.

End App.


(** ** Video generation ([generateVideo] in [services/geminiService.ts]) *)

Module Video.
Local Open Scope string_scope.

(** A video-generation job as the SDK reports it; [uri] stands for
    [operation.response?.generatedVideos?.[0]?.video?.uri]. *)
Record Operation : Type := mkOperation {
  done : bool;
  uri : option string
}.

Record VideoRequest : Type := mkVideoRequest {
  model : string;
  prompt : string;
  image : option (string * string);     (* [imageBytes], [mimeType] *)
  numberOfVideos : nat;
  resolution : string;
  aspectRatio : string
}.

Record Response : Type := mkResponse {
  ok : bool;
  statusText : string;
  blob : result nat                     (* [response.blob()] *)
}.

(** The remote service and the browser, as [generateVideo] meets them. *)
Record Remote : Type := mkRemote {
  API_KEY : string;
  generateVideos : VideoRequest -> result Operation;
  getVideosOperation : nat -> result Operation;   (* the k-th status poll *)
  fetch : string -> result Response;
  createObjectURL : nat -> string
}.

Inductive effect : Type :=
| Progress (message : string)     (* [onProgress(message)] *)
| Wait (ms : N).                  (* [setTimeout(resolve, ms)] *)

Definition progressMessages : list string :=
  [ "Composing the visual narrative...";
    "Rendering the final frames...";
    "Applying cinematic touches...";
    "Almost there..." ].

Definition Portrait : string := "9:16".

Definition log (e : effect) : M (list effect) unit :=
  modify (fun l => (l ++ [e])%list).

Local Open Scope eff_scope.

(** [while (!operation.done) { ... }]; [None] when [fuel] iterations did not
    reach a finished operation. *)
Fixpoint pollLoop (remote : Remote) (fuel : nat) (operation : Operation)
    (messageIndex : nat) : M (list effect) (option Operation) :=
  if done operation then ret (Some operation)
  else
    match fuel with
    | O => ret None
    | S fuel' =>
        log (Progress (nth (Nat.modulo messageIndex (List.length progressMessages))
                         progressMessages "")) ;;
        log (Wait 10000%N) ;;
        operation' <- lift (getVideosOperation remote messageIndex) ;;
        pollLoop remote fuel' operation' (S messageIndex)
    end.

(** What follows the loop. *)
Definition download (remote : Remote) (operation : Operation)
  : M (list effect) string :=
  log (Progress "Video generation complete!") ;;
  match uri operation with
  | None | Some EmptyString =>
      lift (Throw (Error "Video generation failed or returned no link."))
  | Some downloadLink =>
      log (Progress "Fetching your video...") ;;
      response <- lift (fetch remote (downloadLink ++ "&key=" ++ API_KEY remote)) ;;
      if negb (ok response)
      then lift (Throw (Error ("Failed to download video: " ++ statusText response)))
      else
        videoBlob <- lift (blob response) ;;
        ret (createObjectURL remote videoBlob)
  end.

Definition generateVideo (remote : Remote) (fuel : nat)
    (prompt aspectRatio : string) (image : option (string * string))
  : M (list effect) (option string) :=
  log (Progress "Warming up the creativity engines...") ;;
  operation <- lift (generateVideos remote
                       (mkVideoRequest "veo-3.1-fast-generate-preview" prompt
                          image 1 "720p" aspectRatio)) ;;
  finished <- pollLoop remote fuel operation 0 ;;
  match finished with
  | None => ret None
  | Some operation => url <- download remote operation ;; ret (Some url)
  end.

End Video.

(** ** The API-key gate ([components/ApiKeySelector.tsx]) *)

Module ApiKeySelector.

(** [window.aistudio]: a member is [None] when it is not a function; called,
    it resolves to a value or fails (throws, or returns a promise that is
    rejected). *)
Record aistudio : Type := mkAistudio {
  hasSelectedApiKey : option (result bool);
  openSelectKey : option (result unit)
}.

Inductive effect : Type :=
| Call_hasSelectedApiKey
| Call_openSelectKey
| onKeySelectionChange (isSelected : bool)
| console_error.

Record component : Type := mkComponent {
  isKeySelected : bool;
  isChecking : bool;
  effects : list effect          (* oldest first *)
}.

Definition setIsKeySelected (b : bool) : M component unit :=
  modify (fun c => mkComponent b (isChecking c) (effects c)).

Definition setIsChecking (b : bool) : M component unit :=
  modify (fun c => mkComponent (isKeySelected c) b (effects c)).

Definition emit (e : effect) : M component unit :=
  modify (fun c => mkComponent (isKeySelected c) (isChecking c) (effects c ++ [e])).

Local Open Scope eff_scope.

Definition checkApiKey (window_aistudio : option aistudio) : M component unit :=
  try_finally
    (try_catch
       (match window_aistudio with
        | Some {| hasSelectedApiKey := Some answer |} =>
            emit Call_hasSelectedApiKey ;;
            hasKey <- lift answer ;;
            setIsKeySelected hasKey ;;
            emit (onKeySelectionChange hasKey)
        | _ =>
            setIsKeySelected false ;;
            emit (onKeySelectionChange false)
        end)
       (fun _ =>
          emit console_error ;;
          setIsKeySelected false ;;
          emit (onKeySelectionChange false)))
    (setIsChecking false).

Definition handleSelectKey (window_aistudio : option aistudio) : M component unit :=
  try_catch
    (match window_aistudio with
     | Some {| openSelectKey := Some answer |} =>
         emit Call_openSelectKey ;;
         lift answer ;;
         setIsKeySelected true ;;
         emit (onKeySelectionChange true)
     | _ => ret tt
     end)
    (fun _ => emit console_error).

(** The component as mounted: [useState(false)], [useState(true)]. *)
Definition mounted : component := mkComponent false true [].

Inductive view : Type := Verifying | KeyRequired | Children.

Definition render (c : component) : view :=
  if isChecking c then Verifying
  else if negb (isKeySelected c) then KeyRequired
  else Children.

End ApiKeySelector.

(* ================================================================== *)
(** * Vocabulary of the properties *)

Module AudioSpec.
Import TypedArray Audio.

(** Frame [i] of channel [channel] is sample [i * c + channel]. *)
Definition deinterleave (vs : list Z) (c frames : nat) : list (list number) :=
  map (fun channel =>
         map (fun i => sample_at vs (i * c + channel)) (seq 0 frames))
      (seq 0 c).

(** What one sample becomes after [createBlob] and [decodeAudioData]. *)
Definition quantize (q : Q) : Q := ToInt16 (times (Fin q) 32768) # 32768.

(** Three 16-bit samples, 1, 2 and 3. *)
Definition sixBytes : list byte := [x01; x00; x02; x00; x03; x00].

(** The ranges that every implementation supports (Web Audio API,
    [createBuffer]): sample rates from 8000 to 96000 Hz and 32 channels. *)
Definition leastContext : AudioContext := mkAudioContext 8000 96000 32.

(** An implementation that supports at least these ranges. *)
Definition conforming (ctx : AudioContext) : Prop :=
  minSampleRate ctx <= 8000 /\ 96000 <= maxSampleRate ctx /\
  (32 <= maxChannels ctx)%nat.

End AudioSpec.

(** Reasoning about computations: [wp m Q s] holds when running [m] from
    [s] ends in a result and a state that satisfy [Q]. *)
Definition wp {S A} (m : M S A) (Q : result A -> S -> Prop) (s : S) : Prop :=
  Q (fst (m s)) (snd (m s)).

Module AppSpec.
Import Base64 Audio App.

Definition nst (s : state) : Q := nextStartTime (audioPlaybackRef s).
Definition active (s : state) : list handle := sources (audioPlaybackRef s).

Definition add_calls (cs : list call) (s : state) : state :=
  mkState (isRecording s) (mediaStreamRef s) (sessionPromiseRef s)
    (audioContextRef s) (audioPlaybackRef s) (trace s ++ cs) (fresh s).

(** The segments started in a trace, oldest first: scheduled start and
    buffer. *)
Definition starts (tr : list call) : list (Q * AudioBuffer) :=
  flat_map (fun c => match c with
                     | SourceStart _ b t => [(t, b)]
                     | _ => []
                     end) tr.

Definition same_refs (s s' : state) : Prop :=
  isRecording s' = isRecording s /\
  mediaStreamRef s' = mediaStreamRef s /\
  sessionPromiseRef s' = sessionPromiseRef s /\
  audioContextRef s' = audioContextRef s.

(** The calls by which one segment is played. *)
Definition playCalls (ctx src : handle) (b : AudioBuffer) (t : Q) : list call :=
  [CreateBufferSource ctx src; SetBuffer src b; SourceConnect src ctx;
   AddEndedListener src; SourceStart src b t].

(** [decodeAudioData(decode(audioData), outputCtx, 24000, 1)] *)
Definition decoded (outputCtx : AudioContext) (d : jsstring)
  : result AudioBuffer :=
  let! bytes := decode d in decodeAudioData bytes outputCtx 24000 1.

(** A message that carries the audio segment [b] and no interruption. *)
Definition carries (outputCtx : AudioContext) (m : LiveServerMessage)
    (b : AudioBuffer) : Prop :=
  is_interrupted m = false /\
  exists d, audioData_of m = Ok (Some d) /\ d <> [] /\
            decoded outputCtx d = Ok b.

(** The events of a session in which the segments [segs] arrive, each with
    the clock value at its arrival, between ['ended'] events. *)
Inductive arrivals (outputCtx : AudioContext)
  : list event -> list (Q * AudioBuffer) -> Prop :=
| arrivals_nil : arrivals outputCtx [] []
| arrivals_segment now m b evs segs :
    carries outputCtx m b -> arrivals outputCtx evs segs ->
    arrivals outputCtx (Message now m :: evs) ((now, b) :: segs)
| arrivals_ended src evs segs :
    arrivals outputCtx evs segs -> arrivals outputCtx (Ended src :: evs) segs.

(** The schedule as the specification words it: a segment starts at
    [max(nextStartTime, now)] and [nextStartTime] becomes that start plus the
    segment's duration. *)
Fixpoint plan (nextStart : Q) (segs : list (Q * AudioBuffer))
  : list (Q * AudioBuffer) * Q :=
  match segs with
  | [] => ([], nextStart)
  | (now, b) :: rest =>
      let startAt := Qmax nextStart now in
      let (l, final) := plan (startAt + duration b) rest in
      ((startAt, b) :: l, final)
  end.

(** Every segment starts no earlier than its predecessor's start plus the
    predecessor's duration. *)
Fixpoint gapless (l : list (Q * AudioBuffer)) : Prop :=
  match l with
  | [] => True
  | (t1, b1) :: rest =>
      match rest with
      | [] => True
      | (t2, _) :: _ => t1 + duration b1 <= t2
      end /\ gapless rest
  end.

Definition starts_after (t0 : Q) (l : list (Q * AudioBuffer)) : Prop :=
  match l with
  | [] => True
  | (t, _) :: _ => t0 <= t
  end.

(** An event without interruption signal. *)
Definition quiet (e : event) : Prop :=
  match e with
  | Message _ m => is_interrupted m = false
  | Ended _ => True
  end.

(** What the audio part of [handleLiveMessage] does, whatever fails: either
    one segment is started, or none is and the schedule does not move back. *)
Definition audio_effect (now : Q) (s : state) (r : result unit) (s' : state)
  : Prop :=
  same_refs s s' /\
  ((exists ctx b,
      r = Ok tt /\
      trace s' = trace s ++ playCalls ctx (fresh s) b (Qmax (nst s) now) /\
      nst s' = Qmax (nst s) now + duration b /\
      active s' = set_add (fresh s) (active s))
   \/
   (exists calls,
      trace s' = trace s ++ calls /\ starts calls = [] /\
      nst s <= nst s' /\ active s' = active s)).

(** What handling one message does, whatever fails. *)
Definition handled (now : Q) (m : LiveServerMessage) (s s' : state) : Prop :=
  exists calls,
    trace s' = trace s ++ calls /\ same_refs s s' /\
    ((starts calls = [] /\ (is_interrupted m = false -> nst s <= nst s'))
     \/
     (exists b, starts calls = [(Qmax (nst s) now, b)] /\
        (is_interrupted m = false -> nst s' = Qmax (nst s) now + duration b))).

(** Every resource that [s] holds has been released in [s'], and the
    playback schedule is reset. *)
Definition released (s s' : state) : Prop :=
  isRecording s' = false /\
  sessionPromiseRef s' = None /\
  audioContextRef s' = None /\
  sources (audioPlaybackRef s') = [] /\
  nextStartTime (audioPlaybackRef s') = 0 /\
  (forall tracks track,
     mediaStreamRef s = Some tracks -> In track tracks ->
     In (TrackStop track) (trace s')) /\
  (forall session,
     sessionPromiseRef s = Some session ->
     In (SessionThenClose session) (trace s')) /\
  (forall ctxs,
     audioContextRef s = Some ctxs ->
     In (ContextClose (input ctxs)) (trace s') /\
     In (ContextClose (output ctxs)) (trace s') /\
     (forall n, scriptProcessor ctxs = Some n -> In (NodeDisconnect n) (trace s')) /\
     (forall n, source ctxs = Some n -> In (NodeDisconnect n) (trace s'))) /\
  (forall src,
     In src (sources (audioPlaybackRef s)) -> In (SourceStop src) (trace s')) /\
  (forall c, In c (trace s) -> In c (trace s')).

(** An environment in which [node.disconnect()] raises. *)
Definition failing_disconnect (c : call) : bool :=
  match c with
  | NodeDisconnect _ => true
  | _ => false
  end.

(** A session that is recording, with two sources playing. *)
Definition recording : state :=
  mkState true (Some [10; 11]%nat) (Some 20%nat)
    (Some (mkContexts 1%nat 2%nat (Some 3%nat) (Some 4%nat)))
    (mkPlayback (7 # 2) [30; 31]%nat) [] 32%nat.

(** A message with three frames of audio ("AQACAAAA"), one with an
    interruption signal only, and one with both an interruption signal and
    text that is not base64. *)
Definition segmentData : jsstring := [65; 81; 65; 67; 65; 65; 65; 65]%N.

Definition segmentBuffer : AudioBuffer :=
  mkAudioBuffer 1 3 24000 [[Fin (1 # 32768); Fin (2 # 32768); Fin (0 # 32768)]].

Definition segmentMessage : LiveServerMessage :=
  mkMessage (Some (mkServerContent (Some (mkContent (Some [Some segmentData])))
                     false)).

Definition interruptMessage : LiveServerMessage :=
  mkMessage (Some (mkServerContent None true)).

Definition garbledInterruptMessage : LiveServerMessage :=
  mkMessage (Some (mkServerContent (Some (mkContent (Some [Some [33%N]]))) true)).

End AppSpec.

Module VideoSpec.
Import Video.
Local Open Scope string_scope.

(** [polls remote op k opf n]: starting from [op] with [k] status polls
    already made, the job reaches the finished operation [opf] after [n]
    further polls, none of which fails. *)
Inductive polls (remote : Remote) : Operation -> nat -> Operation -> nat -> Prop :=
| polls_done op k : done op = true -> polls remote op k op 0
| polls_next op k op' opf n :
    done op = false ->
    getVideosOperation remote k = Ok op' ->
    polls remote op' (S k) opf n ->
    polls remote op k opf (S n).

(** What [n] iterations of the loop log, starting at message index [k]. *)
Definition pollLog (k n : nat) : list effect :=
  flat_map (fun i => [Progress (nth (Nat.modulo i 4) progressMessages "");
                      Wait 10000%N])
           (seq k n).

Definition request (prompt aspectRatio : string) (image : option (string * string))
  : VideoRequest :=
  mkVideoRequest "veo-3.1-fast-generate-preview" prompt image 1 "720p" aspectRatio.

Definition noLink : error := Error "Video generation failed or returned no link.".

(** A job that is finished at the second status poll, and a download that
    succeeds. *)
Definition demoRemote : Remote :=
  mkRemote "KEY"
    (fun _ => Ok (mkOperation false None))
    (fun k => Ok (mkOperation (Nat.eqb k 1) (Some "https://video/1?alt=media")))
    (fun _ => Ok (mkResponse true "OK" (Ok 9%nat)))
    (fun _ => "blob:video").

End VideoSpec.

(** ** Further parts of [App]

    The parts of the component that the modules above leave out: the chat
    transcript, the whole of [handleLiveMessage], the video panel, and the
    start of the live session.  Each works on its own part of the state of
    the component. *)

(** Runs a computation on a part of the state. *)
Definition zoom {S T A} (part : T -> S) (update : S -> T -> T) (m : M S A)
  : M T A :=
  fun t => (fst (m (part t)), update (snd (m (part t))) t).

(** ** The chat transcript ([handleSendMessage] and the transcription part
       of [handleLiveMessage] in [App], [src/types.ts]) *)

Module Chat.
Local Open Scope string_scope.
Local Open Scope eff_scope.

Inductive role : Type := user | model.

Definition role_eqb (a b : role) : bool :=
  match a, b with
  | user, user | model, model => true
  | _, _ => false
  end.

(** The [text] of a message: the type says [string], but a transcription
    fragment without text stores [undefined], and [undefined += undefined]
    is [NaN]. *)
Inductive text : Type :=
| Str (s : string)
| Undefined
| NaNText.

(** [a += b], [b] a string or [undefined]. *)
Definition append (a : text) (b : option string) : text :=
  match a, b with
  | Str x, Some y => Str (x ++ y)
  | Str x, None => Str (x ++ "undefined")
  | Undefined, Some y => Str ("undefined" ++ y)
  | Undefined, None => NaNText
  | NaNText, Some y => Str ("NaN" ++ y)
  | NaNText, None => NaNText
  end.

Record ChatMessage : Type := mkChatMessage {
  msgRole : role;
  msgText : text
}.

(** The state of the chat.  [chatMessages] is [Throw] once an updater
    passed to [setChatMessages] has thrown while React applied it. *)
Record chat : Type := mkChat {
  chatMessages : result (list ChatMessage);
  userInput : string;
  isChatting : bool;
  chatRef : bool                      (* [chatRef.current] is a session *)
}.

(** [setChatMessages(prev => ...)] *)
Definition setChatMessages (f : list ChatMessage -> result (list ChatMessage))
  : M chat unit :=
  modify (fun c => mkChat (rbind (chatMessages c) f) (userInput c)
                     (isChatting c) (chatRef c)).

Definition setUserInput (s : string) : M chat unit :=
  modify (fun c => mkChat (chatMessages c) s (isChatting c) (chatRef c)).

Definition setIsChatting (b : bool) : M chat unit :=
  modify (fun c => mkChat (chatMessages c) (userInput c) b (chatRef c)).

(** [[...prev, m]] *)
Definition push (m : ChatMessage) (prev : list ChatMessage)
  : result (list ChatMessage) :=
  Ok (prev ++ [m])%list.

(** [newMessages[newMessages.length - 1] = f(...)]: on an empty array the
    element is [undefined] and the property access throws. *)
Fixpoint update_last (f : ChatMessage -> ChatMessage) (prev : list ChatMessage)
  : result (list ChatMessage) :=
  match prev with
  | [] => Throw TypeError
  | [m] => Ok [f m]
  | m :: rest =>
      match update_last f rest with
      | Ok rest' => Ok (m :: rest')
      | Throw e => Throw e
      end
  end.

Definition set_text (t : text) (m : ChatMessage) : ChatMessage :=
  mkChatMessage (msgRole m) t.

(** What the chat service answers: the chunks of the stream, each with its
    [text] or without, and the error that ends the stream if one does. *)
Record Stream : Type := mkStream {
  chunks : list (option string);
  failure : option error
}.

(** [modelResponse += chunk.text] on a string. *)
Definition chunk_text (c : option string) : string :=
  match c with
  | Some t => t
  | None => "undefined"
  end.

(** The [for await] loop. *)
Fixpoint consume (modelResponse : string) (cs : list (option string))
  : M chat unit :=
  match cs with
  | [] => ret tt
  | c :: rest =>
      let modelResponse' := modelResponse ++ chunk_text c in
      setChatMessages (update_last (set_text (Str modelResponse'))) ;;
      consume modelResponse' rest
  end.

Definition errorText : string :=
  "Sorry, I encountered an error. Please try again.".

(** The updater of the [catch] block. *)
Definition report_error (prev : list ChatMessage) : result (list ChatMessage) :=
  match last (map Some prev) None with
  | None => Throw TypeError
  | Some lastMsg =>
      match msgRole lastMsg, msgText lastMsg with
      | model, Str EmptyString => update_last (set_text (Str errorText)) prev
      | _, _ => push (mkChatMessage model (Str errorText)) prev
      end
  end.

Section Environment.

(** [!s.trim()] *)
Variable blank : string -> bool.

(** [chatRef.current.sendMessageStream({ message })] *)
Variable sendMessageStream : string -> result Stream.

Definition handleSendMessage : M chat unit :=
  c <- get ;;
  if blank (userInput c) || negb (chatRef c) || isChatting c then ret tt
  else
    setChatMessages (push (mkChatMessage user (Str (userInput c)))) ;;
    setUserInput "" ;;
    setIsChatting true ;;
    try_finally
      (try_catch
         (stream <- lift (sendMessageStream (userInput c)) ;;
          setChatMessages (push (mkChatMessage model (Str ""))) ;;
          consume "" (chunks stream) ;;
          match failure stream with
          | Some e => lift (Throw e)
          | None => ret tt
          end)
         (fun _ => setChatMessages report_error))
      (setIsChatting false).

End Environment.

(** The transcriptions of a live message:
    [message.serverContent?.inputTranscription] and
    [...outputTranscription], each with its [text] or without. *)
Record Transcriptions : Type := mkTranscriptions {
  inputTranscription : option (option string);
  outputTranscription : option (option string)
}.

(** The updater of a transcription fragment: appended to the last message
    when that has the same role, a new message otherwise. *)
Definition say (r : role) (fragment : option string) (prev : list ChatMessage)
  : result (list ChatMessage) :=
  match last (map Some prev) None with
  | Some lastMsg =>
      if role_eqb (msgRole lastMsg) r
      then update_last (fun m => set_text (append (msgText m) fragment) m) prev
      else push (mkChatMessage r (match fragment with
                                  | Some s => Str s
                                  | None => Undefined
                                  end)) prev
  | None => push (mkChatMessage r (match fragment with
                                   | Some s => Str s
                                   | None => Undefined
                                   end)) prev
  end.

(** The transcription part of [handleLiveMessage]. *)
Definition handleTranscription (t : Transcriptions) : M chat unit :=
  match inputTranscription t with
  | Some fragment => setChatMessages (say user fragment)
  | None =>
      match outputTranscription t with
      | Some fragment => setChatMessages (say model fragment)
      | None => ret tt
      end
  end.

(** The chat as [App] mounts it. *)
Definition greeting : ChatMessage :=
  mkChatMessage model
    (Str "Hello! I'm Naya, your personal AI assistant. How can I help you today?").

Definition mounted : chat := mkChat (Ok [greeting]) "" false true.

End Chat.

(** ** The whole of [handleLiveMessage] *)

Module Live.
Import Audio App Chat.
Local Open Scope eff_scope.

(** The live-session references and the chat of [App]. *)
Record app : Type := mkApp {
  refs : state;
  chatState : chat
}.

Definition on_refs {A} (m : M state A) : M app A :=
  zoom refs (fun s a => mkApp s (chatState a)) m.

Definition on_chat {A} (m : M chat A) : M app A :=
  zoom chatState (fun c a => mkApp (refs a) c) m.

(** [handleLiveMessage]: the audio and interruption part, then the
    transcription part; [t] is what the message carries as transcriptions. *)
Definition handleLiveMessage (raises : call -> bool) (webAudio : AudioContext)
    (now : Q) (message : LiveServerMessage) (t : Transcriptions) : M app unit :=
  on_refs (App.handleLiveMessage raises webAudio now message) ;;
  on_chat (handleTranscription t).

End Live.

(** ** The video panel ([handleGenerateVideo] in [App], [src/types.ts]) *)

Module VideoPanel.
Import Video.
Local Open Scope string_scope.
Local Open Scope eff_scope.

Inductive GenerationStatus : Type := idle | generating | success | failed.
  (* ['idle' | 'generating' | 'success' | 'error'] *)

Definition is_generating (g : GenerationStatus) : bool :=
  match g with
  | generating => true
  | _ => false
  end.

(** An uploaded file: its identity and its [type]. *)
Record File : Type := mkFile {
  fileId : nat;
  type : string
}.

Record panel : Type := mkPanel {
  videoPrompt : string;
  uploadedImage : option File;
  generationStatus : GenerationStatus;
  progressMessage : string;
  generatedVideoUrl : option string;
  errorMessage : string;
  isKeySelected : bool
}.

Definition setGenerationStatus (g : GenerationStatus) : M panel unit :=
  modify (fun p => mkPanel (videoPrompt p) (uploadedImage p) g
                     (progressMessage p) (generatedVideoUrl p) (errorMessage p)
                     (isKeySelected p)).

Definition setProgressMessage (m : string) : M panel unit :=
  modify (fun p => mkPanel (videoPrompt p) (uploadedImage p)
                     (generationStatus p) m (generatedVideoUrl p)
                     (errorMessage p) (isKeySelected p)).

Definition setGeneratedVideoUrl (u : option string) : M panel unit :=
  modify (fun p => mkPanel (videoPrompt p) (uploadedImage p)
                     (generationStatus p) (progressMessage p) u
                     (errorMessage p) (isKeySelected p)).

Definition setErrorMessage (m : string) : M panel unit :=
  modify (fun p => mkPanel (videoPrompt p) (uploadedImage p)
                     (generationStatus p) (progressMessage p)
                     (generatedVideoUrl p) m (isKeySelected p)).

Definition setIsKeySelected (b : bool) : M panel unit :=
  modify (fun p => mkPanel (videoPrompt p) (uploadedImage p)
                     (generationStatus p) (progressMessage p)
                     (generatedVideoUrl p) (errorMessage p) b).

(** [s.includes(needle)] *)
Fixpoint includes (needle s : string) : bool :=
  String.prefix needle s ||
  match s with
  | EmptyString => false
  | String _ s' => includes needle s'
  end.

Definition keyNotFound : string :=
  "API Key not found or invalid. Please re-select your key.".

Definition unknownError : string :=
  "An unknown error occurred during video generation.".

Section Environment.

(** [!s.trim()] *)
Variable blank : string -> bool.

(** [fileToBase64(file)]: the base64 part of the file's data URL, or the
    error of the reader. *)
Variable fileToBase64 : File -> result string.

(** The [message] of a thrown value that the application did not build
    itself, if it has one. *)
Variable platform_message : error -> option string.

Variable remote : Remote.

(** Iterations of the polling loop that are looked at. *)
Variable fuel : nat.

(** [error.message] *)
Definition message (e : error) : option string :=
  match e with
  | Error m => Some m
  | _ => platform_message e
  end.

(** [imagePayload] *)
Definition imagePayload (p : panel) : result (option (string * string)) :=
  match uploadedImage p with
  | Some file =>
      let! base64Data := fileToBase64 file in
      Ok (Some (base64Data, type file))
  | None => Ok None
  end.

(** The calls of [setProgressMessage] that a run of [generateVideo] makes. *)
Definition onProgress (log : list effect) : M panel unit :=
  forEach (fun e => match e with
                    | Progress m => setProgressMessage m
                    | Wait _ => ret tt
                    end) log.

(** The [catch] block. *)
Definition onFailure (e : error) : M panel unit :=
  (match message e with
   | Some (String c m) =>
       if includes "Requested entity was not found." (String c m)
       then setErrorMessage keyNotFound ;; setIsKeySelected false
       else setErrorMessage (String c m)
   | _ => setErrorMessage unknownError
   end) ;;
  setGenerationStatus failed.

(** [None] when the job is still unfinished after [fuel] status polls. *)
Definition handleGenerateVideo : M panel (option unit) :=
  p <- get ;;
  if blank (videoPrompt p) || is_generating (generationStatus p)
  then ret (Some tt)
  else
    setGenerationStatus generating ;;
    setGeneratedVideoUrl None ;;
    setErrorMessage "" ;;
    try_catch
      (payload <- lift (imagePayload p) ;;
       let (outcome, log) :=
         generateVideo remote fuel (videoPrompt p) Portrait payload [] in
       onProgress log ;;
       url <- lift outcome ;;
       match url with
       | Some url =>
           setGeneratedVideoUrl (Some url) ;;
           setGenerationStatus success ;;
           ret (Some tt)
       | None => ret None
       end)
      (fun e => onFailure e ;; ret (Some tt)).

End Environment.

End VideoPanel.

Module PanelSpec.
Import Video VideoPanel.
Local Open Scope string_scope.

(** The last progress message of a log, [m] when it has none. *)
Definition latest (log : list effect) (m : string) : string :=
  fold_left (fun m e => match e with Progress m' => m' | Wait _ => m end) log m.

Definition neverBlank (s : string) : bool := false.
Definition unreadable (f : File) : result string := Throw PlatformError.
Definition noMessage (e : error) : option string := None.

(** A panel with a prompt and no image, at rest. *)
Definition ready : panel :=
  mkPanel "a prompt" None idle "" None "" true.

(** A service that does not know the key. *)
Definition keylessRemote : Remote :=
  mkRemote "KEY"
    (fun _ => Throw (Error "404: Requested entity was not found."))
    (fun _ => Ok (mkOperation true None))
    (fun _ => Ok (mkResponse true "OK" (Ok 9%nat)))
    (fun _ => "blob:video").

End PanelSpec.

(** ** Starting and stopping the live session ([startRecording],
       [handleToggleRecording] and the [onError] callback in [App],
       [src/types.ts]) *)

Module Recorder.
Import App.
Local Open Scope string_scope.
Local Open Scope eff_scope.

(** What [startRecording] asks of the browser and the SDK, each answered or
    failing with an exception. *)
Record Devices : Type := mkDevices {
  getUserMedia : result (list handle);       (* the tracks of the stream *)
  newAudioContext : N -> result handle;      (* by [sampleRate] *)
  connectToLiveSession : result handle       (* the promise of the session *)
}.

(** The live-session references of [App] and its [errorMessage]. *)
Record recorder : Type := mkRecorder {
  live : state;
  errorMessage : string
}.

Definition set_mediaStreamRef (v : option (list handle)) (s : state) : state :=
  mkState (isRecording s) v (sessionPromiseRef s) (audioContextRef s)
    (audioPlaybackRef s) (trace s) (fresh s).

(** Runs on the references. *)
Definition on_live {A} (m : M state A) : M recorder A :=
  zoom live (fun s r => mkRecorder s (errorMessage r)) m.

Definition setErrorMessage (m : string) : M recorder unit :=
  modify (fun r => mkRecorder (live r) m).

Definition microphoneError : string :=
  "Could not access microphone. Please check your browser permissions.".

Definition connectionError : string := "A connection error occurred.".

Definition startRecording (d : Devices) : M recorder unit :=
  try_catch
    (on_live (modify (set_isRecording true)) ;;
     stream <- lift (getUserMedia d) ;;
     on_live (modify (set_mediaStreamRef (Some stream))) ;;
     inputAudioContext <- lift (newAudioContext d 16000) ;;
     outputAudioContext <- lift (newAudioContext d 24000) ;;
     session <- lift (connectToLiveSession d) ;;
     on_live (modify (set_sessionPromiseRef (Some session))) ;;
     on_live (modify (set_audioContextRef
                        (Some (mkContexts inputAudioContext outputAudioContext
                                 None None)))))
    (fun _ =>
       setErrorMessage microphoneError ;;
       on_live (modify (set_isRecording false))).

Section Platform.
Variable raises : call -> bool.

Definition handleToggleRecording (d : Devices) : M recorder unit :=
  r <- get ;;
  if isRecording (live r) then on_live (stopRecording raises)
  else startRecording d.

(** The [onError] callback of the session. *)
Definition onError : M recorder unit :=
  setErrorMessage connectionError ;;
  on_live (stopRecording raises).

End Platform.

End Recorder.

Module RecorderSpec.
Import App Recorder.
Local Open Scope string_scope.

(** Everything [startRecording] asks for is granted. *)
Definition granted (d : Devices) (stream : list handle)
    (inputCtx outputCtx session : handle) : Prop :=
  getUserMedia d = Ok stream /\
  newAudioContext d 16000 = Ok inputCtx /\
  newAudioContext d 24000 = Ok outputCtx /\
  connectToLiveSession d = Ok session.

(** The microphone is granted, and a later request fails. *)
Definition fails_after_microphone (d : Devices) (stream : list handle) : Prop :=
  getUserMedia d = Ok stream /\
  (match newAudioContext d 16000, newAudioContext d 24000, connectToLiveSession d with
   | Ok _, Ok _, Ok _ => False
   | _, _, _ => True
   end).

Definition atRest : recorder := mkRecorder initial "".

Definition workingDevices : Devices :=
  mkDevices (Ok [7%nat]) (fun rate => Ok (if N.eqb rate 16000 then 1 else 2)%nat)
    (Ok 3%nat).

(** The microphone is there, the API key is not. *)
Definition keylessDevices : Devices :=
  mkDevices (Ok [5%nat]) (fun rate => Ok (if N.eqb rate 16000 then 8 else 9)%nat)
    (Throw (Error "An API Key must be set when running in a browser")).

End RecorderSpec.

(** ** Vocabulary of the further properties *)

Module CodecSpec.
Import TypedArray.

(** The element of an [Int16Array] over the little-endian bytes [lo], [hi]. *)
Definition int16_of (lo hi : byte) : Z :=
  if (Z_of_byte lo + 256 * Z_of_byte hi >=? 32768)%Z
  then (Z_of_byte lo + 256 * Z_of_byte hi - 65536)%Z
  else (Z_of_byte lo + 256 * Z_of_byte hi)%Z.

Definition threeSamples : list Q := [1 # 2; - (1 # 3); -1].

End CodecSpec.

Module SessionSpec.
Import App.

(** The sources started in a trace. *)
Definition started_in (tr : list call) : list handle :=
  flat_map (fun c => match c with
                     | SourceStart src _ _ => [src]
                     | _ => []
                     end) tr.

(** [source.stop()] is only called on a source whose [start] was called
    before; [started] are the sources started before the trace begins. *)
Fixpoint stops_follow_starts (started : list handle) (tr : list call) : Prop :=
  match tr with
  | [] => True
  | SourceStart src _ _ :: rest => stops_follow_starts (src :: started) rest
  | SourceStop src :: rest => In src started /\ stops_follow_starts started rest
  | _ :: rest => stops_follow_starts started rest
  end.

Definition playback_inv (s : state) : Prop :=
  stops_follow_starts [] (trace s) /\
  forall src, In src (sources (audioPlaybackRef s)) -> In src (started_in (trace s)).

Definition tracks_of (s : state) : list handle :=
  match mediaStreamRef s with
  | Some tracks => tracks
  | None => []
  end.

(** The calls of a [stopRecording] in which nothing raises. *)
Definition releaseCalls (s : state) : list call :=
  map TrackStop (tracks_of s)
  ++ match sessionPromiseRef s with
     | Some session => [SessionThenClose session]
     | None => []
     end
  ++ match audioContextRef s with
     | Some ctxs =>
         match scriptProcessor ctxs with Some n => [NodeDisconnect n] | None => [] end
         ++ match source ctxs with Some n => [NodeDisconnect n] | None => [] end
         ++ [ContextClose (input ctxs); ContextClose (output ctxs)]
     | None => []
     end
  ++ map SourceStop (sources (audioPlaybackRef s)).

(** An environment in which [connect()] raises on the source with
    identity 32, the first that is made from [recording]. *)
Definition first_connect_fails (c : call) : bool :=
  match c with
  | SourceConnect src _ => Nat.eqb src 32
  | _ => false
  end.

End SessionSpec.

Module ChatSpec.
Import Chat.
Local Open Scope string_scope.
Local Open Scope eff_scope.

(** The chunks of a stream, or the fragments of a transcription, joined. *)
Definition join (l : list string) : string := fold_right String.append "" l.

(** The role of the last message differs from [r] (or there is none). *)
Definition last_role_differs (r : role) (msgs : list ChatMessage) : Prop :=
  match last (map Some msgs) None with
  | Some m => role_eqb (msgRole m) r = false
  | None => True
  end.

(** A live message with a fragment of what [r] said; a fragment of the
    user comes with any output transcription. *)
Definition heard (r : role) (f : string * option (option string))
  : Transcriptions :=
  match r with
  | user => mkTranscriptions (Some (Some (fst f))) (snd f)
  | model => mkTranscriptions None (Some (Some (fst f)))
  end.

(** The answer streams in two parts, and a fragment of what the user says
    to the live session is transcribed in between. *)
Definition answer_interrupted (before after : list (option string))
    (fragment : string) : M chat unit :=
  setChatMessages (push (mkChatMessage model (Str ""))) ;;
  consume "" before ;;
  handleTranscription (mkTranscriptions (Some (Some fragment)) None) ;;
  consume (join (map chunk_text before)) after.

(** What the transcript keeps of an answer whose stream broke. *)
Definition partial_answer (cs : list (option string)) : list ChatMessage :=
  match join (map chunk_text cs) with
  | EmptyString => []
  | answer => [mkChatMessage model (Str answer)]
  end.

Definition emptyOnly (s : string) : bool := String.eqb s "".

Definition twoChunks (message : string) : result Stream :=
  Ok (mkStream [Some "Hi"; None] None).

Definition brokenStream (message : string) : result Stream :=
  Ok (mkStream [Some "Hi"] (Some PlatformError)).

Definition refusing (message : string) : result Stream :=
  Throw PlatformError.

End ChatSpec.

Module PollSpec.
Import Video VideoSpec.
Local Open Scope string_scope.

(** [poll_fails remote op k e n]: starting from the unfinished [op] with [k]
    status polls already made, the [n]-th further poll is the first to fail,
    with [e], and no poll before it reports the job finished. *)
Inductive poll_fails (remote : Remote)
  : Operation -> nat -> error -> nat -> Prop :=
| poll_fails_now op k e :
    done op = false ->
    getVideosOperation remote k = Throw e ->
    poll_fails remote op k e 1
| poll_fails_later op k op' e n :
    done op = false ->
    getVideosOperation remote k = Ok op' ->
    poll_fails remote op' (S k) e n ->
    poll_fails remote op k e (S n).

(** Every status poll is answered, and none reports the job finished. *)
Definition never_done (remote : Remote) : Prop :=
  forall k, exists op, getVideosOperation remote k = Ok op /\ done op = false.

(** A job whose third status poll fails, and one that is never finished. *)
Definition flakyRemote : Remote :=
  mkRemote "KEY"
    (fun _ => Ok (mkOperation false None))
    (fun k => if Nat.eqb k 2 then Throw PlatformError
              else Ok (mkOperation false None))
    (fun _ => Ok (mkResponse true "OK" (Ok 9%nat)))
    (fun _ => "blob:video").

Definition stuckRemote : Remote :=
  mkRemote "KEY"
    (fun _ => Ok (mkOperation false None))
    (fun _ => Ok (mkOperation false None))
    (fun _ => Ok (mkResponse true "OK" (Ok 9%nat)))
    (fun _ => "blob:video").

End PollSpec.

Module GateSpec.
Import ApiKeySelector.

(** What happens to a mounted gate: the check of the mount effect, and a
    click on the button, each with the host as it is at that time. *)
Inductive action : Type :=
| Check (window_aistudio : option aistudio)
| Select (window_aistudio : option aistudio).

Definition act (a : action) (c : component) : component :=
  match a with
  | Check host => snd (checkApiKey host c)
  | Select host => snd (handleSelectKey host c)
  end.

Definition run (l : list action) (c : component) : component :=
  fold_left (fun c a => act a c) l c.

(** What the parent holds after the calls of [onKeySelectionChange] in
    [effects], starting from [held]. *)
Definition reported (effects : list effect) (held : bool) : bool :=
  fold_left (fun held e => match e with
                           | onKeySelectionChange b => b
                           | _ => held
                           end) effects held.

(** The host confirms a key: [hasSelectedApiKey] resolves to [true], or the
    dialog of [openSelectKey] is closed without an error. *)
Definition confirms (a : action) : Prop :=
  match a with
  | Check (Some {| hasSelectedApiKey := Some (Ok true) |}) => True
  | Select (Some {| openSelectKey := Some (Ok _) |}) => True
  | _ => False
  end.

End GateSpec.

(* ================================================================== *)
(** * Properties *)

(** ** Base64 *)

Module Base64Facts.
Import Base64.
Local Open Scope N_scope.

Ltac Zify.zify_post_hook ::= Z.to_euclidean_division_equations.

Lemma list_ind3 (A : Type) (P : list A -> Prop) :
  P [] -> (forall a, P [a]) -> (forall a b, P [a; b]) ->
  (forall a b c l, P l -> P (a :: b :: c :: l)) ->
  forall l, P l.
Proof.
  intros H0 H1 H2 H3 l.
  assert (H : P l /\ (forall a, P (a :: l)) /\ (forall a b, P (a :: b :: l))).
  { induction l as [|x l [IH0 [IH1 IH2]]].
    - repeat split; auto.
    - repeat split; auto. }
  apply H.
Qed.

Lemma enc_dec (i : N) : i < 64 -> dec (enc i) = Some i.
Proof.
  intros Hi. rewrite <- (N2Nat.id i).
  assert (Hn : (N.to_nat i < 64)%nat) by lia.
  clear Hi. revert Hn. generalize (N.to_nat i). clear i. intros n Hn.
  do 64 (destruct n as [|n]; [reflexivity|]). lia.
Qed.

Lemma enc_range (i : N) :
  43 <= enc i <= 122 /\ enc i <> pad.
Proof.
  unfold enc, pad.
  destruct (N.ltb_spec i 26); [lia|].
  destruct (N.ltb_spec i 52); [lia|].
  destruct (N.ltb_spec i 62); [lia|].
  destruct (N.eqb_spec i 62); lia.
Qed.

Lemma enc_not_whitespace (i : N) : is_ascii_whitespace (enc i) = false.
Proof.
  destruct (enc_range i) as [[Hlo _] _]. unfold is_ascii_whitespace.
  repeat (apply orb_false_intro); apply N.eqb_neq; lia.
Qed.

Lemma sextets_bound (l : list N) :
  Forall (fun b => b < 256) l -> Forall (fun v => v < 64) (sextets l).
Proof.
  induction l as [|a|a b|a b c l IH] using list_ind3; intros H; simpl.
  - constructor.
  - inversion_clear H. repeat constructor; lia.
  - inversion_clear H as [|? ? Ha H']. inversion_clear H' as [|? ? Hb _].
    repeat constructor; lia.
  - inversion_clear H as [|? ? Ha H']. inversion_clear H' as [|? ? Hb H''].
    inversion_clear H'' as [|? ? Hc Hl].
    repeat (constructor; [lia|]). auto.
Qed.

Lemma unsextets_sextets (l : list N) :
  Forall (fun b => b < 256) l -> unsextets (sextets l) = l.
Proof.
  induction l as [|a|a b|a b c l IH] using list_ind3; intros H.
  - reflexivity.
  - inversion_clear H. simpl. f_equal. lia.
  - inversion_clear H as [|? ? Ha H']. inversion_clear H' as [|? ? Hb _].
    simpl. f_equal; [lia|]. f_equal. lia.
  - inversion_clear H as [|? ? Ha H']. inversion_clear H' as [|? ? Hb H''].
    inversion_clear H'' as [|? ? Hc Hl].
    change (sextets (a :: b :: c :: l))
      with (a / 4 :: (a mod 4) * 16 + b / 16 :: (b mod 16) * 4 + c / 64
              :: c mod 64 :: sextets l).
    cbn [unsextets]. rewrite (IH Hl).
    f_equal; [lia|]. f_equal; [lia|]. f_equal. lia.
Qed.

Lemma dec_all_enc (vs : list N) :
  Forall (fun v => v < 64) vs -> dec_all (map enc vs) = Some vs.
Proof.
  induction 1 as [|v vs Hv _ IH]; simpl.
  - reflexivity.
  - rewrite (enc_dec Hv), IH. reflexivity.
Qed.

Lemma padding_cases (n : nat) :
  padding n = [] \/ padding n = [pad] \/ padding n = [pad; pad].
Proof.
  unfold padding. destruct (Nat.modulo n 3) as [|[|[|k]]]; auto.
Qed.

Lemma padding_S3 (n : nat) : padding (S (S (S n))) = padding n.
Proof.
  unfold padding. replace (S (S (S n))) with (n + 1 * 3)%nat by lia.
  rewrite Nat.Div0.mod_add. reflexivity.
Qed.

Lemma btoa_length (l : list N) :
  Nat.modulo (List.length (map enc (sextets l) ++ padding (List.length l))) 4 = 0%nat.
Proof.
  induction l as [|a|a b|a b c l IH] using list_ind3; try reflexivity.
  change (List.length (a :: b :: c :: l)) with (S (S (S (List.length l)))).
  rewrite padding_S3.
  change (sextets (a :: b :: c :: l))
    with (a / 4 :: (a mod 4) * 16 + b / 16 :: (b mod 16) * 4 + c / 64
            :: c mod 64 :: sextets l).
  cbn [map app List.length].
  match goal with |- Nat.modulo (S (S (S (S ?n)))) 4 = _ =>
    replace (S (S (S (S n)))) with (n + 1 * 4)%nat by lia end.
  rewrite Nat.Div0.mod_add. exact IH.
Qed.

Lemma sextets_length (l : list N) :
  Nat.modulo (List.length (sextets l)) 4 <> 1%nat.
Proof.
  induction l as [|a|a b|a b c l IH] using list_ind3; try (simpl; discriminate).
  change (sextets (a :: b :: c :: l))
    with (a / 4 :: (a mod 4) * 16 + b / 16 :: (b mod 16) * 4 + c / 64
            :: c mod 64 :: sextets l).
  cbn [List.length].
  match goal with |- Nat.modulo (S (S (S (S ?n)))) 4 <> _ =>
    replace (S (S (S (S n)))) with (n + 1 * 4)%nat by lia end.
  rewrite Nat.Div0.mod_add. exact IH.
Qed.

Lemma strip_pad_rev_spec (body p : list N) :
  Forall (fun c => c <> pad) body ->
  p = [] \/ p = [pad] \/ p = [pad; pad] ->
  rev (strip_pad_rev (rev (body ++ p))) = body.
Proof.
  intros Hbody Hp.
  assert (Hrev : Forall (fun c => c <> pad) (rev body)).
  { apply Forall_forall. intros c Hc. apply in_rev in Hc.
    revert c Hc. apply Forall_forall. exact Hbody. }
  rewrite rev_app_distr.
  assert (Hkeep : strip_pad_rev (rev body) = rev body).
  { destruct (rev body) as [|c r]; [reflexivity|].
    inversion_clear Hrev as [|? ? Hc _]. simpl.
    apply N.eqb_neq in Hc. rewrite Hc. reflexivity. }
  destruct Hp as [->|[->| ->]]; simpl.
  - rewrite Hkeep. apply rev_involutive.
  - destruct (rev body) as [|c r] eqn:E.
    + rewrite <- E. apply rev_involutive.
    + inversion_clear Hrev as [|? ? Hc _]. apply N.eqb_neq in Hc. rewrite Hc.
      rewrite <- E. apply rev_involutive.
  - apply rev_involutive.
Qed.

Lemma filter_id (A : Type) (f : A -> bool) (l : list A) :
  Forall (fun x => f x = true) l -> filter f l = l.
Proof.
  induction 1 as [|x l Hx _ IH]; simpl; [reflexivity|].
  rewrite Hx, IH. reflexivity.
Qed.

Lemma btoa_text_clean (l : list N) :
  Forall (fun c => negb (is_ascii_whitespace c) = true)
         (map enc (sextets l) ++ padding (List.length l)).
Proof.
  apply Forall_app. split.
  - apply Forall_forall. intros c Hc. apply in_map_iff in Hc.
    destruct Hc as [i [<- _]]. rewrite enc_not_whitespace. reflexivity.
  - destruct (padding_cases (List.length l)) as [->|[->| ->]];
      repeat constructor.
Qed.

Lemma atob_btoa (s : jsstring) :
  Forall (fun c => c < 256) s ->
  btoa s = Ok (map enc (sextets s) ++ padding (List.length s)) /\
  atob (map enc (sextets s) ++ padding (List.length s)) = Ok s.
Proof.
  intros Hs. split.
  - unfold btoa.
    replace (forallb (fun c => c <? 256) s) with true; [reflexivity|].
    symmetry. apply forallb_forall. intros c Hc. apply N.ltb_lt.
    revert c Hc. apply Forall_forall. exact Hs.
  - unfold atob.
    rewrite (filter_id _ (btoa_text_clean s)).
    unfold remove_padding. rewrite btoa_length. cbn [Nat.eqb].
    rewrite strip_pad_rev_spec.
    + pose proof (sextets_length s) as Hlen.
      rewrite length_map.
      destruct (Nat.eqb_spec (Nat.modulo (List.length (sextets s)) 4) 1);
        [contradiction|].
      rewrite (dec_all_enc (sextets_bound Hs)).
      rewrite (unsextets_sextets Hs). reflexivity.
    + apply Forall_forall. intros c Hc. apply in_map_iff in Hc.
      destruct Hc as [i [<- _]]. apply enc_range.
    + apply padding_cases.
Qed.

End Base64Facts.

(** ** Lists and typed arrays *)

Module ArrayFacts.
Import TypedArray.

Lemma list_ind2 (A : Type) (P : list A -> Prop) :
  P [] -> (forall a, P [a]) -> (forall a b l, P l -> P (a :: b :: l)) ->
  forall l, P l.
Proof.
  intros H0 H1 H2 l.
  assert (H : P l /\ forall a, P (a :: l)).
  { induction l as [|x l [IH0 IH1]]; split; auto. }
  apply H.
Qed.

Lemma fold_left_snoc (A B : Type) (f : A -> B) (l : list A) (acc : list B) :
  fold_left (fun acc a => acc ++ [f a]) l acc = acc ++ map f l.
Proof.
  revert acc. induction l as [|a l IH]; intros acc; simpl.
  - now rewrite app_nil_r.
  - rewrite IH, <- app_assoc. reflexivity.
Qed.

Lemma store_out_of_range (A : Type) (a : list A) (i : nat) (v : A) :
  (List.length a <= i)%nat -> store a i v = a.
Proof.
  revert i. induction a as [|x a IH]; intros i Hi; [reflexivity|].
  destruct i as [|i]; simpl in *; [lia|].
  rewrite IH by lia. reflexivity.
Qed.

Lemma store_middle (A : Type) (l1 l2 : list A) (x v : A) :
  store (l1 ++ x :: l2) (List.length l1) v = l1 ++ v :: l2.
Proof.
  induction l1 as [|y l1 IH]; simpl; [reflexivity|].
  rewrite IH. reflexivity.
Qed.

(** A loop [for i < m: a[i] = f i] over an array of [k] copies of [z]. *)
Lemma fill_repeat (A : Type) (f : nat -> A) (z : A) (k m : nat) :
  fold_left (fun cd i => store cd i (f i)) (seq 0 m) (repeat z k)
  = map f (seq 0 (Nat.min m k)) ++ repeat z (k - m).
Proof.
  induction m as [|m IH].
  - simpl. rewrite Nat.sub_0_r. reflexivity.
  - rewrite seq_S, fold_left_app, IH. cbn [fold_left Nat.add].
    destruct (Nat.lt_ge_cases m k) as [Hlt|Hge].
    + replace (Nat.min m k) with m by lia.
      replace (Nat.min (S m) k) with (S m) by lia.
      replace (k - m)%nat with (S (k - S m)) by lia.
      rewrite seq_S, map_app. simpl.
      rewrite <- app_assoc. simpl.
      replace m with (List.length (map f (seq 0 m))) at 3
        by now rewrite length_map, length_seq.
      apply store_middle.
    + replace (Nat.min m k) with k by lia.
      replace (Nat.min (S m) k) with k by lia.
      replace (k - m)%nat with 0%nat by lia.
      replace (k - S m)%nat with 0%nat by lia.
      apply store_out_of_range.
      rewrite length_app, length_map, length_seq. simpl. lia.
Qed.

Lemma Z_of_byte_of_Z (z : Z) : Z_of_byte (byte_of_Z z) = (z mod 256)%Z.
Proof.
  unfold Z_of_byte, byte_of_Z.
  assert (Hr : (0 <= z mod 256 < 256)%Z) by (apply Z.mod_pos_bound; lia).
  pose proof (Byte.to_of_N_option_map (Z.to_N (z mod 256))) as H.
  replace (N.leb (Z.to_N (z mod 256)) 255) with true in H
    by (symmetry; apply N.leb_le; lia).
  destruct (Byte.of_N (Z.to_N (z mod 256))) as [b|]; simpl in H; [|discriminate].
  injection H as ->. lia.
Qed.

Lemma byte_of_Z_of_byte (b : byte) : byte_of_Z (Z.of_N (Byte.to_N b)) = b.
Proof.
  unfold byte_of_Z.
  pose proof (Byte.to_N_bounded b) as Hb.
  rewrite Z.mod_small by lia.
  rewrite N2Z.id, Byte.of_to_N. reflexivity.
Qed.

Lemma Int16Array_odd (buf : list byte) :
  Nat.odd (List.length buf) = true -> Int16Array_of_buffer buf = Throw RangeError.
Proof.
  induction buf as [|a|a b buf IH] using list_ind2; intros H.
  - discriminate.
  - reflexivity.
  - change (List.length (a :: b :: buf)) with (S (S (List.length buf))) in H.
    rewrite Nat.odd_succ_succ in H.
    cbn [Int16Array_of_buffer]. rewrite (IH H). reflexivity.
Qed.

Lemma Int16Array_even (buf : list byte) :
  Nat.even (List.length buf) = true ->
  exists vs, Int16Array_of_buffer buf = Ok vs /\
             List.length vs = Nat.div (List.length buf) 2.
Proof.
  induction buf as [|a|a b buf IH] using list_ind2; intros H.
  - exists []. split; reflexivity.
  - discriminate.
  - change (List.length (a :: b :: buf)) with (S (S (List.length buf))) in *.
    rewrite Nat.even_succ_succ in H.
    destruct (IH H) as [vs [E L]].
    cbn [Int16Array_of_buffer]. rewrite E.
    eexists. split; [reflexivity|].
    cbn [List.length]. rewrite L.
    replace (S (S (List.length buf))) with (List.length buf + 1 * 2)%nat by lia.
    rewrite Nat.div_add by lia. lia.
Qed.

Lemma wrap16_range (z : Z) : (-32768 <= wrap16 z <= 32767)%Z.
Proof.
  unfold wrap16.
  assert (0 <= z mod 65536 < 65536)%Z by (apply Z.mod_pos_bound; lia).
  destruct (Z.geb_spec (z mod 65536) 32768); lia.
Qed.

Lemma wrap16_small (z : Z) : (-32768 <= z <= 32767)%Z -> wrap16 z = z.
Proof.
  intros Hz. unfold wrap16.
  destruct (Z.geb_spec (z mod 65536) 32768) as [H|H];
    revert H; Z.to_euclidean_division_equations; lia.
Qed.

Lemma Int16Array_buffer (vs : list Z) :
  Forall (fun v => (-32768 <= v <= 32767)%Z) vs ->
  Int16Array_of_buffer (buffer_of_Int16Array vs) = Ok vs.
Proof.
  induction 1 as [|v vs Hv _ IH]; [reflexivity|].
  cbn [buffer_of_Int16Array Int16Array_of_buffer]. rewrite IH.
  rewrite !Z_of_byte_of_Z. do 2 f_equal.
  match goal with |- (if (?a >=? ?b)%Z then _ else _) = _ =>
    destruct (Z.geb_spec a b) as [E|E] end;
    revert E; Z.to_euclidean_division_equations; lia.
Qed.

Lemma buffer_length (vs : list Z) :
  List.length (buffer_of_Int16Array vs) = (2 * List.length vs)%nat.
Proof.
  induction vs as [|v vs IH]; simpl; [reflexivity|]. rewrite IH. lia.
Qed.

End ArrayFacts.

(** ** The audio helpers *)

Module AudioFacts.
Import Base64 TypedArray Audio AudioSpec Base64Facts ArrayFacts.

Lemma encode_eq (bytes : list byte) :
  encode bytes
  = Ok (map enc (sextets (map Byte.to_N bytes)) ++ padding (List.length bytes)).
Proof.
  unfold encode. rewrite fold_left_snoc. cbn [app].
  assert (H : Forall (fun c => (c < 256)%N) (map Byte.to_N bytes)).
  { apply Forall_forall. intros c Hc. apply in_map_iff in Hc.
    destruct Hc as [b [<- _]]. pose proof (Byte.to_N_bounded b). lia. }
  destruct (atob_btoa H) as [E _]. rewrite E, length_map. reflexivity.
Qed.

Lemma decode_encode_eq (bytes : list byte) :
  decode (map enc (sextets (map Byte.to_N bytes)) ++ padding (List.length bytes))
  = Ok bytes.
Proof.
  assert (H : Forall (fun c => (c < 256)%N) (map Byte.to_N bytes)).
  { apply Forall_forall. intros c Hc. apply in_map_iff in Hc.
    destruct Hc as [b [<- _]]. pose proof (Byte.to_N_bounded b). lia. }
  destruct (atob_btoa H) as [_ E]. rewrite length_map in E.
  unfold decode. rewrite E. cbn [rbind]. f_equal.
  rewrite map_map. rewrite <- (map_id bytes) at 2.
  apply map_ext. intros b. apply byte_of_Z_of_byte.
Qed.

Lemma count_div_pos (n c : nat) :
  (1 <= c)%nat -> count_div n c = Fin (Z.of_nat n # Pos.of_nat c).
Proof. destruct c; [lia|reflexivity]. Qed.

Lemma Zpos_of_nat (c : nat) : (1 <= c)%nat -> Zpos (Pos.of_nat c) = Z.of_nat c.
Proof.
  intros Hc. rewrite <- positive_nat_Z, Nat2Pos.id by lia. reflexivity.
Qed.

Lemma Qtrunc_count (n c : nat) :
  (1 <= c)%nat -> Qtrunc (Z.of_nat n # Pos.of_nat c) = Z.of_nat (Nat.div n c).
Proof.
  intros Hc. unfold Qtrunc. cbn [Qnum Qden].
  rewrite (Zpos_of_nat Hc), Z.quot_div_nonneg by lia.
  symmetry. apply Nat2Z.inj_div.
Qed.

Lemma Qceil_count (n c : nat) :
  (1 <= c)%nat ->
  (Nat.div n c <= Z.to_nat (Qceil (Z.of_nat n # Pos.of_nat c)))%nat.
Proof.
  intros Hc. unfold Qceil. cbn [Qnum Qden].
  rewrite (Zpos_of_nat Hc).
  assert (Z.of_nat (Nat.div n c) <= - (- Z.of_nat n / Z.of_nat c))%Z; [|lia].
  rewrite Nat2Z.inj_div.
  Z.to_euclidean_division_equations; nia.
Qed.

Lemma supports_spec (ctx : AudioContext) (rate : Q) (c : nat) :
  supports ctx rate c = true <->
  0 < rate /\ minSampleRate ctx <= rate /\ rate <= maxSampleRate ctx /\
  (c <= maxChannels ctx)%nat.
Proof.
  unfold supports. rewrite !andb_true_iff, negb_true_iff, !Qle_bool_iff.
  rewrite Nat.leb_le. split.
  - intros [[[Hp Hl] Hu] Hc]. repeat split; auto.
    apply Qnot_le_lt. intros H. apply Qle_bool_iff in H. congruence.
  - intros [Hp [Hl [Hu Hc]]]. repeat split; auto.
    apply not_true_is_false. intros H. apply Qle_bool_iff in H.
    apply (Qlt_irrefl 0). eapply Qlt_le_trans; eauto.
Qed.

(** What [createBuffer] of the least ranges takes, that of every conforming
    implementation takes. *)
Lemma supports_conforming (ctx : AudioContext) (rate : Q) (c : nat) :
  conforming ctx ->
  supports leastContext rate c = true -> supports ctx rate c = true.
Proof.
  intros [Hl [Hu Hc]] H. apply supports_spec in H. apply supports_spec.
  cbn [leastContext minSampleRate maxSampleRate maxChannels] in H.
  destruct H as [Hp [H1 [H2 H3]]]. repeat split; auto.
  - eapply Qle_trans; eauto.
  - eapply Qle_trans; eauto.
  - lia.
Qed.

(** With an even number of bytes, at least one channel and at least one
    whole frame, and a rate and a number of channels that the context
    supports, [decodeAudioData] returns the truncated quotient of frames. *)
Lemma decodeAudioData_frames (data : list byte) (vs : list Z)
    (ctx : AudioContext) (rate : Q) (c : nat) :
  Int16Array_of_buffer data = Ok vs ->
  supports ctx rate c = true ->
  (1 <= c)%nat -> (1 <= Nat.div (List.length vs) c)%nat ->
  (Z.of_nat (List.length vs) < 4294967296)%Z ->
  decodeAudioData data ctx rate c
  = Ok (mkAudioBuffer c (Nat.div (List.length vs) c) rate
          (deinterleave vs c (Nat.div (List.length vs) c))).
Proof.
  intros Hview Hrate Hc Hframes Hsize.
  set (k := Nat.div (List.length vs) c) in *.
  unfold decodeAudioData. rewrite Hview. cbn [rbind].
  rewrite (count_div_pos _ Hc).
  unfold createBuffer, ToUint32. rewrite (Qtrunc_count _ Hc). fold k.
  assert (Hk : (Z.of_nat k <= Z.of_nat (List.length vs))%Z).
  { apply Nat2Z.inj_le. apply Nat.Div0.div_le_upper_bound.
    destruct c; [lia|]. nia. }
  rewrite Z.mod_small by lia. rewrite Nat2Z.id.
  replace (Nat.eqb c 0) with false by (symmetry; apply Nat.eqb_neq; lia).
  replace (Nat.eqb k 0) with false by (symmetry; apply Nat.eqb_neq; lia).
  rewrite Hrate.
  cbn [orb negb rbind numberOfChannels length sampleRate channels].
  do 2 f_equal. unfold deinterleave.
  apply map_ext_in. intros channel Hin. apply in_seq in Hin.
  unfold fill_channel.
  rewrite nth_repeat_lt by lia.
  unfold iterations.
  rewrite (fill_repeat (fun i => sample_at vs (i * c + channel))).
  pose proof (Qceil_count (List.length vs) Hc) as Hceil. fold k in Hceil.
  replace (Nat.min _ k) with k by lia.
  replace (k - _)%nat with 0%nat by lia.
  apply app_nil_r.
Qed.

Lemma decodeAudioData_no_frame (data : list byte) (vs : list Z)
    (ctx : AudioContext) (rate : Q) (c : nat) :
  Int16Array_of_buffer data = Ok vs ->
  (Z.of_nat (List.length vs) < 4294967296)%Z ->
  c = 0%nat \/ Nat.div (List.length vs) c = 0%nat ->
  decodeAudioData data ctx rate c = Throw NotSupportedError.
Proof.
  intros Hview Hsize Hz.
  unfold decodeAudioData. rewrite Hview. cbn [rbind].
  destruct c as [|c].
  - unfold createBuffer. reflexivity.
  - destruct Hz as [Hz|Hz]; [discriminate|].
    rewrite count_div_pos by lia.
    unfold createBuffer, ToUint32. rewrite Qtrunc_count by lia.
    rewrite Hz. reflexivity.
Qed.

Lemma decodeAudioData_unsupported (data : list byte) (vs : list Z)
    (ctx : AudioContext) (rate : Q) (c : nat) :
  Int16Array_of_buffer data = Ok vs ->
  supports ctx rate c = false ->
  decodeAudioData data ctx rate c = Throw NotSupportedError.
Proof.
  intros Hview Hs. unfold decodeAudioData. rewrite Hview. cbn [rbind].
  unfold createBuffer. rewrite Hs. cbn [negb]. rewrite !orb_true_r.
  reflexivity.
Qed.

(** A buffer that decodes with the least ranges decodes to the same in
    every conforming implementation. *)
Lemma decodeAudioData_conforming (data : list byte) (ctx : AudioContext)
    (rate : Q) (c : nat) (b : AudioBuffer) :
  conforming ctx ->
  decodeAudioData data leastContext rate c = Ok b ->
  decodeAudioData data ctx rate c = Ok b.
Proof.
  intros Hc. unfold decodeAudioData.
  destruct (Int16Array_of_buffer data) as [vs|e]; [|discriminate].
  cbn [rbind]. unfold createBuffer.
  destruct (Nat.eqb c 0); [discriminate|].
  destruct (Nat.eqb _ 0); [discriminate|]. cbn [orb].
  destruct (supports leastContext rate c) eqn:Hs; [|discriminate].
  rewrite (supports_conforming _ _ Hc Hs). auto.
Qed.

Lemma sample_at_in_range (vs : list Z) (k : nat) :
  (k < List.length vs)%nat -> sample_at vs k = Fin (nth k vs 0%Z # 32768).
Proof.
  intros Hk. unfold sample_at.
  rewrite (nth_error_nth' vs 0%Z Hk). reflexivity.
Qed.

Lemma deinterleave_mono (vs : list Z) :
  deinterleave vs 1 (List.length vs) = [map (fun v => Fin (v # 32768)) vs].
Proof.
  unfold deinterleave. cbn [seq map]. f_equal.
  apply nth_error_ext. intros n.
  rewrite !nth_error_map, nth_error_seq.
  destruct (Nat.ltb_spec n (List.length vs)) as [H|H].
  - cbn [option_map Nat.add]. replace (n * 1 + 0)%nat with n by lia.
    rewrite sample_at_in_range by lia.
    rewrite (nth_error_nth' vs 0%Z H). reflexivity.
  - apply nth_error_None in H. rewrite H. reflexivity.
Qed.

Lemma createBlob_eq (samples : list number) :
  createBlob samples
  = Ok (mkBlob
          (map enc (sextets (map Byte.to_N
             (buffer_of_Int16Array (map (fun x => ToInt16 (times x 32768)) samples))))
           ++ padding (2 * List.length samples))
          "audio/pcm;rate=16000").
Proof.
  unfold createBlob. rewrite encode_eq. cbn [rbind].
  rewrite buffer_length, length_map. reflexivity.
Qed.

Lemma ToInt16_range (x : number) : (-32768 <= ToInt16 x <= 32767)%Z.
Proof. destruct x; simpl; try lia. apply wrap16_range. Qed.

Lemma trunc_bound (q : Q) :
  -1 <= q -> q < 1 -> (-32768 <= Qtrunc (q * 32768) <= 32767)%Z.
Proof.
  destruct q as [n d]. unfold Qle, Qlt, Qtrunc. cbn [Qnum Qden Qmult].
  rewrite Pos.mul_1_r. intros H1 H2.
  change (Qnum (-1)) with (-1)%Z in H1. change (Qnum 1) with 1%Z in H2.
  change (Z.pos (Qden 1)) with 1%Z in *.
  change (Z.pos (Qden (-1))) with 1%Z in *.
  Z.to_euclidean_division_equations. nia.
Qed.

Lemma trunc_error (q : Q) :
  Qabs (q - (Qtrunc (q * 32768) # 32768)) <= 1 # 32768.
Proof.
  apply Qabs_Qle_condition.
  destruct q as [n d].
  unfold Qle, Qtrunc, Qminus, Qplus, Qopp. cbn [Qnum Qden Qmult].
  rewrite Pos.mul_1_r. rewrite !Pos2Z.inj_mul.
  generalize (Pos2Z.is_pos d). generalize (Z.pos d). intros D HD.
  Z.to_euclidean_division_equations. nia.
Qed.

(** Below full scale the PCM round trip is within one quantisation step:
    for a non-empty sequence of samples in [-1, 1), [createBlob], [decode]
    and [decodeAudioData] with one channel, at a rate the context supports,
    give back one channel of the same
    length whose samples differ from the originals by at most 1/32768. *)
Lemma pcm_round_trip_below_full_scale (qs : list Q) (ctx : AudioContext)
    (rate : Q) :
  Forall (fun q => -1 <= q /\ q < 1) qs ->
  qs <> [] -> supports ctx rate 1 = true ->
  (Z.of_nat (List.length qs) < 4294967296)%Z ->
  exists text bytes,
    createBlob (map Fin qs) = Ok (mkBlob text "audio/pcm;rate=16000") /\
    decode text = Ok bytes /\
    decodeAudioData bytes ctx rate 1
    = Ok (mkAudioBuffer 1 (List.length qs) rate [map Fin (map quantize qs)]) /\
    Forall (fun q => Qabs (q - quantize q) <= 1 # 32768) qs.
Proof.
  intros Hrange Hne Hrate Hsize.
  set (int16 := map (fun x => ToInt16 (times x 32768)) (map Fin qs)).
  assert (Hlen : List.length int16 = List.length qs)
    by (unfold int16; now rewrite !length_map).
  do 2 eexists. split; [apply createBlob_eq|]. split.
  { rewrite <- (length_map (fun x => ToInt16 (times x 32768))).
    rewrite <- buffer_length. apply decode_encode_eq. }
  split.
  - fold int16.
    assert (Hview : Int16Array_of_buffer (buffer_of_Int16Array int16) = Ok int16).
    { apply Int16Array_buffer. apply Forall_forall. intros v Hv.
      apply in_map_iff in Hv. destruct Hv as [x [<- _]]. apply ToInt16_range. }
    rewrite (@decodeAudioData_frames _ _ ctx rate 1%nat Hview Hrate (le_n 1)).
    + rewrite Nat.div_1_r, deinterleave_mono, Hlen.
      unfold int16. rewrite !map_map. reflexivity.
    + rewrite Nat.div_1_r, Hlen. destruct qs; [contradiction|simpl; lia].
    + rewrite Hlen. exact Hsize.
  - apply Forall_forall. intros q Hq.
    assert (Hq' : -1 <= q /\ q < 1)
      by (revert q Hq; apply Forall_forall; exact Hrange).
    unfold quantize. cbn [times ToInt16].
    rewrite wrap16_small by (apply trunc_bound; tauto).
    apply trunc_error.
Qed.

(** C5: for every byte sequence [b], [decode(encode(b))] is [b]; [encode]
    never throws on bytes. *)
Theorem decode_encode (b : list byte) :
  (let! text := encode b in decode text) = Ok b.
Proof.
  rewrite encode_eq. cbn [rbind]. apply decode_encode_eq.
Qed.

Lemma createBlob_decodes (samples : list number) :
  exists text bytes,
    createBlob samples = Ok (mkBlob text "audio/pcm;rate=16000") /\
    decode text = Ok bytes /\
    List.length bytes = (2 * List.length samples)%nat.
Proof.
  do 2 eexists. split; [apply createBlob_eq|]. split.
  - rewrite <- (length_map (fun x => ToInt16 (times x 32768))).
    rewrite <- buffer_length. apply decode_encode_eq.
  - rewrite buffer_length, length_map. reflexivity.
Qed.

(** C7: for every frame of N samples, [createBlob] returns a blob whose MIME
    type is exactly [audio/pcm;rate=16000] and whose base64 data decodes to
    exactly 2 * N bytes. *)
Theorem createBlob_frame (samples : list number) :
  exists text bytes,
    createBlob samples = Ok (mkBlob text "audio/pcm;rate=16000") /\
    decode text = Ok bytes /\
    List.length bytes = (2 * List.length samples)%nat.
Proof. apply createBlob_decodes. Qed.

(** The capture frame of the source configuration: 4096 samples give 8192
    bytes. *)
Corollary createBlob_capture_frame (samples : list number) :
  List.length samples = App.frameSize ->
  exists text bytes,
    createBlob samples = Ok (mkBlob text "audio/pcm;rate=16000") /\
    decode text = Ok bytes /\
    Z.of_nat (List.length bytes) = 8192%Z.
Proof.
  intros H. destruct (createBlob_decodes samples) as [text [bytes [E [D L]]]].
  exists text, bytes. repeat split; auto.
  rewrite L, H. reflexivity.
Qed.

(** C2, refuted as stated: six bytes are not a multiple of 2 * 2 bytes, yet
    [decodeAudioData] with two channels returns a one-frame buffer and drops
    the third sample, already with the least ranges of [createBuffer] (hence
    in every conforming implementation, [decodeAudioData_conforming]). *)
Lemma decodeAudioData_truncates :
  Nat.modulo (List.length sixBytes) (2 * 2) <> 0%nat /\
  decodeAudioData sixBytes leastContext 24000 2
  = Ok (mkAudioBuffer 2 1 24000 [[Fin (1 # 32768)]; [Fin (2 # 32768)]]).
Proof. split; [discriminate|reflexivity]. Qed.

(** C2, amended: [decodeAudioData] throws [RangeError] on an odd byte
    length.  On an even byte length it makes no divisibility check: with
    [n] 16-bit samples and [c] channels it throws [NotSupportedError] when
    [c] is 0, when fewer than [c] samples are present, or when the sample
    rate or the number of channels is outside the ranges that
    [createBuffer] of the context supports (a rate that is not positive is
    outside them); in every other case it returns [n / c] (rounded down)
    frames per channel, frame [i] of channel [ch] being sample [i * c + ch],
    and the trailing [n mod c] samples are dropped. *)
Theorem decodeAudioData_framing (data : list byte) (ctx : AudioContext)
    (rate : Q) (c : nat) :
  (Z.of_nat (List.length data) < 4294967296)%Z ->
  (Nat.odd (List.length data) = true ->
   decodeAudioData data ctx rate c = Throw RangeError) /\
  (Nat.even (List.length data) = true ->
   exists vs,
     Int16Array_of_buffer data = Ok vs /\
     List.length vs = Nat.div (List.length data) 2 /\
     (c = 0%nat \/ (List.length vs < c)%nat \/ supports ctx rate c = false ->
      decodeAudioData data ctx rate c = Throw NotSupportedError) /\
     ((1 <= c <= List.length vs)%nat -> supports ctx rate c = true ->
      decodeAudioData data ctx rate c
      = Ok (mkAudioBuffer c (Nat.div (List.length vs) c) rate
              (deinterleave vs c (Nat.div (List.length vs) c))))).
Proof.
  intros Hsize. split.
  - intros Hodd. unfold decodeAudioData.
    rewrite (Int16Array_odd _ Hodd). reflexivity.
  - intros Heven. destruct (Int16Array_even _ Heven) as [vs [Hview Hlen]].
    exists vs. split; [exact Hview|]. split; [exact Hlen|].
    assert (Hvs : (Z.of_nat (List.length vs) < 4294967296)%Z).
    { assert (List.length vs <= List.length data)%nat; [|lia].
      rewrite Hlen. apply Nat.Div0.div_le_upper_bound. lia. }
    split.
    + intros [Hc|[Hc|Hs]].
      * apply (@decodeAudioData_no_frame data vs ctx rate c Hview Hvs); auto.
      * apply (@decodeAudioData_no_frame data vs ctx rate c Hview Hvs).
        right. apply Nat.div_small. exact Hc.
      * apply (@decodeAudioData_unsupported data vs ctx rate c Hview Hs).
    + intros [Hc1 Hc2] Hs.
      apply (@decodeAudioData_frames data vs ctx rate c Hview Hs Hc1); auto.
      apply Nat.div_le_lower_bound; lia.
Qed.

Lemma decodeAudioData_framing_witness :
  exists vs,
    Int16Array_of_buffer sixBytes = Ok vs /\
    List.length vs = 3%nat /\
    decodeAudioData sixBytes leastContext 24000 2
    = Ok (mkAudioBuffer 2 1 24000 (deinterleave vs 2 1)) /\
    decodeAudioData sixBytes leastContext 1000 2 = Throw NotSupportedError /\
    decodeAudioData sixBytes leastContext 24000 40 = Throw NotSupportedError.
Proof.
  assert (Hsize : (Z.of_nat (List.length sixBytes) < 4294967296)%Z) by reflexivity.
  destruct (@decodeAudioData_framing sixBytes leastContext 24000 2 Hsize)
    as [_ H].
  destruct (H eq_refl) as [vs [Hview [Hlen [_ Hok]]]].
  exists vs. split; [exact Hview|]. split; [exact Hlen|]. split.
  - rewrite Hok; [|rewrite Hlen; simpl; lia|reflexivity].
    rewrite Hlen. reflexivity.
  - split.
    + destruct (@decodeAudioData_framing sixBytes leastContext 1000 2 Hsize)
        as [_ H1].
      destruct (H1 eq_refl) as [vs1 [_ [_ [Hno _]]]].
      apply Hno. right. right. reflexivity.
    + destruct (@decodeAudioData_framing sixBytes leastContext 24000 40 Hsize)
        as [_ H2].
      destruct (H2 eq_refl) as [vs2 [_ [_ [Hno _]]]].
      apply Hno. right. right. reflexivity.
Defined.

(** C1 at its failing input: the full-scale sample 1.0 becomes 32768, which
    [ToInt16] wraps to -32768, so the round trip returns -1.0 and the error
    is 2, not at most 1/32768.  The rate and the single channel are within
    the ranges of every implementation. *)
Theorem pcm_round_trip_full_scale_wraps :
  (let! blob := createBlob [Fin 1] in
   let! bytes := decode (data blob) in
   decodeAudioData bytes leastContext 16000 1)
  = Ok (mkAudioBuffer 1 1 16000 [[Fin (-32768 # 32768)]]) /\
  ~ Qabs (1 - (-32768 # 32768)) <= 1 # 32768.
Proof.
  split; [reflexivity|]. intros H. vm_compute in H. apply H. reflexivity.
Qed.

End AudioFacts.

(** ** Computations *)

Module Hoare.

Section WP.
Context {S : Type}.

Lemma wp_bind (A B : Type) (m : M S A) (k : A -> M S B) Q s :
  wp m (fun r s' => match r with
                    | Ok a => wp (k a) Q s'
                    | Throw e => Q (Throw e) s'
                    end) s ->
  wp (bind m k) Q s.
Proof.
  unfold wp, bind. destruct (m s) as [[a|e] s']; cbn; auto.
Qed.

Lemma wp_ret (A : Type) (a : A) (Q : result A -> S -> Prop) s :
  Q (Ok a) s -> wp (ret a) Q s.
Proof. auto. Qed.

Lemma wp_get (Q : result S -> S -> Prop) s : Q (Ok s) s -> wp get Q s.
Proof. auto. Qed.

Lemma wp_modify (f : S -> S) (Q : result unit -> S -> Prop) s :
  Q (Ok tt) (f s) -> wp (modify f) Q s.
Proof. auto. Qed.

Lemma wp_lift (A : Type) (r : result A) (Q : result A -> S -> Prop) s :
  Q r s -> wp (lift r) Q s.
Proof. auto. Qed.

Lemma wp_weaken (A : Type) (m : M S A) (Q Q' : result A -> S -> Prop) s :
  wp m Q s -> (forall r s', Q r s' -> Q' r s') -> wp m Q' s.
Proof. unfold wp. auto. Qed.


End WP.

End Hoare.

(** ** The live session *)

Module AppFacts.
Import Base64 Audio AudioSpec App AppSpec Hoare.

Lemma wp_perform (raises : call -> bool) (c : call) (Q : result unit -> state -> Prop) s :
  (raises c = true -> Q (Throw PlatformError) s) ->
  (raises c = false -> Q (Ok tt) (record c s)) ->
  wp (perform raises c) Q s.
Proof.
  unfold wp, perform. destruct (raises c); cbn; auto.
Qed.

Ltac wp_step :=
  lazymatch goal with
  | |- wp (bind _ _) _ _ => apply wp_bind
  | |- wp (ret _) _ _ => apply wp_ret
  | |- wp get _ _ => apply wp_get
  | |- wp (modify _) _ _ => apply wp_modify
  | |- wp (lift _) _ _ => apply wp_lift
  | |- wp (perform _ _) _ _ => apply wp_perform; intros ?
  end.

Ltac fail_with l :=
  split; [repeat split|]; right; exists l; cbn;
  rewrite <- ?app_assoc, ?app_nil_r; repeat split; auto; discriminate.

Section Platform.
Variable raises : call -> bool.
Variable webAudio : AudioContext.

Lemma starts_app (a b : list call) : starts (a ++ b) = starts a ++ starts b.
Proof. unfold starts. apply flat_map_app. Qed.

Lemma playAudio_cases (now : Q) (d : jsstring) (ctx : handle) (s : state) :
  wp (playAudio raises webAudio now d ctx)
     (fun r s' =>
        same_refs s s' /\
        ((exists b,
            decoded webAudio d = Ok b /\ r = Ok tt /\
            trace s' = trace s ++ playCalls ctx (fresh s) b (Qmax (nst s) now) /\
            nst s' = Qmax (nst s) now + duration b /\
            active s' = set_add (fresh s) (active s))
         \/
         (exists calls,
            r <> Ok tt /\
            trace s' = trace s ++ calls /\ starts calls = [] /\
            nst s' = Qmax (nst s) now /\ active s' = active s)))
     s.
Proof.
  unfold playAudio, createBufferSource, decoded.
  wp_step. wp_step. wp_step. wp_step.
  destruct (decode d) as [bytes|e]; [|fail_with (@nil call)].
  wp_step. wp_step. cbn [rbind].
  destruct (decodeAudioData bytes webAudio 24000 1) as [b|e]; [|fail_with (@nil call)].
  do 5 wp_step; [fail_with (@nil call)|].
  do 3 wp_step.
  wp_step. wp_step; [fail_with [CreateBufferSource ctx (fresh s)]|].
  wp_step. wp_step; [fail_with [CreateBufferSource ctx (fresh s); SetBuffer (fresh s) b]|].
  wp_step. wp_step;
    [fail_with [CreateBufferSource ctx (fresh s); SetBuffer (fresh s) b;
                SourceConnect (fresh s) ctx]|].
  do 4 wp_step;
    [fail_with [CreateBufferSource ctx (fresh s); SetBuffer (fresh s) b;
                SourceConnect (fresh s) ctx; AddEndedListener (fresh s)]|].
  do 3 wp_step.
  split; [repeat split|]. left. exists b. cbn.
  rewrite <- !app_assoc. repeat split; auto.
Qed.

Lemma add_calls_nil (s : state) : add_calls [] s = s.
Proof. destruct s; unfold add_calls; cbn. now rewrite app_nil_r. Qed.

Lemma add_calls_record (c : call) (cs : list call) (s : state) :
  add_calls cs (record c s) = add_calls (c :: cs) s.
Proof. unfold add_calls, record; cbn. now rewrite <- app_assoc. Qed.

Lemma wp_forEach_perform (A : Type) (f : A -> call) (l : list A)
    (Q : result unit -> state -> Prop) s :
  (forall done_ x rest, l = done_ ++ x :: rest -> raises (f x) = true ->
     Q (Throw PlatformError) (add_calls (map f done_) s)) ->
  Q (Ok tt) (add_calls (map f l) s) ->
  wp (forEach (fun x => perform raises (f x)) l) Q s.
Proof.
  revert s. induction l as [|x l IH]; intros s Hfail Hok.
  - cbn. apply wp_ret. now rewrite add_calls_nil in Hok.
  - cbn [forEach]. wp_step. wp_step.
    + specialize (Hfail [] x l eq_refl). rewrite add_calls_nil in Hfail.
      now apply Hfail.
    + apply IH.
      * intros d y rest -> Hy. rewrite add_calls_record.
        apply (Hfail (x :: d) y rest eq_refl Hy).
      * rewrite add_calls_record. exact Hok.
Qed.

Lemma wp_resetPlayback (Q : result unit -> state -> Prop) s :
  (forall done_ x rest, active s = done_ ++ x :: rest ->
     raises (SourceStop x) = true ->
     Q (Throw PlatformError) (add_calls (map SourceStop done_) s)) ->
  Q (Ok tt) (set_nextStartTime 0
               (set_sources [] (add_calls (map SourceStop (active s)) s))) ->
  wp (resetPlayback raises) Q s.
Proof.
  intros Hfail Hok. unfold resetPlayback. wp_step. wp_step. wp_step.
  apply wp_forEach_perform.
  - exact Hfail.
  - do 3 wp_step. exact Hok.
Qed.

Lemma starts_stops (l : list handle) : starts (map SourceStop l) = [].
Proof. induction l; auto. Qed.

Lemma starts_playCalls ctx src b t : starts (playCalls ctx src b t) = [(t, b)].
Proof. reflexivity. Qed.

Lemma in_starts src b t tr : In (SourceStart src b t) tr -> In (t, b) (starts tr).
Proof.
  intros H. unfold starts. apply in_flat_map.
  exists (SourceStart src b t). split; [exact H|]. now left.
Qed.



Lemma wp_audio_branch (now : Q) (a : option jsstring) (s : state) :
  wp (match truthy a, audioContextRef s with
      | Some d, Some ctxs => playAudio raises webAudio now d (output ctxs)
      | _, _ => ret tt
      end)
     (audio_effect now s) s.
Proof.
  assert (Hnone : forall r, audio_effect now s r s).
  { intros r. split; [repeat split|]. right. exists []. rewrite app_nil_r.
    repeat split; auto. apply Qle_refl. }
  destruct (truthy a) as [d|]; [|apply wp_ret, Hnone].
  destruct (audioContextRef s) as [ctxs|]; [|apply wp_ret, Hnone].
  eapply wp_weaken; [apply playAudio_cases|].
  intros r s' [Hrefs [[b [Hd [Hr [Ht [Hn Ha]]]]]|[calls [Hr [Ht [Hs [Hn Ha]]]]]]];
    (split; [exact Hrefs|]).
  - left. exists (output ctxs), b. auto.
  - right. exists calls. repeat split; auto.
    rewrite Hn. apply Q.le_max_l.
Qed.

Lemma same_refs_trans s1 s2 s3 : same_refs s1 s2 -> same_refs s2 s3 -> same_refs s1 s3.
Proof.
  unfold same_refs. intros [A [B [C D]]] [A' [B' [C' D']]].
  repeat split; congruence.
Qed.

Lemma handleLiveMessage_effect (now : Q) (m : LiveServerMessage) (s : state) :
  wp (handleLiveMessage raises webAudio now m) (fun _ s' => handled now m s s') s.
Proof.
  assert (Hnone : handled now m s s).
  { exists []. rewrite app_nil_r. split; [reflexivity|].
    split; [repeat split|]. left. split; [reflexivity|]. intros _. apply Qle_refl. }
  unfold handleLiveMessage. do 2 wp_step.
  destruct (audioData_of m) as [a|e]; [|exact Hnone].
  do 3 wp_step.
  eapply wp_weaken; [apply wp_audio_branch|].
  intros r s1 [Hrefs Hcases].
  assert (Hmid : forall tail s',
             starts tail = [] -> trace s' = trace s1 ++ tail -> same_refs s1 s' ->
             (is_interrupted m = false -> nst s' = nst s1) ->
             handled now m s s').
  { intros tail s' Htail Htr Hr Hn.
    destruct Hcases as [[ctx [b [_ [Ht [Hn1 _]]]]]|[calls [Ht [Hs [Hn1 _]]]]].
    - exists (playCalls ctx (fresh s) b (Qmax (nst s) now) ++ tail).
      rewrite Htr, Ht, app_assoc. split; [reflexivity|].
      split; [eapply same_refs_trans; eauto|]. right. exists b.
      rewrite starts_app, Htail, starts_playCalls. split; [reflexivity|].
      intros Hi. rewrite (Hn Hi). exact Hn1.
    - exists (calls ++ tail).
      rewrite Htr, Ht, app_assoc. split; [reflexivity|].
      split; [eapply same_refs_trans; eauto|]. left.
      rewrite starts_app, Htail, Hs. split; [reflexivity|].
      intros Hi. rewrite (Hn Hi). exact Hn1. }
  destruct r as [[]|e].
  - destruct (is_interrupted m) eqn:Hi.
    + apply wp_resetPlayback.
      * intros d x rest _ _. apply (Hmid (map SourceStop d)).
        -- apply starts_stops.
        -- reflexivity.
        -- repeat split.
        -- discriminate.
      * apply (Hmid (map SourceStop (active s1))).
        -- apply starts_stops.
        -- reflexivity.
        -- repeat split.
        -- discriminate.
    + apply wp_ret. apply (Hmid []); auto.
      * now rewrite app_nil_r.
      * repeat split.
  - apply (Hmid []); auto.
    + now rewrite app_nil_r.
    + repeat split.
Qed.

Lemma handleLiveMessage_step (now : Q) (m : LiveServerMessage) (s : state) :
  handled now m s (snd (handleLiveMessage raises webAudio now m s)).
Proof. apply (handleLiveMessage_effect now m s). Qed.

Lemma gapless_cons t b l :
  gapless l -> starts_after (t + duration b) l -> gapless ((t, b) :: l).
Proof.
  intros Hg Hs. cbn [gapless]. split; [|exact Hg].
  destruct l as [|[t2 b2] l]; [exact I|exact Hs].
Qed.

Lemma starts_after_le t t' l : t <= t' -> starts_after t' l -> starts_after t l.
Proof.
  destruct l as [|[t2 b2] l]; cbn; auto. intros. eapply Qle_trans; eauto.
Qed.

Lemma run_cons (e : event) (evs : list event) (s : state) :
  run raises webAudio (e :: evs) s = run raises webAudio evs (step raises webAudio e s).
Proof. reflexivity. Qed.

(** Without interruption the segments started during a run are started in
    sequence, none before the end of its predecessor, whatever fails. *)
Lemma run_gapless (evs : list event) :
  Forall quiet evs ->
  forall s, exists new,
    trace (run raises webAudio evs s) = trace s ++ new /\
    gapless (starts new) /\ starts_after (nst s) (starts new).
Proof.
  induction 1 as [|e evs He _ IH]; intros s.
  - exists []. cbn. rewrite app_nil_r. auto.
  - rewrite run_cons.
    destruct (IH (step raises webAudio e s)) as [new [Htr [Hg Hs]]].
    destruct e as [now m|src].
    + cbn [step] in *. cbn [quiet] in He.
      destruct (handleLiveMessage_step now m s)
        as [calls [Ht [_ [[Hst Hn]|[b [Hst Hn]]]]]].
      * exists (calls ++ new). rewrite Htr, Ht, app_assoc.
        split; [reflexivity|]. rewrite starts_app, Hst. cbn [app].
        split; [exact Hg|]. eapply starts_after_le; [apply (Hn He)|exact Hs].
      * exists (calls ++ new). rewrite Htr, Ht, app_assoc.
        split; [reflexivity|]. rewrite starts_app, Hst. cbn [app].
        rewrite (Hn He) in Hs. split.
        -- apply gapless_cons; assumption.
        -- cbn. apply Q.le_max_l.
    + exists new. split; [|split]; auto.
Qed.

End Platform.

Lemma forEach_no_failure (A : Type) (f : A -> call) (l : list A) (s : state) :
  forEach (fun x => perform no_failure (f x)) l s
  = (Ok tt, add_calls (map f l) s).
Proof.
  revert s. induction l as [|x l IH]; intros s.
  - cbn. now rewrite add_calls_nil.
  - cbn [forEach]. unfold bind. cbn [perform no_failure].
    rewrite IH, add_calls_record. reflexivity.
Qed.

(** A message with an interruption signal and no audio is always handled to
    completion when no call raises. *)
Lemma handleLiveMessage_interrupt_only (webAudio : AudioContext) (now : Q)
    (m : LiveServerMessage) (s : state) :
  audioData_of m = Ok None -> is_interrupted m = true ->
  handleLiveMessage no_failure webAudio now m s
  = (Ok tt,
     set_nextStartTime 0
       (set_sources [] (add_calls (map SourceStop (active s)) s))).
Proof.
  intros Ha Hi. unfold handleLiveMessage, bind, lift, get. rewrite Ha, Hi.
  cbn [truthy ret]. unfold resetPlayback, bind, get, modify.
  rewrite forEach_no_failure. reflexivity.
Qed.

Lemma playAudio_ok (webAudio : AudioContext) (now : Q) (d : jsstring)
    (b : AudioBuffer) (ctx : handle) (s : state) :
  decoded webAudio d = Ok b ->
  playAudio no_failure webAudio now d ctx s
  = (Ok tt,
     mkState (isRecording s) (mediaStreamRef s) (sessionPromiseRef s)
       (audioContextRef s)
       (mkPlayback (Qmax (nst s) now + duration b) (set_add (fresh s) (active s)))
       (trace s ++ playCalls ctx (fresh s) b (Qmax (nst s) now))
       (S (fresh s))).
Proof.
  unfold decoded. intros H.
  destruct (decode d) as [bytes|e] eqn:Ed; [|discriminate]. cbn [rbind] in H.
  unfold playAudio, createBufferSource, bind, modify, lift, get, ret, perform, no_failure.
  rewrite Ed, H. destruct s as [rec stream session ctxs [t srcs] tr next].
  cbv [set_sources set_nextStartTime set_playback record next_fresh nst active
       audioPlaybackRef nextStartTime sources isRecording mediaStreamRef
       sessionPromiseRef audioContextRef trace fresh fst snd playCalls].
  rewrite <- !app_assoc. reflexivity.
Qed.

Lemma handleLiveMessage_carries (webAudio : AudioContext) (now : Q)
    (m : LiveServerMessage) (b : AudioBuffer) (ctxs : contexts) (s : state) :
  carries webAudio m b -> audioContextRef s = Some ctxs ->
  handleLiveMessage no_failure webAudio now m s
  = (Ok tt,
     mkState (isRecording s) (mediaStreamRef s) (sessionPromiseRef s)
       (audioContextRef s)
       (mkPlayback (Qmax (nst s) now + duration b) (set_add (fresh s) (active s)))
       (trace s ++ playCalls (output ctxs) (fresh s) b (Qmax (nst s) now))
       (S (fresh s))).
Proof.
  intros [Hi [d [Ha [Hd Hb]]]] Hctx.
  unfold handleLiveMessage, bind, lift, get. rewrite Ha, Hctx, Hi.
  destruct d as [|c d]; [contradiction|]. cbn [truthy].
  rewrite (@playAudio_ok webAudio now (c :: d) b (output ctxs) s Hb).
  cbn [ret]. rewrite ?Hctx. reflexivity.
Qed.




Lemma plan_gapless (segs : list (Q * AudioBuffer)) :
  forall t, gapless (fst (plan t segs)) /\ starts_after t (fst (plan t segs)).
Proof.
  induction segs as [|[now b] segs IH]; intros t; cbn [plan].
  - split; exact I.
  - destruct (IH (Qmax t now + duration b)) as [Hg Hs].
    destruct (plan (Qmax t now + duration b) segs) as [l final]. cbn [fst] in *.
    split.
    + apply gapless_cons; assumption.
    + cbn. apply Q.le_max_l.
Qed.

Lemma plan_order (segs : list (Q * AudioBuffer)) :
  forall t, map snd (fst (plan t segs)) = map snd segs.
Proof.
  induction segs as [|[now b] segs IH]; intros t; cbn [plan]; [reflexivity|].
  specialize (IH (Qmax t now + duration b)).
  destruct (plan (Qmax t now + duration b) segs) as [l final].
  cbn [fst map snd] in *. now rewrite IH.
Qed.

(** C3: for every sequence of audio segments handled in arrival order
    without interruption (and without a failing call), each segment is
    started at [max(nextStartTime, now)] and [nextStartTime] then advances
    by the segment's duration, so that every segment starts at or after its
    predecessor's start plus the predecessor's duration, and the segments
    are started in their order of arrival. *)
Theorem playback_schedule (webAudio : AudioContext) (evs : list event)
    (segs : list (Q * AudioBuffer)) (s : state) (ctxs : contexts) :
  audioContextRef s = Some ctxs ->
  arrivals webAudio evs segs ->
  exists new,
    trace (run no_failure webAudio evs s) = trace s ++ new /\
    starts new = fst (plan (nextStartTime (audioPlaybackRef s)) segs) /\
    nextStartTime (audioPlaybackRef (run no_failure webAudio evs s))
      = snd (plan (nextStartTime (audioPlaybackRef s)) segs) /\
    gapless (starts new) /\
    map snd (starts new) = map snd segs.
Proof.
  intros Hctx Harr.
  assert (H : exists new,
             trace (run no_failure webAudio evs s) = trace s ++ new /\
             starts new = fst (plan (nst s) segs) /\
             nst (run no_failure webAudio evs s) = snd (plan (nst s) segs)).
  { revert s Hctx. induction Harr as [|now m b evs segs Hc _ IH|src evs segs _ IH];
      intros s Hctx.
    - exists []. cbn. rewrite app_nil_r. auto.
    - rewrite !run_cons. cbn [step].
      rewrite (@handleLiveMessage_carries webAudio now m b ctxs s Hc Hctx). cbn [snd].
      match goal with |- context [run no_failure webAudio evs ?s1'] => set (s1 := s1') end.
      assert (Hn1 : nst s1 = Qmax (nst s) now + duration b) by reflexivity.
      assert (Ht1 : trace s1
                    = trace s ++ playCalls (output ctxs) (fresh s) b (Qmax (nst s) now))
        by reflexivity.
      assert (Hc1 : audioContextRef s1 = Some ctxs) by exact Hctx.
      clearbody s1.
      destruct (IH s1 Hc1) as [new [Ht [Hs Hn]]].
      exists (playCalls (output ctxs) (fresh s) b (Qmax (nst s) now) ++ new).
      rewrite Ht, Ht1, <- app_assoc. split; [reflexivity|].
      rewrite starts_app, starts_playCalls, Hs, Hn, Hn1. cbn [plan].
      destruct (plan (Qmax (nst s) now + duration b) segs) as [l final].
      split; reflexivity.
    - rewrite !run_cons. cbn [step].
      destruct (IH (onEnded src s) Hctx) as [new [Ht [Hs Hn]]].
      exists new. auto. }
  destruct H as [new [Ht [Hs Hn]]]. exists new. unfold nst in *.
  split; [exact Ht|]. split; [exact Hs|]. split; [exact Hn|].
  rewrite Hs. split; [apply plan_gapless|apply plan_order].
Qed.

Lemma playback_schedule_witness :
  exists new,
    trace (run no_failure leastContext
             [Message 5 segmentMessage; Ended 32%nat; Message 5 segmentMessage]
             recording)
    = trace recording ++ new /\
    gapless (starts new).
Proof.
  assert (Hc : carries leastContext segmentMessage segmentBuffer).
  { split; [reflexivity|]. exists segmentData.
    split; [reflexivity|]. split; [discriminate|reflexivity]. }
  destruct (@playback_schedule leastContext
              [Message 5 segmentMessage; Ended 32%nat; Message 5 segmentMessage]
              [(5, segmentBuffer); (5, segmentBuffer)]
              recording (mkContexts 1%nat 2%nat (Some 3%nat) (Some 4%nat))
              eq_refl
              (arrivals_segment 5 Hc
                 (arrivals_ended 32%nat
                    (arrivals_segment 5 Hc (arrivals_nil leastContext)))))
    as [new [Ht [_ [_ [Hg _]]]]].
  exists new. split; assumption.
Defined.

Ltac no_failure_step :=
  lazymatch goal with
  | H : no_failure _ = true |- _ => discriminate H
  | |- wp (when_some ?o _) _ _ =>
      let E := fresh "E" in destruct o eqn:E; cbn [when_some]
  | |- wp (forEach _ _) _ _ =>
      apply wp_forEach_perform; [intros ? ? ? _ ?|]
  | |- wp (resetPlayback _) _ _ =>
      apply wp_resetPlayback; [intros ? ? ? _ ?|]
  | |- _ => wp_step
  end.

Lemma stopRecording_releases (s : state) :
  wp (stopRecording no_failure) (fun r s' => r = Ok tt /\ released s s') s.
Proof.
  destruct s as [rec stream session ctxs [t srcs] tr next].
  unfold stopRecording.
  repeat no_failure_step.
  all: split; [reflexivity|].
  all: cbv [released set_nextStartTime set_sources set_playback add_calls
            set_audioContextRef set_sessionPromiseRef set_isRecording record
            active isRecording mediaStreamRef sessionPromiseRef audioContextRef
            audioPlaybackRef trace fresh nextStartTime sources] in *.
  all: repeat split; try reflexivity; intros;
       repeat match goal with
       | H : Some _ = Some _ |- _ => injection H as H; subst
       | H : None = Some _ |- _ => discriminate H
       | H : Some _ = None |- _ => discriminate H
       | H1 : ?x = Some _, H2 : ?x = Some _ |- _ => rewrite H1 in H2
       | H1 : ?x = None, H2 : ?x = Some _ |- _ => rewrite H1 in H2
       end;
       repeat rewrite in_app_iff; cbn [In];
       auto 12 using in_map.
Qed.

(** C6, amended: when no release call raises, [stopRecording] is idempotent:
    called twice in succession from any state it completes both times, and
    after each call the tracks are stopped, the close of the session is
    requested, the capture nodes are disconnected, both contexts are closed,
    every active source is stopped, the set of sources is empty and
    [nextStartTime] is 0. *)
Theorem stopRecording_idempotent (s : state) :
  exists s1 s2,
    stopRecording no_failure s = (Ok tt, s1) /\
    stopRecording no_failure s1 = (Ok tt, s2) /\
    released s s1 /\ released s1 s2.
Proof.
  pose proof (stopRecording_releases s) as H1. unfold wp in H1.
  destruct (stopRecording no_failure s) as [r1 s1] eqn:E1.
  cbn [fst snd] in H1. destruct H1 as [-> R1].
  pose proof (stopRecording_releases s1) as H2. unfold wp in H2.
  destruct (stopRecording no_failure s1) as [r2 s2] eqn:E2.
  cbn [fst snd] in H2. destruct H2 as [-> R2].
  exists s1, s2. split; [reflexivity|]. split; [exact E2|]. split; assumption.
Qed.

(** C6, refuted as stated: the releases are consecutive statements, so when
    one of them raises the later ones are skipped.  Here [disconnect()]
    raises: the tracks are stopped and the close of the session is requested,
    but no context is closed, no source is stopped and the schedule is kept. *)
Lemma stopRecording_failure_skips_releases :
  fst (stopRecording failing_disconnect recording) = Throw PlatformError /\
  trace (snd (stopRecording failing_disconnect recording))
  = [TrackStop 10%nat; TrackStop 11%nat; SessionThenClose 20%nat] /\
  audioContextRef (snd (stopRecording failing_disconnect recording))
  = audioContextRef recording /\
  sources (audioPlaybackRef (snd (stopRecording failing_disconnect recording)))
  = [30; 31]%nat /\
  nextStartTime (audioPlaybackRef (snd (stopRecording failing_disconnect recording)))
  = 7 # 2.
Proof. repeat split. Qed.

(** Stopping a session that was never started does nothing but reset. *)
Example stopRecording_initial :
  stopRecording no_failure initial = (Ok tt, initial).
Proof. reflexivity. Qed.

(** The capture callback sends the blob that [createBlob] makes of the
    frame. *)
Lemma onaudioprocess_sends (samples : list number) (s : state) (session : handle) :
  sessionPromiseRef s = Some session ->
  exists text,
    createBlob samples = Ok (mkBlob text "audio/pcm;rate=16000") /\
    onaudioprocess no_failure samples s
    = (Ok tt, record (SessionThenSend session (mkBlob text "audio/pcm;rate=16000")) s).
Proof.
  intros Hs. eexists. split; [apply AudioFacts.createBlob_eq|].
  unfold onaudioprocess, bind, lift, get.
  rewrite AudioFacts.createBlob_eq, Hs. reflexivity.
Qed.

End AppFacts.

(** ** Video generation *)

Module VideoFacts.
Import Video VideoSpec.
Local Open Scope string_scope.

Lemma pollLoop_reaches (remote : Remote) op k opf n :
  polls remote op k opf n ->
  forall fuel log, (n <= fuel)%nat ->
    pollLoop remote fuel op k log = (Ok (Some opf), (log ++ pollLog k n)%list).
Proof.
  induction 1 as [op k Hd|op k op' opf n Hd Hp _ IH]; intros fuel log Hf.
  - destruct fuel; cbn [pollLoop]; rewrite Hd; unfold pollLog; cbn;
      now rewrite app_nil_r.
  - destruct fuel as [|fuel]; [lia|].
    cbn [pollLoop]. rewrite Hd.
    unfold bind, Video.log, modify, lift. rewrite Hp.
    rewrite IH by lia. f_equal.
    unfold pollLog. cbn [seq flat_map]. rewrite <- !app_assoc. reflexivity.
Qed.

Lemma download_eq (remote : Remote) (opf : Operation) (log : list effect) :
  fst (download remote opf log)
  = match uri opf with
    | None | Some EmptyString => Throw noLink
    | Some link =>
        match fetch remote (link ++ "&key=" ++ API_KEY remote) with
        | Ok response =>
            if ok response
            then match blob response with
                 | Ok videoBlob => Ok (createObjectURL remote videoBlob)
                 | Throw e => Throw e
                 end
            else Throw (Error ("Failed to download video: " ++ statusText response))
        | Throw e => Throw e
        end
    end.
Proof.
  unfold download, bind, Video.log, modify, lift, ret. cbn.
  destruct (uri opf) as [[|c link]|]; try reflexivity.
  cbn. destruct (fetch remote _) as [resp|e]; [|reflexivity].
  destruct (ok resp); cbn; [|reflexivity].
  destruct (blob resp); reflexivity.
Qed.

Lemma download_log (remote : Remote) (opf : Operation) (log : list effect) :
  exists tail,
    snd (download remote opf log)
    = (log ++ Progress "Video generation complete!" :: tail)%list.
Proof.
  unfold download, bind, Video.log, modify, lift, ret. cbn.
  destruct (uri opf) as [[|c link]|]; try (exists []; reflexivity).
  cbn. exists [Progress "Fetching your video..."].
  rewrite <- app_assoc.
  destruct (fetch remote _) as [resp|e]; [|reflexivity].
  destruct (ok resp); cbn; [|reflexivity].
  destruct (blob resp); reflexivity.
Qed.

(** C8: when the first request is accepted and the job is finished at the
    n-th status poll, [generateVideo] polls n times and then returns a URL
    exactly when the finished operation has a download URI, the download
    request is answered with an ok response and its body is read; it throws
    the "no link" error when the operation has no URI and the "Failed to
    download" error when the response is not ok. *)
Theorem generateVideo_outcome (remote : Remote) (fuel : nat)
    (prompt aspectRatio : string) (image : option (string * string))
    (op0 opf : Operation) (n : nat) :
  generateVideos remote (request prompt aspectRatio image) = Ok op0 ->
  polls remote op0 0 opf n ->
  (n <= fuel)%nat ->
  let r := fst (generateVideo remote fuel prompt aspectRatio image []) in
  (exists tail,
     snd (generateVideo remote fuel prompt aspectRatio image [])
     = (Progress "Warming up the creativity engines..." :: pollLog 0 n
          ++ Progress "Video generation complete!" :: tail)%list) /\
  (forall url,
     r = Ok (Some url) <->
     exists link response videoBlob,
       uri opf = Some link /\ link <> ""%string /\
       fetch remote (link ++ "&key=" ++ API_KEY remote) = Ok response /\
       ok response = true /\
       blob response = Ok videoBlob /\
       url = createObjectURL remote videoBlob) /\
  (uri opf = None \/ uri opf = Some ""%string -> r = Throw noLink) /\
  (forall link response,
     uri opf = Some link -> link <> ""%string ->
     fetch remote (link ++ "&key=" ++ API_KEY remote) = Ok response ->
     ok response = false ->
     r = Throw (Error ("Failed to download video: " ++ statusText response))) /\
  r <> Ok None.
Proof.
  intros Hgen Hpolls Hfuel r. split.
  { unfold generateVideo, bind, Video.log, modify, lift, ret.
    unfold request in Hgen. cbn [app]. rewrite Hgen.
    rewrite (pollLoop_reaches Hpolls) by exact Hfuel. cbn [app].
    destruct (download_log remote opf
                (Progress "Warming up the creativity engines..." :: pollLog 0 n))
      as [tail Ht].
    exists tail.
    destruct (download remote opf _) as [[url|e] l]; exact Ht. }
  assert (Hr : r = match fst (download remote opf
                      (Progress "Warming up the creativity engines..."
                         :: pollLog 0 n)) with
                   | Ok url => Ok (Some url)
                   | Throw e => Throw e
                   end).
  { subst r. unfold generateVideo, bind, Video.log, modify, lift, ret.
    unfold request in Hgen. cbn [app]. rewrite Hgen.
    rewrite (pollLoop_reaches Hpolls) by exact Hfuel. cbn [app].
    destruct (download remote opf _) as [[url|e] l]; reflexivity. }
  rewrite download_eq in Hr. clearbody r. subst r.
  repeat split.
  - intros H.
    destruct (uri opf) as [[|c link]|]; try discriminate.
    destruct (fetch remote _) as [resp|e] eqn:Ef; [|discriminate].
    destruct (ok resp) eqn:Eo; [|discriminate].
    destruct (blob resp) as [b|e] eqn:Eb; [|discriminate].
    injection H as <-. exists (String c link), resp, b.
    repeat split; auto. discriminate.
  - intros [link [resp [b [Hu [Hne [Hf [Ho [Hb ->]]]]]]]].
    rewrite Hu. destruct link as [|c link]; [contradiction|].
    rewrite Hf, Ho, Hb. reflexivity.
  - intros [H|H]; rewrite H; reflexivity.
  - intros link resp Hu Hne Hf Ho. rewrite Hu.
    destruct link as [|c link]; [contradiction|].
    rewrite Hf, Ho. reflexivity.
  - destruct (uri opf) as [[|c link]|]; try discriminate.
    destruct (fetch remote _) as [resp|e]; [|discriminate].
    destruct (ok resp); [|discriminate].
    destruct (blob resp); discriminate.
Qed.

Lemma generateVideo_outcome_witness :
  fst (generateVideo demoRemote 5 "a prompt" Portrait None [])
  = Ok (Some "blob:video").
Proof.
  assert (Hp : polls demoRemote (mkOperation false None) 0
                 (mkOperation true (Some "https://video/1?alt=media")) 2).
  { eapply polls_next; [reflexivity|reflexivity|].
    eapply polls_next; [reflexivity|reflexivity|].
    apply polls_done. reflexivity. }
  assert (Hf : (2 <= 5)%nat) by lia.
  destruct (@generateVideo_outcome demoRemote 5 "a prompt" Portrait None
              (mkOperation false None)
              (mkOperation true (Some "https://video/1?alt=media")) 2
              eq_refl Hp Hf) as [_ [H _]].
  apply H.
  exists "https://video/1?alt=media", (mkResponse true "OK" (Ok 9%nat)), 9%nat.
  repeat split; try reflexivity. discriminate.
Defined.

End VideoFacts.

(** ** The API-key gate *)

Module GateFacts.
Import ApiKeySelector.

(** C10: [checkApiKey] never throws and always ends with [isChecking]
    false; when [window.aistudio] is absent, [hasSelectedApiKey] is not a
    function, or the call fails, the key is held not selected and
    [onKeySelectionChange(false)] is the report. *)
Theorem checkApiKey_fails_closed (window_aistudio : option aistudio)
    (c : component) :
  fst (checkApiKey window_aistudio c) = Ok tt /\
  isChecking (snd (checkApiKey window_aistudio c)) = false /\
  match window_aistudio with
  | Some {| hasSelectedApiKey := Some (Ok hasKey) |} =>
      isKeySelected (snd (checkApiKey window_aistudio c)) = hasKey /\
      effects (snd (checkApiKey window_aistudio c))
      = effects c ++ [Call_hasSelectedApiKey; onKeySelectionChange hasKey]
  | Some {| hasSelectedApiKey := Some (Throw _) |} =>
      isKeySelected (snd (checkApiKey window_aistudio c)) = false /\
      effects (snd (checkApiKey window_aistudio c))
      = effects c ++ [Call_hasSelectedApiKey; console_error;
                      onKeySelectionChange false]
  | _ =>
      isKeySelected (snd (checkApiKey window_aistudio c)) = false /\
      effects (snd (checkApiKey window_aistudio c))
      = effects c ++ [onKeySelectionChange false]
  end.
Proof.
  destruct window_aistudio as [[[[hasKey|e]|] open]|]; cbn;
    rewrite <- ?app_assoc; repeat split; reflexivity.
Qed.

(** C9: when [openSelectKey] resolves, [handleSelectKey] sets the key
    selected and reports [onKeySelectionChange(true)] without calling
    [hasSelectedApiKey]; when [window.aistudio] or [openSelectKey] is absent
    it does nothing and the component is unchanged. *)
Theorem handleSelectKey_assumes_success (window_aistudio : option aistudio)
    (c : component) :
  fst (handleSelectKey window_aistudio c) = Ok tt /\
  isChecking (snd (handleSelectKey window_aistudio c)) = isChecking c /\
  match window_aistudio with
  | Some {| openSelectKey := Some (Ok _) |} =>
      isKeySelected (snd (handleSelectKey window_aistudio c)) = true /\
      effects (snd (handleSelectKey window_aistudio c))
      = effects c ++ [Call_openSelectKey; onKeySelectionChange true]
  | Some {| openSelectKey := Some (Throw _) |} =>
      isKeySelected (snd (handleSelectKey window_aistudio c)) = isKeySelected c /\
      effects (snd (handleSelectKey window_aistudio c))
      = effects c ++ [Call_openSelectKey; console_error]
  | _ => snd (handleSelectKey window_aistudio c) = c
  end.
Proof.
  destruct window_aistudio as [[has [[[]|e]|]]|]; cbn;
    rewrite <- ?app_assoc; repeat split; reflexivity.
Qed.

(** On a host without [window.aistudio] the mounted component ends on the
    prompt for a key; once the dialog has been closed it shows its children. *)
Example gate_without_host :
  render (snd (checkApiKey None mounted)) = KeyRequired.
Proof. reflexivity. Qed.

Example gate_after_selection :
  let host := Some (mkAistudio (Some (Ok false)) (Some (Ok tt))) in
  render (snd (handleSelectKey host (snd (checkApiKey host mounted)))) = Children.
Proof. reflexivity. Qed.

End GateFacts.

(** ** More on the codec helpers *)

Module CodecFacts.
Import Base64 TypedArray Audio AudioSpec CodecSpec.
Import Base64Facts ArrayFacts AudioFacts.

Ltac Zify.zify_post_hook ::= Z.to_euclidean_division_equations.

Lemma btoa_text_length (l : list N) :
  List.length (map enc (sextets l) ++ padding (List.length l))
  = (4 * Nat.div (List.length l + 2) 3)%nat.
Proof.
  induction l as [|a|a b|a b c l IH] using list_ind3; try reflexivity.
  change (List.length (a :: b :: c :: l)) with (S (S (S (List.length l)))).
  rewrite padding_S3.
  change (sextets (a :: b :: c :: l))
    with ((a / 4 :: (a mod 4) * 16 + b / 16 :: (b mod 16) * 4 + c / 64
            :: c mod 64 :: sextets l)%N).
  cbn [map app List.length]. rewrite IH.
  replace (S (S (S (List.length l))) + 2)%nat
    with (List.length l + 2 + 1 * 3)%nat by lia.
  rewrite Nat.div_add by lia. lia.
Qed.

(** X1: [encode] never throws; its text is four characters for every three
    bytes begun, each of them a character of the base64 alphabet or the
    padding character. *)
Theorem encode_length (bytes : list byte) :
  exists text,
    encode bytes = Ok text /\
    List.length text = (4 * Nat.div (List.length bytes + 2) 3)%nat /\
    Forall (fun c => dec c <> None \/ c = pad) text.
Proof.
  eexists. split; [apply encode_eq|]. split.
  - rewrite <- (length_map Byte.to_N bytes). apply btoa_text_length.
  - apply Forall_app. split.
    + apply Forall_forall. intros c Hc. apply in_map_iff in Hc.
      destruct Hc as [v [<- Hv]]. left.
      assert (Hb : (v < 64)%N).
      { assert (H : Forall (fun c => (c < 256)%N) (map Byte.to_N bytes)).
        { apply Forall_forall. intros x Hx. apply in_map_iff in Hx.
          destruct Hx as [b [<- _]]. pose proof (Byte.to_N_bounded b). lia. }
        pose proof (sextets_bound H) as Hs.
        revert v Hv. apply Forall_forall. exact Hs. }
      rewrite (enc_dec Hb). discriminate.
    + destruct (padding_cases (List.length bytes)) as [->|[->| ->]];
        repeat constructor; right; reflexivity.
Qed.

Lemma strip_pad_rev_keeps (c : N) (r : list N) :
  c <> pad -> In c r -> In c (strip_pad_rev r).
Proof.
  intros Hc Hin. unfold strip_pad_rev.
  destruct r as [|c1 r1]; [exact Hin|].
  destruct (N.eqb_spec c1 pad) as [E1|E1]; [|exact Hin].
  destruct Hin as [->|Hin]; [contradiction|].
  destruct r1 as [|c2 r2]; [exact Hin|].
  destruct (N.eqb_spec c2 pad) as [E2|E2]; [|exact Hin].
  destruct Hin as [->|Hin]; [contradiction|exact Hin].
Qed.

Lemma dec_all_none (c : N) (s : list N) :
  In c s -> dec c = None -> dec_all s = None.
Proof.
  induction s as [|x s IH]; intros Hin Hc; [contradiction|].
  cbn [dec_all]. destruct Hin as [->|Hin].
  - rewrite Hc. reflexivity.
  - rewrite (IH Hin Hc). destruct (dec x); reflexivity.
Qed.

(** X2: [decode] throws on a text with a character that is neither of the
    base64 alphabet, nor padding, nor ASCII whitespace, wherever it stands. *)
Theorem decode_rejects (text : jsstring) (c : N) :
  In c text -> dec c = None -> c <> pad -> is_ascii_whitespace c = false ->
  decode text = Throw InvalidCharacterError.
Proof.
  intros Hin Hdec Hpad Hws. unfold decode, atob.
  set (data := remove_padding _).
  assert (Hd : In c data).
  { subst data. unfold remove_padding.
    assert (Hf : In c (filter (fun c => negb (is_ascii_whitespace c)) text)).
    { apply filter_In. split; [exact Hin|]. now rewrite Hws. }
    destruct (Nat.eqb _ 0); [|exact Hf].
    apply -> in_rev. apply strip_pad_rev_keeps; [exact Hpad|].
    apply -> in_rev. exact Hf. }
  destruct (Nat.eqb _ 1); [reflexivity|].
  rewrite (@dec_all_none c data Hd Hdec). reflexivity.
Qed.

Lemma decode_rejects_witness :
  decode [83; 71; 33; 104]%N = Throw InvalidCharacterError.
Proof.
  apply (@decode_rejects [83; 71; 33; 104]%N 33%N).
  - simpl. auto.
  - reflexivity.
  - discriminate.
  - reflexivity.
Defined.

Lemma byte_of_Z_mod (z : Z) : byte_of_Z (z mod 256) = byte_of_Z z.
Proof. unfold byte_of_Z. now rewrite Z.mod_mod by lia. Qed.

Lemma Int16Array_cons2 (lo hi : byte) (rest : list byte) :
  Int16Array_of_buffer (lo :: hi :: rest)
  = match Int16Array_of_buffer rest with
    | Ok vs => Ok (int16_of lo hi :: vs)
    | Throw e => Throw e
    end.
Proof. reflexivity. Qed.

Lemma int16_of_spec (lo hi : byte) :
  (-32768 <= int16_of lo hi <= 32767)%Z /\
  byte_of_Z (int16_of lo hi mod 65536) = lo /\
  byte_of_Z (int16_of lo hi mod 65536 / 256) = hi.
Proof.
  unfold int16_of.
  assert (Ha : (0 <= Z_of_byte lo < 256)%Z).
  { unfold Z_of_byte. pose proof (Byte.to_N_bounded lo). lia. }
  assert (Hb : (0 <= Z_of_byte hi < 256)%Z).
  { unfold Z_of_byte. pose proof (Byte.to_N_bounded hi). lia. }
  set (u := (Z_of_byte lo + 256 * Z_of_byte hi)%Z).
  assert (Hu : ((if (u >=? 32768)%Z then u - 65536 else u) mod 65536 = u)%Z).
  { destruct (Z.geb_spec u 32768); subst u; lia. }
  rewrite Hu. split; [destruct (Z.geb_spec u 32768); subst u; lia|].
  split.
  - rewrite <- (byte_of_Z_mod u).
    replace (u mod 256)%Z with (Z_of_byte lo) by (subst u; lia).
    exact (byte_of_Z_of_byte lo).
  - replace (u / 256)%Z with (Z_of_byte hi) by (subst u; lia).
    exact (byte_of_Z_of_byte hi).
Qed.

Lemma Int16Array_range (buf : list byte) :
  forall vs, Int16Array_of_buffer buf = Ok vs ->
             Forall (fun v => (-32768 <= v <= 32767)%Z) vs.
Proof.
  induction buf as [|a|a b buf IH] using list_ind2; intros vs H.
  - injection H as <-. constructor.
  - discriminate.
  - rewrite Int16Array_cons2 in H.
    destruct (Int16Array_of_buffer buf) as [vs'|e]; [|discriminate].
    injection H as <-. constructor; [apply int16_of_spec|now apply IH].
Qed.

Lemma buffer_Int16Array (buf : list byte) :
  forall vs, Int16Array_of_buffer buf = Ok vs -> buffer_of_Int16Array vs = buf.
Proof.
  induction buf as [|a|a b buf IH] using list_ind2; intros vs H.
  - injection H as <-. reflexivity.
  - discriminate.
  - rewrite Int16Array_cons2 in H.
    destruct (Int16Array_of_buffer buf) as [vs'|e]; [|discriminate].
    injection H as <-.
    change (buffer_of_Int16Array (int16_of a b :: vs'))
      with (byte_of_Z (int16_of a b mod 65536)
              :: byte_of_Z (int16_of a b mod 65536 / 256)
              :: buffer_of_Int16Array vs').
    destruct (int16_of_spec a b) as [_ [-> ->]].
    rewrite (IH vs' eq_refl). reflexivity.
Qed.

Lemma decodeAudioData_inv (data : list byte) (ctx : AudioContext) (rate : Q)
    (c : nat) (buf : AudioBuffer) :
  decodeAudioData data ctx rate c = Ok buf ->
  (Z.of_nat (List.length data) < 4294967296)%Z ->
  exists vs,
    Int16Array_of_buffer data = Ok vs /\
    (2 * List.length vs = List.length data)%nat /\
    (1 <= c <= List.length vs)%nat /\ 0 < rate /\
    supports ctx rate c = true /\
    buf = mkAudioBuffer c (Nat.div (List.length vs) c) rate
            (deinterleave vs c (Nat.div (List.length vs) c)).
Proof.
  intros Hok Hsize.
  destruct (Nat.even (List.length data)) eqn:Hev.
  2:{ assert (Hodd : Nat.odd (List.length data) = true)
        by (unfold Nat.odd; now rewrite Hev).
      unfold decodeAudioData in Hok. rewrite (Int16Array_odd _ Hodd) in Hok.
      discriminate. }
  destruct (Int16Array_even _ Hev) as [vs [Hview Hlen]].
  assert (H2 : (2 * List.length vs = List.length data)%nat).
  { apply Nat.even_spec in Hev. destruct Hev as [k Hk].
    rewrite Hlen, Hk, (Nat.mul_comm 2 k), Nat.div_mul by lia. lia. }
  assert (Hvs : (Z.of_nat (List.length vs) < 4294967296)%Z) by lia.
  exists vs. split; [exact Hview|]. split; [exact H2|].
  destruct (Nat.eq_dec c 0) as [Hc0|Hc0].
  { rewrite (@decodeAudioData_no_frame data vs ctx rate c Hview Hvs
               (or_introl Hc0)) in Hok.
    discriminate. }
  destruct (Nat.lt_ge_cases (List.length vs) c) as [Hlt|Hge].
  { rewrite (@decodeAudioData_no_frame data vs ctx rate c Hview Hvs
               (or_intror (Nat.div_small _ _ Hlt))) in Hok.
    discriminate. }
  assert (Hframes : (1 <= Nat.div (List.length vs) c)%nat)
    by (apply Nat.div_le_lower_bound; lia).
  destruct (supports ctx rate c) eqn:Hs.
  - assert (Hc1 : (1 <= c)%nat) by lia.
    rewrite (@decodeAudioData_frames data vs ctx rate c Hview Hs Hc1 Hframes Hvs)
      in Hok.
    injection Hok as <-. apply supports_spec in Hs.
    repeat split; auto; try lia; tauto.
  - rewrite (@decodeAudioData_unsupported data vs ctx rate c Hview Hs) in Hok.
    discriminate.
Qed.

Lemma deinterleave_shape (vs : list Z) (c k : nat) :
  (k * c <= List.length vs)%nat ->
  Forall (fun vs' => (-32768 <= vs' <= 32767)%Z) vs ->
  List.length (deinterleave vs c k) = c /\
  Forall (fun channel =>
            List.length channel = k /\
            Forall (fun x => exists v, x = Fin (v # 32768) /\
                                       (-32768 <= v <= 32767)%Z) channel)
         (deinterleave vs c k).
Proof.
  intros Hk Hr. unfold deinterleave. split.
  - now rewrite length_map, length_seq.
  - apply Forall_forall. intros ch Hch. apply in_map_iff in Hch.
    destruct Hch as [n [<- Hn]]. apply in_seq in Hn. split.
    + now rewrite length_map, length_seq.
    + apply Forall_forall. intros x Hx. apply in_map_iff in Hx.
      destruct Hx as [i [<- Hi]]. apply in_seq in Hi.
      assert (Hidx : (i * c + n < List.length vs)%nat) by nia.
      rewrite (sample_at_in_range _ Hidx). eexists. split; [reflexivity|].
      assert (Hin : In (nth (i * c + n) vs 0%Z) vs) by (apply nth_In; exact Hidx).
      revert Hin. generalize (nth (i * c + n) vs 0%Z).
      apply Forall_forall. exact Hr.
Qed.

(** X3: a buffer that [decodeAudioData] returns is well formed: it has the
    channels asked for, at least one frame, (bytes / 2) / channels frames
    in every channel, the rate asked for, and every sample is a 16-bit
    integer divided by 32768, so it lies in [-1, 1). *)
Theorem decodeAudioData_shape (data : list byte) (ctx : AudioContext)
    (rate : Q) (c : nat) (buf : AudioBuffer) :
  decodeAudioData data ctx rate c = Ok buf ->
  (Z.of_nat (List.length data) < 4294967296)%Z ->
  numberOfChannels buf = c /\
  length buf = Nat.div (Nat.div (List.length data) 2) c /\
  (1 <= length buf)%nat /\
  sampleRate buf = rate /\
  List.length (channels buf) = c /\
  Forall (fun channel =>
            List.length channel = length buf /\
            Forall (fun x => exists v, x = Fin (v # 32768) /\
                                       (-32768 <= v <= 32767)%Z) channel)
         (channels buf).
Proof.
  intros Hok Hsize.
  destruct (@decodeAudioData_inv data ctx rate c buf Hok Hsize)
    as [vs [Hview [H2 [Hc [Hrate [_ ->]]]]]].
  cbn [numberOfChannels length sampleRate channels].
  assert (Hlen : Nat.div (List.length data) 2 = List.length vs).
  { rewrite <- H2, (Nat.mul_comm 2), Nat.div_mul by lia. reflexivity. }
  rewrite Hlen.
  assert (Hk : (Nat.div (List.length vs) c * c <= List.length vs)%nat).
  { rewrite Nat.mul_comm. apply Nat.Div0.mul_div_le. }
  destruct (@deinterleave_shape vs c _ Hk (@Int16Array_range data vs Hview)) as [A B].
  repeat split; auto.
  apply Nat.div_le_lower_bound; lia.
Qed.

Lemma decodeAudioData_shape_witness :
  numberOfChannels (mkAudioBuffer 2 1 24000 [[Fin (1 # 32768)]; [Fin (2 # 32768)]]) = 2%nat.
Proof.
  assert (Hsize : (Z.of_nat (List.length sixBytes) < 4294967296)%Z) by reflexivity.
  destruct (@decodeAudioData_shape sixBytes leastContext 24000 2 _ eq_refl Hsize)
    as [H _].
  exact H.
Defined.

Lemma Qtrunc_scaled (v : Z) : Qtrunc ((v # 32768) * 32768) = v.
Proof.
  unfold Qtrunc. cbn [Qnum Qden Qmult].
  change (Z.pos (32768 * 1)) with 32768%Z.
  apply Z.quot_mul. discriminate.
Qed.

(** X5: the two directions of the PCM conversion fit: at a rate that the
    context supports, the samples that [decodeAudioData] reads from a
    non-empty buffer of whole 16-bit samples are turned back by
    [createBlob] into the base64 text of the same bytes, for the wire
    format of either direction. *)
Theorem pcm_bytes_round_trip (data : list byte) (ctx : AudioContext) (rate : Q) :
  Nat.even (List.length data) = true -> data <> [] ->
  supports ctx rate 1 = true ->
  (Z.of_nat (List.length data) < 4294967296)%Z ->
  exists samples,
    decodeAudioData data ctx rate 1
    = Ok (mkAudioBuffer 1 (Nat.div (List.length data) 2) rate [samples]) /\
    (let! blob := createBlob samples in decode (Audio.data blob)) = Ok data.
Proof.
  intros Hev Hne Hrate Hsize.
  destruct (Int16Array_even _ Hev) as [vs [Hview Hlen]].
  assert (H2 : (2 * List.length vs = List.length data)%nat).
  { apply Nat.even_spec in Hev. destruct Hev as [k Hk].
    rewrite Hlen, Hk, (Nat.mul_comm 2 k), Nat.div_mul by lia. lia. }
  assert (Hvs : (Z.of_nat (List.length vs) < 4294967296)%Z) by lia.
  assert (Hpos : (1 <= List.length vs)%nat).
  { destruct data as [|a [|b data]]; [contradiction|discriminate|].
    cbn [List.length] in H2. lia. }
  exists (map (fun v => Fin (v # 32768)) vs). split.
  - rewrite (@decodeAudioData_frames data vs ctx rate 1%nat Hview Hrate (le_n 1));
      rewrite ?Nat.div_1_r; auto.
    rewrite deinterleave_mono, Hlen. reflexivity.
  - rewrite createBlob_eq. cbn [rbind Audio.data].
    rewrite map_map.
    assert (Hid : map (fun v => ToInt16 (times (Fin (v # 32768)) 32768)) vs = vs).
    { rewrite <- (map_id vs) at 2. apply map_ext_in. intros v Hv.
      cbn [times ToInt16]. rewrite Qtrunc_scaled. apply wrap16_small.
      revert v Hv. apply Forall_forall. apply (@Int16Array_range data vs Hview). }
    rewrite Hid, (@buffer_Int16Array data vs Hview).
    rewrite length_map, H2. apply decode_encode_eq.
Qed.

Lemma pcm_bytes_round_trip_witness :
  exists samples,
    decodeAudioData sixBytes leastContext 24000 1
    = Ok (mkAudioBuffer 1 3 24000 [samples]) /\
    (let! blob := createBlob samples in decode (Audio.data blob)) = Ok sixBytes.
Proof.
  assert (Hsize : (Z.of_nat (List.length sixBytes) < 4294967296)%Z) by reflexivity.
  assert (Hne : sixBytes <> []) by discriminate.
  exact (@pcm_bytes_round_trip sixBytes leastContext 24000 eq_refl Hne eq_refl
           Hsize).
Defined.

(** X4: a decoded mono buffer lasts one second for every [2 * rate] bytes:
    the duration that [handleLiveMessage] adds to the schedule is the number
    of bytes over twice the sample rate. *)
Theorem decodeAudioData_duration (data : list byte) (ctx : AudioContext)
    (rate : Q) (buf : AudioBuffer) :
  decodeAudioData data ctx rate 1 = Ok buf ->
  (Z.of_nat (List.length data) < 4294967296)%Z ->
  duration buf * (2 * rate) == inject_Z (Z.of_nat (List.length data)).
Proof.
  intros Hok Hsize.
  destruct (@decodeAudioData_inv data ctx rate 1%nat buf Hok Hsize)
    as [vs [_ [H2 [_ [Hrate [_ ->]]]]]].
  unfold duration. cbn [length sampleRate]. rewrite Nat.div_1_r, <- H2.
  rewrite Nat2Z.inj_mul, inject_Z_mult. change (inject_Z (Z.of_nat 2)) with 2.
  field. intros H. rewrite H in Hrate. discriminate.
Qed.

Lemma decodeAudioData_duration_witness :
  duration (mkAudioBuffer 1 3 24000
              [[Fin (1 # 32768); Fin (2 # 32768); Fin (3 # 32768)]])
  * (2 * 24000) == 6.
Proof.
  assert (Hsize : (Z.of_nat (List.length sixBytes) < 4294967296)%Z) by reflexivity.
  exact (@decodeAudioData_duration sixBytes leastContext 24000 _ eq_refl Hsize).
Defined.

(** X6: at a rate that the context supports, samples in [-1, 1) that go
    through [createBlob], [decode] and [decodeAudioData] come back in the
    same number and order, each within one quantisation step (1/32768) of
    what it was. *)
Theorem pcm_round_trip_within_one_step (qs : list Q) (ctx : AudioContext)
    (rate : Q) :
  Forall (fun q => -1 <= q /\ q < 1) qs ->
  qs <> [] -> supports ctx rate 1 = true ->
  (Z.of_nat (List.length qs) < 4294967296)%Z ->
  exists out,
    (let! blob := createBlob (map Fin qs) in
     let! bytes := decode (Audio.data blob) in
     decodeAudioData bytes ctx rate 1)
    = Ok (mkAudioBuffer 1 (List.length qs) rate [map Fin out]) /\
    Forall2 (fun q r => Qabs (q - r) <= 1 # 32768) qs out.
Proof.
  intros Hr Hne Hrate Hsize.
  destruct (@pcm_round_trip_below_full_scale qs ctx rate Hr Hne Hrate Hsize)
    as [text [bytes [Hb [Hd [Ha Herr]]]]].
  exists (map quantize qs). split.
  - rewrite Hb. cbn [rbind Audio.data]. rewrite Hd. cbn [rbind]. exact Ha.
  - clear - Herr. induction Herr as [|q qs Hq _ IH]; cbn [map]; constructor; auto.
Qed.

Lemma pcm_round_trip_within_one_step_witness :
  exists out,
    (let! blob := createBlob (map Fin threeSamples) in
     let! bytes := decode (Audio.data blob) in
     decodeAudioData bytes leastContext 16000 1)
    = Ok (mkAudioBuffer 1 3 16000 [map Fin out]) /\
    Forall2 (fun q r => Qabs (q - r) <= 1 # 32768) threeSamples out.
Proof.
  assert (Hr : Forall (fun q => -1 <= q /\ q < 1) threeSamples).
  { repeat constructor; discriminate. }
  assert (Hne : threeSamples <> []) by discriminate.
  assert (Hsize : (Z.of_nat (List.length threeSamples) < 4294967296)%Z)
    by reflexivity.
  exact (@pcm_round_trip_within_one_step threeSamples leastContext 16000 Hr Hne
           eq_refl Hsize).
Defined.

End CodecFacts.

(** ** More on the live session *)

Module SessionFacts.
Import Base64 Audio AudioSpec App AppSpec SessionSpec Hoare AppFacts.

Lemma started_in_app (a b : list call) :
  started_in (a ++ b) = started_in a ++ started_in b.
Proof. unfold started_in. apply flat_map_app. Qed.

Lemma stops_follow_starts_app (tr cs : list call) :
  forall st,
    stops_follow_starts st tr ->
    stops_follow_starts (rev (started_in tr) ++ st) cs ->
    stops_follow_starts st (tr ++ cs).
Proof.
  induction tr as [|c tr IH]; intros st Htr Hcs; [exact Hcs|].
  destruct c; cbn [app stops_follow_starts] in *;
    try (apply IH; [exact Htr|exact Hcs]).
  - apply IH; [exact Htr|].
    cbn [started_in flat_map app rev] in Hcs.
    fold (started_in tr) in Hcs. rewrite <- app_assoc in Hcs. exact Hcs.
  - destruct Htr as [Hin Htr]. split; [exact Hin|]. apply IH; assumption.
Qed.

Lemma stops_ok (cs : list call) :
  forall st, (forall x, In (SourceStop x) cs -> In x st) ->
             stops_follow_starts st cs.
Proof.
  induction cs as [|c cs IH]; intros st H; [exact I|].
  destruct c; cbn [stops_follow_starts];
    try (apply IH; intros x Hx; apply H; now right).
  - apply IH. intros x Hx. right. apply H. now right.
  - split; [apply H; now left|]. apply IH. intros x Hx. apply H. now right.
Qed.

Lemma playback_inv_add_calls (cs : list call) (s : state) :
  playback_inv s ->
  (forall x, In (SourceStop x) cs -> In x (sources (audioPlaybackRef s))) ->
  playback_inv (add_calls cs s).
Proof.
  intros [Ho Ha] Hcs. split; cbn [add_calls trace audioPlaybackRef].
  - apply stops_follow_starts_app; [exact Ho|].
    apply stops_ok. intros x Hx. rewrite app_nil_r. apply -> in_rev. auto.
  - intros src Hsrc. rewrite started_in_app. apply in_or_app. left. auto.
Qed.

Lemma playback_inv_record (c : call) (s : state) :
  playback_inv s ->
  (forall x, c = SourceStop x -> In x (sources (audioPlaybackRef s))) ->
  playback_inv (record c s).
Proof.
  intros H Hc. apply (@playback_inv_add_calls [c] s H).
  intros x [Hx|[]]. auto.
Qed.

Lemma playback_inv_same (s s' : state) :
  trace s' = trace s ->
  (forall x, In x (sources (audioPlaybackRef s')) ->
             In x (sources (audioPlaybackRef s)) \/ In x (started_in (trace s))) ->
  playback_inv s -> playback_inv s'.
Proof.
  intros Ht Hs [Ho Ha]. split; rewrite Ht; [exact Ho|].
  intros src Hsrc. destruct (Hs src Hsrc); auto.
Qed.

Lemma playback_inv_next_fresh (s : state) :
  playback_inv s -> playback_inv (next_fresh s).
Proof. apply playback_inv_same; [reflexivity|]. intros x Hx. now left. Qed.

Lemma playback_inv_set_nextStartTime (t : Q) (s : state) :
  playback_inv s -> playback_inv (set_nextStartTime t s).
Proof. apply playback_inv_same; [reflexivity|]. intros x Hx. now left. Qed.

Lemma playback_inv_set_isRecording (b : bool) (s : state) :
  playback_inv s -> playback_inv (set_isRecording b s).
Proof. apply playback_inv_same; [reflexivity|]. intros x Hx. now left. Qed.

Lemma playback_inv_set_sessionPromiseRef (v : option handle) (s : state) :
  playback_inv s -> playback_inv (set_sessionPromiseRef v s).
Proof. apply playback_inv_same; [reflexivity|]. intros x Hx. now left. Qed.

Lemma playback_inv_set_audioContextRef (v : option contexts) (s : state) :
  playback_inv s -> playback_inv (set_audioContextRef v s).
Proof. apply playback_inv_same; [reflexivity|]. intros x Hx. now left. Qed.

Lemma playback_inv_clear (s : state) :
  playback_inv s -> playback_inv (set_sources [] s).
Proof. apply playback_inv_same; [reflexivity|]. intros x []. Qed.

Lemma playback_inv_other_calls (A : Type) (f : A -> call) (l : list A) (s : state) :
  (forall a x, f a <> SourceStop x) ->
  playback_inv s -> playback_inv (add_calls (map f l) s).
Proof.
  intros Hf H. apply playback_inv_add_calls; [exact H|].
  intros y Hy. apply in_map_iff in Hy. destruct Hy as [z [Hz _]].
  exfalso. exact (Hf _ _ Hz).
Qed.

Lemma playback_inv_stops (done_ rest : list handle) (s : state) :
  sources (audioPlaybackRef s) = done_ ++ rest ->
  playback_inv s -> playback_inv (add_calls (map SourceStop done_) s).
Proof.
  intros Hd H. apply playback_inv_add_calls; [exact H|].
  intros y Hy. apply in_map_iff in Hy. destruct Hy as [z [Hz Hin]].
  injection Hz as <-. rewrite Hd. apply in_or_app. now left.
Qed.

Ltac inv_solve :=
  repeat lazymatch goal with
  | H : playback_inv ?s |- playback_inv ?s => exact H
  | |- playback_inv (next_fresh _) => apply playback_inv_next_fresh
  | |- playback_inv (set_nextStartTime _ _) => apply playback_inv_set_nextStartTime
  | |- playback_inv (set_isRecording _ _) => apply playback_inv_set_isRecording
  | |- playback_inv (set_sessionPromiseRef _ _) =>
      apply playback_inv_set_sessionPromiseRef
  | |- playback_inv (set_audioContextRef _ _) =>
      apply playback_inv_set_audioContextRef
  | |- playback_inv (set_sources [] _) => apply playback_inv_clear
  | |- playback_inv (add_calls (map _ _) _) =>
      apply playback_inv_other_calls; [intros ? ?; discriminate|]
  | |- playback_inv (record _ _) =>
      apply playback_inv_record; [|intros ? ?; discriminate]
  end.

Ltac inv_go :=
  cbv beta iota;
  lazymatch goal with
  | |- wp (when_some ?o _) _ _ => destruct o; cbn [when_some]
  | |- wp (forEach _ _) _ _ => apply wp_forEach_perform; [intros ? ? ? _ _|]
  | |- _ => wp_step
  end.

Section Platform.
Variable raises : call -> bool.
Variable webAudio : AudioContext.

Lemma playAudio_inv (now : Q) (d : jsstring) (ctx : handle) (s : state) :
  playback_inv s ->
  wp (playAudio raises webAudio now d ctx) (fun _ s' => playback_inv s') s.
Proof.
  intros Hinv. unfold playAudio, createBufferSource.
  do 4 inv_go. destruct (decode d) as [bytes|e]; [|inv_solve].
  do 2 inv_go. destruct (decodeAudioData bytes webAudio 24000 1) as [b|e]; [|inv_solve].
  repeat inv_go. all: try solve [inv_solve].
  match goal with |- playback_inv (set_sources (set_add ?src _) ?s0) =>
    apply playback_inv_same with (s := s0) end.
  - reflexivity.
  - intros x Hx.
    cbn [set_sources set_playback audioPlaybackRef sources] in Hx.
    unfold set_add in Hx.
    destruct (existsb _ _) in Hx; [now left|].
    apply in_app_or in Hx. destruct Hx as [Hx|[<-|[]]]; [now left|].
    right. cbn [set_nextStartTime set_playback record trace].
    rewrite started_in_app. apply in_or_app. right. now left.
  - inv_solve.
Qed.

Lemma resetPlayback_inv (s : state) :
  playback_inv s ->
  wp (resetPlayback raises) (fun _ s' => playback_inv s') s.
Proof.
  intros Hinv. apply wp_resetPlayback.
  - intros d x rest Hd _.
    apply (@playback_inv_stops d (x :: rest) s Hd Hinv).
  - apply playback_inv_set_nextStartTime, playback_inv_clear.
    apply (@playback_inv_stops (active s) [] s); [|exact Hinv].
    unfold active. now rewrite app_nil_r.
Qed.

Lemma handleLiveMessage_inv (now : Q) (m : LiveServerMessage) (s : state) :
  playback_inv s ->
  wp (handleLiveMessage raises webAudio now m) (fun _ s' => playback_inv s') s.
Proof.
  intros Hinv. unfold handleLiveMessage. do 2 inv_go.
  destruct (audioData_of m) as [a|e]; [|exact Hinv].
  do 3 inv_go.
  assert (Ha : wp (match truthy a, audioContextRef s with
                   | Some d, Some ctxs => playAudio raises webAudio now d (output ctxs)
                   | _, _ => ret tt
                   end) (fun _ s' => playback_inv s') s).
  { destruct (truthy a); [|exact Hinv].
    destruct (audioContextRef s); [|exact Hinv].
    now apply playAudio_inv. }
  eapply wp_weaken; [exact Ha|]. intros r s1 H1.
  destruct r as [[]|e]; [|exact H1].
  destruct (is_interrupted m); [now apply resetPlayback_inv|exact H1].
Qed.

Lemma step_inv (e : event) (s : state) :
  playback_inv s -> playback_inv (step raises webAudio e s).
Proof.
  intros Hinv. destruct e as [now m|src]; cbn [step].
  - apply (handleLiveMessage_inv now m Hinv).
  - apply playback_inv_same with (s := s); [reflexivity| |exact Hinv].
    intros x Hx. left.
    cbn [onEnded set_sources set_playback audioPlaybackRef sources] in Hx.
    unfold set_delete in Hx. apply filter_In in Hx. tauto.
Qed.

Lemma run_inv (evs : list event) :
  forall s, playback_inv s -> playback_inv (run raises webAudio evs s).
Proof.
  induction evs as [|e evs IH]; intros s Hinv; [exact Hinv|].
  rewrite run_cons. apply IH. now apply step_inv.
Qed.

Lemma stopRecording_inv (s : state) :
  playback_inv s ->
  wp (stopRecording raises) (fun _ s' => playback_inv s') s.
Proof.
  intros Hinv. unfold stopRecording.
  repeat inv_go.
  all: try solve [inv_solve].
  all: eapply wp_weaken; [apply resetPlayback_inv; inv_solve|]; auto.
Qed.

End Platform.

(** X7: [source.stop()] is only ever called on a source whose [start] was
    called before, and the set of active sources only holds started
    sources: this holds along any sequence of messages and ['ended'] events
    and through [stopRecording], whichever browser calls raise. *)
Theorem stop_only_after_start (raises : call -> bool) (webAudio : AudioContext)
    (evs : list event) (s : state) :
  playback_inv s ->
  playback_inv (run raises webAudio evs s) /\
  playback_inv (snd (stopRecording raises (run raises webAudio evs s))).
Proof.
  intros Hinv. split.
  - now apply run_inv.
  - apply (@stopRecording_inv raises (run raises webAudio evs s)).
    now apply run_inv.
Qed.

Lemma stop_only_after_start_witness :
  playback_inv
    (snd (stopRecording no_failure
            (run no_failure leastContext
                 [Message 5 segmentMessage; Message 6 interruptMessage]
                 initial))).
Proof.
  assert (Hinv : playback_inv initial).
  { split; [exact I|]. intros src []. }
  exact (proj2 (@stop_only_after_start no_failure leastContext
                  [Message 5 segmentMessage; Message 6 interruptMessage]
                  initial Hinv)).
Defined.

(** X8: the order of playback does not depend on the browser calls
    succeeding: whichever calls raise, over messages without interruption
    the segments that do get started are started back to back, none before
    the schedule held at the beginning. *)
Theorem playback_order_survives_failures (raises : call -> bool)
    (webAudio : AudioContext)
    (evs : list event) (s : state) :
  Forall quiet evs ->
  exists new,
    trace (run raises webAudio evs s) = trace s ++ new /\
    gapless (starts new) /\
    starts_after (nextStartTime (audioPlaybackRef s)) (starts new).
Proof. intros H. apply (@run_gapless raises webAudio evs H s). Qed.

Lemma playback_order_survives_failures_witness :
  exists new,
    trace (run first_connect_fails leastContext
             [Message 5 segmentMessage; Message 6 segmentMessage] recording)
    = trace recording ++ new /\
    gapless (starts new) /\
    starts_after (7 # 2) (starts new).
Proof.
  assert (H : Forall quiet [Message 5 segmentMessage; Message 6 segmentMessage]).
  { repeat constructor. }
  exact (@playback_order_survives_failures first_connect_fails leastContext _
           recording H).
Defined.

(** X9: a segment is never scheduled in the past: every [start] that the
    handling of a message adds is at or after the current time of the
    output context, and at or after the schedule held before. *)
Theorem never_scheduled_in_the_past (raises : call -> bool)
    (webAudio : AudioContext) (now : Q)
    (m : LiveServerMessage) (s : state) (src : handle) (b : AudioBuffer) (t : Q) :
  In (SourceStart src b t) (trace (snd (handleLiveMessage raises webAudio now m s))) ->
  In (SourceStart src b t) (trace s) \/
  (now <= t /\ nextStartTime (audioPlaybackRef s) <= t).
Proof.
  intros Hin.
  destruct (@handleLiveMessage_step raises webAudio now m s) as [calls [Ht [_ Hc]]].
  rewrite Ht in Hin. apply in_app_or in Hin.
  destruct Hin as [Hin|Hin]; [now left|]. right.
  apply in_starts in Hin.
  destruct Hc as [[Hst _]|[b' [Hst _]]]; rewrite Hst in Hin; [contradiction|].
  destruct Hin as [Hin|[]]. injection Hin as <- _.
  split; [apply Q.le_max_r|apply Q.le_max_l].
Qed.

Lemma never_scheduled_in_the_past_witness :
  5 <= 5 /\ 7 # 2 <= 5.
Proof.
  destruct (@never_scheduled_in_the_past no_failure leastContext 5 segmentMessage
              recording
              32%nat segmentBuffer 5) as [H|H].
  - vm_compute. do 4 right. left. reflexivity.
  - contradiction.
  - exact H.
Defined.

Lemma handleLiveMessage_undecodable (raises : call -> bool)
    (webAudio : AudioContext) (now : Q)
    (m : LiveServerMessage) (d : jsstring) (ctxs : contexts) (e : error)
    (s : state) :
  audioData_of m = Ok (Some d) -> d <> [] ->
  audioContextRef s = Some ctxs ->
  decoded webAudio d = Throw e ->
  handleLiveMessage raises webAudio now m s
  = (Throw e,
     set_nextStartTime (Qmax (nextStartTime (audioPlaybackRef s)) now) s).
Proof.
  intros Ha Hd Hctx He.
  unfold handleLiveMessage, bind, lift, get. rewrite Ha. cbv beta iota.
  rewrite Hctx.
  destruct d as [|c d]; [contradiction|]. cbn [truthy].
  unfold playAudio, bind, modify, lift. unfold decoded in He.
  destruct (decode (c :: d)) as [bytes|e']; cbn [rbind] in He.
  - cbv beta iota. rewrite He. reflexivity.
  - injection He as ->. reflexivity.
Qed.

Lemma stopRecording_no_failure_wp (s : state) :
  wp (stopRecording no_failure)
     (fun r s' =>
        r = Ok tt /\
        s' = mkState false (mediaStreamRef s) None None (mkPlayback 0 [])
               (trace s ++ releaseCalls s) (fresh s)) s.
Proof.
  destruct s as [rec stream session ctxs [t srcs] tr next].
  unfold stopRecording.
  repeat no_failure_step.
  all: split; [reflexivity|].
  all: cbv [set_nextStartTime set_sources set_playback add_calls
            set_audioContextRef set_sessionPromiseRef set_isRecording record
            active isRecording mediaStreamRef sessionPromiseRef audioContextRef
            audioPlaybackRef trace fresh nextStartTime sources
            releaseCalls tracks_of] in *.
  all: repeat match goal with
       | H : Some _ = Some _ |- _ => injection H as H; subst
       | H : None = Some _ |- _ => discriminate H
       | H : Some _ = None |- _ => discriminate H
       | H : _ = None |- _ => subst
       | H : ?f _ = Some _ |- _ => rewrite H
       | H : ?f _ = None |- _ => rewrite H
       end.
  all: cbn [scriptProcessor source input output] in *.
  all: repeat match goal with
       | H : ?x = Some _ |- _ => rewrite H
       | H : ?x = None |- _ => rewrite H
       end.
  all: rewrite <- ?app_assoc; cbn [app]; rewrite ?app_nil_r; reflexivity.
Qed.

Lemma stopRecording_no_failure_eq (s : state) :
  stopRecording no_failure s
  = (Ok tt,
     mkState false (mediaStreamRef s) None None (mkPlayback 0 [])
       (trace s ++ releaseCalls s) (fresh s)).
Proof.
  pose proof (stopRecording_no_failure_wp s) as H. unfold wp in H.
  destruct (stopRecording no_failure s) as [r s']. cbn [fst snd] in H.
  destruct H as [-> ->]. reflexivity.
Qed.

(** X11: [stopRecording] never clears [mediaStreamRef]: a second stop
    calls [stop()] again on every track of the stream of the first, and
    does nothing else. *)
Theorem second_stop_repeats_track_stops (s : state) :
  stopRecording no_failure (snd (stopRecording no_failure s))
  = (Ok tt,
     add_calls (map TrackStop (tracks_of s)) (snd (stopRecording no_failure s))).
Proof.
  rewrite (stopRecording_no_failure_eq s). cbn [snd].
  rewrite stopRecording_no_failure_eq.
  unfold add_calls, releaseCalls, tracks_of.
  cbn [isRecording mediaStreamRef sessionPromiseRef audioContextRef
       audioPlaybackRef trace fresh sources map app].
  rewrite !app_nil_r. reflexivity.
Qed.

End SessionFacts.

(** ** The whole of [handleLiveMessage] *)

Module LiveFacts.
Import Base64 Audio AudioSpec App AppSpec Live.

(** X10: audio that cannot be decoded costs the whole message: [decode] or
    [decodeAudioData] throws after the schedule has been moved up to the
    current time, no source is created, and neither the interruption nor
    the transcription of the same message is handled. *)
Theorem undecodable_audio_drops_message (raises : call -> bool)
    (webAudio : AudioContext) (now : Q)
    (m : LiveServerMessage) (t : Chat.Transcriptions) (d : jsstring)
    (ctxs : contexts) (e : error) (a : app) :
  audioData_of m = Ok (Some d) -> d <> [] ->
  audioContextRef (refs a) = Some ctxs ->
  decoded webAudio d = Throw e ->
  Live.handleLiveMessage raises webAudio now m t a
  = (Throw e,
     mkApp (set_nextStartTime
              (Qmax (nextStartTime (audioPlaybackRef (refs a))) now) (refs a))
       (chatState a)).
Proof.
  intros Ha Hd Hctx He.
  unfold Live.handleLiveMessage, bind, on_refs, zoom.
  rewrite (@SessionFacts.handleLiveMessage_undecodable raises webAudio now m d
             ctxs e
             (refs a) Ha Hd Hctx He).
  reflexivity.
Qed.

Lemma undecodable_audio_drops_message_witness :
  Live.handleLiveMessage no_failure leastContext 5 garbledInterruptMessage
    (Chat.mkTranscriptions (Some (Some "hello"%string)) None)
    (mkApp recording Chat.mounted)
  = (Throw InvalidCharacterError,
     mkApp (set_nextStartTime (Qmax (7 # 2) 5) recording) Chat.mounted).
Proof.
  assert (Hd : [33%N] <> []) by discriminate.
  exact (@undecodable_audio_drops_message no_failure leastContext 5
           garbledInterruptMessage
           (Chat.mkTranscriptions (Some (Some "hello"%string)) None)
           [33%N] (mkContexts 1%nat 2%nat (Some 3%nat) (Some 4%nat))
           InvalidCharacterError (mkApp recording Chat.mounted)
           eq_refl Hd eq_refl eq_refl).
Defined.

End LiveFacts.

(** ** The chat transcript *)

Module ChatFacts.
Import Chat ChatSpec.
Local Open Scope string_scope.
Local Open Scope list_scope.

Lemma append_empty_r (s : string) : (s ++ "")%string = s.
Proof. induction s as [|c s IH]; cbn; [reflexivity|now rewrite IH]. Qed.

Lemma append_assoc (a b c : string) :
  ((a ++ b) ++ c)%string = (a ++ (b ++ c))%string.
Proof. induction a as [|x a IH]; cbn; [reflexivity|now rewrite IH]. Qed.

Lemma join_app (l1 l2 : list string) :
  join (l1 ++ l2) = (join l1 ++ join l2)%string.
Proof.
  induction l1 as [|x l1 IH]; [reflexivity|].
  cbn [app join fold_right]. fold (join (l1 ++ l2)) (join l1).
  now rewrite IH, append_assoc.
Qed.

Lemma update_last_snoc (f : ChatMessage -> ChatMessage) (pre : list ChatMessage)
    (x : ChatMessage) :
  update_last f (pre ++ [x]) = Ok (pre ++ [f x]).
Proof.
  induction pre as [|y pre IH]; [reflexivity|].
  cbn [app update_last]. rewrite IH.
  destruct (pre ++ [x]) eqn:E; [|reflexivity].
  destruct pre; discriminate.
Qed.

Lemma last_snoc (pre : list ChatMessage) (x : ChatMessage) :
  last (map Some (pre ++ [x])) None = Some x.
Proof. rewrite map_app. cbn [map]. apply last_last. Qed.

(** The loop overwrites the text of the last message, whatever it is, with
    the chunks received so far. *)
Lemma consume_spec (cs : list (option string)) :
  forall acc pre x u b ref,
    cs <> [] ->
    consume acc cs (mkChat (Ok (pre ++ [x])) u b ref)
    = (Ok tt,
       mkChat (Ok (pre ++ [mkChatMessage (msgRole x)
                             (Str (acc ++ join (map chunk_text cs)))]))
         u b ref).
Proof.
  induction cs as [|c cs IH]; intros acc pre x u b ref Hne; [contradiction|].
  cbn [consume map join fold_right]. fold (join (map chunk_text cs)).
  unfold bind, setChatMessages, modify.
  cbn [chatMessages userInput isChatting chatRef rbind fst snd].
  rewrite update_last_snoc. unfold set_text at 1.
  destruct cs as [|c' cs].
  - cbn. now rewrite append_empty_r.
  - rewrite IH by discriminate. cbn [msgRole]. now rewrite append_assoc.
Qed.

Lemma consume_placeholder (cs : list (option string)) acc pre r u b ref :
  consume acc cs (mkChat (Ok (pre ++ [mkChatMessage r (Str acc)])) u b ref)
  = (Ok tt,
     mkChat (Ok (pre ++ [mkChatMessage r
                           (Str (acc ++ join (map chunk_text cs)))]))
       u b ref).
Proof.
  destruct cs as [|c cs].
  - cbn. now rewrite append_empty_r.
  - now rewrite consume_spec by discriminate.
Qed.

Lemma report_error_snoc (pre : list ChatMessage) (x : ChatMessage) :
  report_error (pre ++ [x])
  = match msgRole x, msgText x with
    | model, Str EmptyString => Ok (pre ++ [set_text (Str errorText) x])
    | _, _ => Ok ((pre ++ [x]) ++ [mkChatMessage model (Str errorText)])
    end.
Proof.
  unfold report_error. rewrite last_snoc.
  destruct (msgRole x), (msgText x) as [[|]| |]; try reflexivity.
  apply update_last_snoc.
Qed.

Section Environment.
Variable blank : string -> bool.
Variable sendMessageStream : string -> result Stream.

(** X12: a message that is sent and answered adds two entries to the
    transcript, the user's text and the model's answer, which is the chunks
    of the stream in order (a chunk without text reads "undefined"); the
    input is cleared and the chat accepts the next message. *)
Theorem answer_is_appended (msgs : list ChatMessage) (input : string)
    (cs : list (option string)) :
  blank input = false ->
  sendMessageStream input = Ok (mkStream cs None) ->
  handleSendMessage blank sendMessageStream (mkChat (Ok msgs) input false true)
  = (Ok tt,
     mkChat (Ok (msgs ++ [mkChatMessage user (Str input);
                          mkChatMessage model (Str (join (map chunk_text cs)))]))
       "" false true).
Proof.
  intros Hb Hs. unfold handleSendMessage, bind, get.
  cbn [userInput chatRef isChatting fst snd]. rewrite Hb. cbn [orb negb].
  unfold try_finally, try_catch, bind, setChatMessages, setUserInput,
    setIsChatting, modify, lift, push.
  cbn [chatMessages userInput isChatting chatRef rbind fst snd]. rewrite Hs.
  cbn [chunks failure fst snd].
  rewrite (consume_placeholder cs "" (msgs ++ [mkChatMessage user (Str input)])
             model "" true true).
  cbn. rewrite <- app_assoc. reflexivity.
Qed.

(** X13: when the request for an answer fails, the handler still completes
    and the chat accepts the next message; the transcript gains the user's
    text and the apology. *)
Theorem refused_request_is_reported (msgs : list ChatMessage) (input : string)
    (e : error) :
  blank input = false ->
  sendMessageStream input = Throw e ->
  handleSendMessage blank sendMessageStream (mkChat (Ok msgs) input false true)
  = (Ok tt,
     mkChat (Ok (msgs ++ [mkChatMessage user (Str input);
                          mkChatMessage model (Str errorText)]))
       "" false true).
Proof.
  intros Hb Hs. unfold handleSendMessage, bind, get.
  cbn [userInput chatRef isChatting fst snd]. rewrite Hb. cbn [orb negb].
  unfold try_finally, try_catch, bind, setChatMessages, setUserInput,
    setIsChatting, modify, lift, push.
  cbn [chatMessages userInput isChatting chatRef rbind fst snd].
  rewrite Hs.
  cbn [fst snd chatMessages userInput isChatting chatRef rbind].
  rewrite report_error_snoc. cbn. rewrite <- app_assoc. reflexivity.
Qed.

(** X14: when the stream of an answer breaks, the handler still completes and
    the chat accepts the next message; the apology takes the place of the
    answer when no text had arrived, and follows the partial answer as a
    message of its own otherwise. *)
Theorem broken_stream_is_reported (msgs : list ChatMessage) (input : string)
    (cs : list (option string)) (e : error) :
  blank input = false ->
  sendMessageStream input = Ok (mkStream cs (Some e)) ->
  handleSendMessage blank sendMessageStream (mkChat (Ok msgs) input false true)
  = (Ok tt,
     mkChat (Ok (msgs ++ mkChatMessage user (Str input)
                      :: partial_answer cs
                      ++ [mkChatMessage model (Str errorText)]))
       "" false true).
Proof.
  intros Hb Hs. unfold handleSendMessage, bind, get.
  cbn [userInput chatRef isChatting fst snd]. rewrite Hb. cbn [orb negb].
  unfold try_finally, try_catch, bind, setChatMessages, setUserInput,
    setIsChatting, modify, lift, push.
  cbn [chatMessages userInput isChatting chatRef rbind fst snd].
  rewrite Hs. cbn [chunks failure fst snd].
  rewrite (consume_placeholder cs "" (msgs ++ [mkChatMessage user (Str input)])
             model "" true true).
  cbn [fst snd chatMessages userInput isChatting chatRef rbind append].
  rewrite report_error_snoc. cbn [msgRole msgText].
  change (String.append "" ?x) with x. unfold partial_answer.
  destruct (join (map chunk_text cs)) eqn:E; cbn;
    rewrite <- ?app_assoc; reflexivity.
Qed.

End Environment.

Lemma answer_is_appended_witness :
  handleSendMessage emptyOnly twoChunks (mkChat (Ok [greeting]) "hello" false true)
  = (Ok tt,
     mkChat (Ok [greeting; mkChatMessage user (Str "hello");
                 mkChatMessage model (Str "Hiundefined")])
       "" false true).
Proof.
  exact (@answer_is_appended emptyOnly twoChunks [greeting] "hello"
           [Some "Hi"; None] eq_refl eq_refl).
Defined.

Lemma refused_request_is_reported_witness :
  handleSendMessage emptyOnly refusing (mkChat (Ok [greeting]) "hello" false true)
  = (Ok tt,
     mkChat (Ok [greeting; mkChatMessage user (Str "hello");
                 mkChatMessage model (Str errorText)])
       "" false true).
Proof.
  exact (@refused_request_is_reported emptyOnly refusing [greeting] "hello"
           PlatformError eq_refl eq_refl).
Defined.

Lemma broken_stream_is_reported_witness :
  handleSendMessage emptyOnly brokenStream
    (mkChat (Ok [greeting]) "hello" false true)
  = (Ok tt,
     mkChat (Ok [greeting; mkChatMessage user (Str "hello");
                 mkChatMessage model (Str "Hi");
                 mkChatMessage model (Str errorText)])
       "" false true).
Proof.
  exact (@broken_stream_is_reported emptyOnly brokenStream [greeting] "hello"
           [Some "Hi"] PlatformError eq_refl eq_refl).
Defined.

Lemma say_new (r : role) (f : option string) (msgs : list ChatMessage) :
  last_role_differs r msgs ->
  say r f msgs
  = Ok (msgs ++ [mkChatMessage r (match f with Some s => Str s | None => Undefined end)]).
Proof.
  unfold last_role_differs, say.
  destruct (last (map Some msgs) None) as [m|]; [|reflexivity].
  intros ->. reflexivity.
Qed.

Lemma say_same (r : role) (f : option string) (pre : list ChatMessage) (t : text) :
  say r f (pre ++ [mkChatMessage r t])
  = Ok (pre ++ [mkChatMessage r (append t f)]).
Proof.
  unfold say. rewrite last_snoc. cbn [msgRole].
  replace (role_eqb r r) with true by (now destruct r).
  now rewrite update_last_snoc.
Qed.

Lemma handleTranscription_heard (r : role) f (c : chat) :
  handleTranscription (heard r f) c
  = setChatMessages (say r (Some (fst f))) c.
Proof. destruct r; reflexivity. Qed.

Lemma heard_same (r : role) (fs : list (string * option (option string))) :
  forall pre acc u b ref,
    forEach (fun f => handleTranscription (heard r f)) fs
      (mkChat (Ok (pre ++ [mkChatMessage r (Str acc)])) u b ref)
    = (Ok tt,
       mkChat (Ok (pre ++ [mkChatMessage r (Str (acc ++ join (map fst fs)))]))
         u b ref).
Proof.
  induction fs as [|f fs IH]; intros pre acc u b ref.
  - cbn. now rewrite append_empty_r.
  - cbn [forEach]. unfold bind. rewrite handleTranscription_heard.
    unfold setChatMessages, modify.
    cbn [chatMessages userInput isChatting chatRef rbind fst snd].
    rewrite say_same. cbn [append fst snd].
    rewrite IH. cbn [map join fold_right]. fold (join (map fst fs)).
    now rewrite append_assoc.
Qed.

(** X15: consecutive transcription fragments of one speaker are merged into
    one message, in order, opened after the last message when that is of
    the other speaker; an output transcription that comes with an input
    transcription is dropped. *)
Theorem fragments_are_merged (r : role) (f : string * option (option string))
    (fs : list (string * option (option string))) (msgs : list ChatMessage)
    (u : string) (b ref : bool) :
  last_role_differs r msgs ->
  forEach (fun f => handleTranscription (heard r f)) (f :: fs)
    (mkChat (Ok msgs) u b ref)
  = (Ok tt,
     mkChat (Ok (msgs ++ [mkChatMessage r (Str (join (map fst (f :: fs))))]))
       u b ref).
Proof.
  intros Hd. cbn [forEach]. unfold bind. rewrite handleTranscription_heard.
  unfold setChatMessages, modify.
  cbn [chatMessages userInput isChatting chatRef rbind fst snd].
  rewrite say_new by exact Hd. cbn [fst snd].
  rewrite heard_same. reflexivity.
Qed.

Lemma fragments_are_merged_witness :
  forEach (fun f => handleTranscription (heard user f))
    [("how ", None); ("are you", Some (Some "fine"))] mounted
  = (Ok tt,
     mkChat (Ok [greeting; mkChatMessage user (Str "how are you")])
       "" false true).
Proof.
  exact (@fragments_are_merged user ("how ", None)
           [("are you", Some (Some "fine"))] [greeting] "" false true eq_refl).
Defined.

(** X16: a fragment of the user's speech that is transcribed while an answer
    streams takes the end of the transcript, and the next chunk of the
    answer overwrites it: the user's message then shows the model's whole
    answer, and the model's message keeps what had arrived before. *)
Theorem transcription_during_answer_is_overwritten
    (before after : list (option string)) (fragment : string)
    (msgs : list ChatMessage) (u : string) (b ref : bool) :
  after <> [] ->
  answer_interrupted before after fragment (mkChat (Ok msgs) u b ref)
  = (Ok tt,
     mkChat (Ok (msgs ++
                 [mkChatMessage model (Str (join (map chunk_text before)));
                  mkChatMessage user
                    (Str (join (map chunk_text (before ++ after))))]))
       u b ref).
Proof.
  intros Hne. unfold answer_interrupted, bind.
  unfold setChatMessages at 1, modify, push.
  cbn [chatMessages userInput isChatting chatRef rbind fst snd].
  rewrite consume_placeholder.
  cbn [fst snd handleTranscription inputTranscription].
  unfold setChatMessages, modify.
  cbn [chatMessages userInput isChatting chatRef rbind fst snd].
  change (String.append "" ?x) with x.
  rewrite say_new by (unfold last_role_differs; now rewrite last_snoc).
  rewrite consume_spec by assumption.
  cbn [msgRole]. rewrite map_app, join_app, <- app_assoc. reflexivity.
Qed.

Lemma transcription_during_answer_is_overwritten_witness :
  answer_interrupted [Some "Hi"] [Some " there"] "stop" mounted
  = (Ok tt,
     mkChat (Ok [greeting; mkChatMessage model (Str "Hi");
                 mkChatMessage user (Str "Hi there")])
       "" false true).
Proof.
  refine (@transcription_during_answer_is_overwritten [Some "Hi"] [Some " there"]
            "stop" [greeting] "" false true _).
  discriminate.
Defined.

End ChatFacts.

(** ** More on video generation *)

Module PollFacts.
Import Video VideoSpec PollSpec.
Local Open Scope string_scope.

Lemma pollLog_S (k n : nat) :
  pollLog k (S n)
  = Progress (nth (Nat.modulo k 4) progressMessages "") :: Wait 10000%N
      :: pollLog (S k) n.
Proof. reflexivity. Qed.

Lemma pollLoop_fails (remote : Remote) op k e n :
  poll_fails remote op k e n ->
  forall fuel log, (n <= fuel)%nat ->
    pollLoop remote fuel op k log = (Throw e, (log ++ pollLog k n)%list).
Proof.
  induction 1 as [op k e Hd Hp|op k op' e n Hd Hp _ IH]; intros fuel log Hf.
  - destruct fuel as [|fuel]; [lia|].
    cbn [pollLoop]. rewrite Hd.
    unfold bind, Video.log, modify, lift. rewrite Hp.
    cbn [fst snd]. rewrite <- app_assoc. reflexivity.
  - destruct fuel as [|fuel]; [lia|].
    cbn [pollLoop]. rewrite Hd.
    unfold bind, Video.log, modify, lift. rewrite Hp.
    cbn [fst snd]. rewrite IH by lia. rewrite pollLog_S.
    rewrite <- !app_assoc. reflexivity.
Qed.

Lemma pollLoop_stuck (remote : Remote) :
  never_done remote ->
  forall fuel op k log, done op = false ->
    pollLoop remote fuel op k log = (Ok None, (log ++ pollLog k fuel)%list).
Proof.
  intros Hn. induction fuel as [|fuel IH]; intros op k log Hd.
  - cbn [pollLoop]. rewrite Hd. unfold pollLog. cbn. now rewrite app_nil_r.
  - cbn [pollLoop]. rewrite Hd.
    destruct (Hn k) as [op' [Hp Hd']].
    unfold bind, Video.log, modify, lift. rewrite Hp.
    cbn [fst snd]. rewrite (IH op' (S k) _ Hd'). rewrite pollLog_S.
    rewrite <- !app_assoc. reflexivity.
Qed.

(** X17: a status poll that fails ends [generateVideo] with the error of the
    poll: the n-th poll is preceded by n progress messages and n waits of
    ten seconds, and neither the completion message nor a download
    follows. *)
Theorem generateVideo_poll_failure (remote : Remote) (fuel : nat)
    (prompt aspectRatio : string) (image : option (string * string))
    (op0 : Operation) (e : error) (n : nat) :
  generateVideos remote (request prompt aspectRatio image) = Ok op0 ->
  poll_fails remote op0 0 e n ->
  (n <= fuel)%nat ->
  generateVideo remote fuel prompt aspectRatio image []
  = (Throw e,
     Progress "Warming up the creativity engines..." :: pollLog 0 n).
Proof.
  intros Hgen Hp Hf.
  unfold generateVideo, bind, Video.log, modify, lift, ret.
  unfold request in Hgen. cbn [app fst snd]. rewrite Hgen. cbn [fst snd].
  rewrite (pollLoop_fails Hp) by exact Hf. reflexivity.
Qed.

Lemma generateVideo_poll_failure_witness :
  generateVideo flakyRemote 5 "a prompt" Portrait None []
  = (Throw PlatformError,
     Progress "Warming up the creativity engines..." :: pollLog 0 3).
Proof.
  refine (@generateVideo_poll_failure flakyRemote 5 "a prompt" Portrait None
            (mkOperation false None) PlatformError 3 eq_refl _ _).
  - eapply poll_fails_later; [reflexivity|reflexivity|].
    eapply poll_fails_later; [reflexivity|reflexivity|].
    apply poll_fails_now; reflexivity.
  - lia.
Defined.

(** X18: [generateVideo] has no limit of its own on the wait: while the
    service answers every status poll with an unfinished job, any number of
    iterations only adds a progress message and a ten-second wait each, and
    no result and no error comes out. *)
Theorem generateVideo_waits_forever (remote : Remote) (fuel : nat)
    (prompt aspectRatio : string) (image : option (string * string))
    (op0 : Operation) :
  generateVideos remote (request prompt aspectRatio image) = Ok op0 ->
  done op0 = false ->
  never_done remote ->
  generateVideo remote fuel prompt aspectRatio image []
  = (Ok None,
     Progress "Warming up the creativity engines..." :: pollLog 0 fuel).
Proof.
  intros Hgen Hd Hn.
  unfold generateVideo, bind, Video.log, modify, lift, ret.
  unfold request in Hgen. cbn [app fst snd]. rewrite Hgen. cbn [fst snd].
  rewrite (pollLoop_stuck Hn) by exact Hd. reflexivity.
Qed.

Lemma generateVideo_waits_forever_witness :
  generateVideo stuckRemote 7 "a prompt" Portrait None []
  = (Ok None,
     Progress "Warming up the creativity engines..." :: pollLog 0 7).
Proof.
  refine (@generateVideo_waits_forever stuckRemote 7 "a prompt" Portrait None
            (mkOperation false None) eq_refl eq_refl _).
  intros k. exists (mkOperation false None). split; reflexivity.
Defined.

End PollFacts.

(** ** The video panel *)

Module PanelFacts.
Import Video VideoSpec VideoPanel PanelSpec.
Local Open Scope string_scope.

Lemma onProgress_eq (log : list effect) :
  forall vp ui gs pm gu em ks,
    onProgress log (mkPanel vp ui gs pm gu em ks)
    = (Ok tt, mkPanel vp ui gs (latest log pm) gu em ks).
Proof.
  induction log as [|[m|ms] log IH]; intros; [reflexivity| |].
  - unfold onProgress. cbn [forEach]. unfold bind, setProgressMessage, modify.
    cbn -[forEach]. apply IH.
  - unfold onProgress. cbn [forEach]. unfold bind, ret. apply IH.
Qed.

Lemma onFailure_eq platform_message (e : error) vp ui gs pm gu em ks :
  exists text selected,
    onFailure platform_message e (mkPanel vp ui gs pm gu em ks)
    = (Ok tt, mkPanel vp ui failed pm gu text selected)
    /\ text <> ""
    /\ (text = keyNotFound /\ selected = false \/
        message platform_message e = Some text /\ selected = ks \/
        text = unknownError /\ selected = ks).
Proof.
  unfold onFailure.
  destruct (message platform_message e) as [[|c m]|] eqn:Em.
  - exists unknownError, ks. repeat split; [discriminate|auto].
  - destruct (includes _ (String c m)) eqn:Ei.
    + exists keyNotFound, false. repeat split; [discriminate|auto].
    + exists (String c m), ks. repeat split; [discriminate|auto].
  - exists unknownError, ks. repeat split; [discriminate|auto].
Qed.

Section Environment.
Variable blank : string -> bool.
Variable fileToBase64 : File -> result string.
Variable platform_message : error -> option string.
Variable remote : Remote.
Variable fuel : nat.


(** What the handler does once it is past its guard, by the outcome of the
    image and of [generateVideo]. *)
Lemma handleGenerateVideo_eq vp ui gs pm gu em ks :
  blank vp = false -> is_generating gs = false ->
  handleGenerateVideo blank fileToBase64 platform_message remote fuel
    (mkPanel vp ui gs pm gu em ks)
  = match imagePayload fileToBase64 (mkPanel vp ui gs pm gu em ks) with
    | Throw e =>
        let (_, p') := onFailure platform_message e
                         (mkPanel vp ui generating pm None "" ks) in
        (Ok (Some tt), p')
    | Ok payload =>
        let (outcome, log) := generateVideo remote fuel vp Portrait payload [] in
        match outcome with
        | Ok (Some url) =>
            (Ok (Some tt),
             mkPanel vp ui success (latest log pm) (Some url) "" ks)
        | Ok None =>
            (Ok None, mkPanel vp ui generating (latest log pm) None "" ks)
        | Throw e =>
            let (_, p') := onFailure platform_message e
                             (mkPanel vp ui generating (latest log pm) None "" ks) in
            (Ok (Some tt), p')
        end
    end.
Proof.
  intros Hb Hg. unfold handleGenerateVideo, bind at 1, get.
  cbn [videoPrompt generationStatus fst snd]. rewrite Hb, Hg. cbn [orb].
  unfold bind at 1 2 3, setGenerationStatus, setGeneratedVideoUrl,
    setErrorMessage at 1, modify.
  cbn [videoPrompt uploadedImage generationStatus progressMessage
       generatedVideoUrl errorMessage isKeySelected].
  unfold try_catch, bind at 1, lift at 1.
  destruct (imagePayload fileToBase64 _) as [payload|e].
  - destruct (generateVideo remote fuel vp Portrait payload []) as [outcome log].
    unfold bind at 1. rewrite onProgress_eq.
    unfold bind at 1, lift.
    destruct outcome as [[url|]|e]; try reflexivity.
    destruct (onFailure_eq platform_message e vp ui generating (latest log pm)
                None "" ks) as [text [sel [H _]]].
    unfold bind, ret. rewrite H. reflexivity.
  - destruct (onFailure_eq platform_message e vp ui generating pm
                None "" ks) as [text [sel [H _]]].
    unfold bind, ret. rewrite H. reflexivity.
Qed.

(** X19: past its guard, [handleGenerateVideo] never throws and takes one
    of three ends.  With a video, the panel shows it with no error message.
    With an error, from reading the image or from [generateVideo], the panel
    is in the error status with an error message that is not empty and no
    video; the key is marked not selected only together with the message
    about the key.  The status stays [generating] only while the job is
    unfinished. *)
Theorem generation_settles (p : panel) :
  blank (videoPrompt p) = false ->
  is_generating (generationStatus p) = false ->
  let r := fst (handleGenerateVideo blank fileToBase64 platform_message remote fuel p) in
  let p' := snd (handleGenerateVideo blank fileToBase64 platform_message remote fuel p) in
  let generated payload :=
    fst (generateVideo remote fuel (videoPrompt p) Portrait payload []) in
  (exists payload url,
     imagePayload fileToBase64 p = Ok payload /\
     generated payload = Ok (Some url) /\
     r = Ok (Some tt) /\ generationStatus p' = success /\
     generatedVideoUrl p' = Some url /\ errorMessage p' = "" /\
     isKeySelected p' = isKeySelected p) \/
  (exists e,
     (imagePayload fileToBase64 p = Throw e \/
      exists payload, imagePayload fileToBase64 p = Ok payload /\
                      generated payload = Throw e) /\
     r = Ok (Some tt) /\ generationStatus p' = failed /\
     generatedVideoUrl p' = None /\ errorMessage p' <> "" /\
     (isKeySelected p' = isKeySelected p \/
      isKeySelected p' = false /\ errorMessage p' = keyNotFound)) \/
  (exists payload,
     imagePayload fileToBase64 p = Ok payload /\
     generated payload = Ok None /\
     r = Ok None /\ generationStatus p' = generating).
Proof.
  destruct p as [vp ui gs pm gu em ks].
  cbv zeta. cbn [videoPrompt generationStatus isKeySelected]. intros Hb Hg.
  rewrite (@handleGenerateVideo_eq vp ui gs pm gu em ks Hb Hg).
  destruct (imagePayload fileToBase64 _) as [payload|e] eqn:Ei.
  - destruct (generateVideo remote fuel vp Portrait payload []) as [outcome log]
      eqn:Eg.
    destruct outcome as [[url|]|e]; cbn [fst snd].
    + left. exists payload, url. rewrite Eg. repeat split.
    + right. right. exists payload. rewrite Eg. repeat split.
    + right. left. exists e.
      destruct (onFailure_eq platform_message e vp ui generating (latest log pm)
                  None "" ks) as [text [sel [H [Hne Hc]]]].
      rewrite H. cbn [fst snd generationStatus generatedVideoUrl errorMessage
                      isKeySelected].
      split; [right; exists payload; rewrite Eg; split; reflexivity|].
      repeat split; [exact Hne|].
      destruct Hc as [[-> ->]|[[_ ->]|[_ ->]]]; auto.
  - right. left. exists e.
    destruct (onFailure_eq platform_message e vp ui generating pm
                None "" ks) as [text [sel [H [Hne Hc]]]].
    rewrite H. cbn [fst snd generationStatus generatedVideoUrl errorMessage
                    isKeySelected].
    split; [left; reflexivity|].
    repeat split; [exact Hne|].
    destruct Hc as [[-> ->]|[[_ ->]|[_ ->]]]; auto.
Qed.

(** X20: an error of [generateVideo] whose message contains "Requested entity
    was not found." is shown as the message about the key, whatever else
    the message says, and marks the key not selected. *)
Theorem unknown_key_is_reported (p : panel) (payload : option (string * string))
    (e : error) (m : string) :
  blank (videoPrompt p) = false ->
  is_generating (generationStatus p) = false ->
  imagePayload fileToBase64 p = Ok payload ->
  fst (generateVideo remote fuel (videoPrompt p) Portrait payload []) = Throw e ->
  message platform_message e = Some m ->
  includes "Requested entity was not found." m = true ->
  fst (handleGenerateVideo blank fileToBase64 platform_message remote fuel p) = Ok (Some tt) /\
  generationStatus (snd (handleGenerateVideo blank fileToBase64 platform_message remote fuel p)) = failed /\
  errorMessage (snd (handleGenerateVideo blank fileToBase64 platform_message remote fuel p)) = keyNotFound /\
  isKeySelected (snd (handleGenerateVideo blank fileToBase64 platform_message remote fuel p)) = false.
Proof.
  destruct p as [vp ui gs pm gu em ks].
  cbn [videoPrompt generationStatus]. intros Hb Hg Hi Hgen Hm Hinc.
  rewrite (@handleGenerateVideo_eq vp ui gs pm gu em ks Hb Hg), Hi.
  destruct (generateVideo remote fuel vp Portrait payload []) as [outcome log].
  cbn [fst] in Hgen. subst outcome.
  unfold onFailure. rewrite Hm.
  destruct m as [|c m]; [discriminate|]. rewrite Hinc.
  repeat split.
Qed.

Lemma latest_app (l1 l2 : list effect) (m : string) :
  latest (l1 ++ l2) m = latest l2 (latest l1 m).
Proof. apply fold_left_app. Qed.

(** X21: when the job is finished at the n-th status poll and the video is
    downloaded, the panel ends in the success status with the object URL of
    the video and no error message; when the finished job has no link, it
    ends in the error status with the message of [generateVideo], and the
    key stays as it was. *)
Theorem finished_job_is_shown (p : panel) (payload : option (string * string))
    (op0 opf : Operation) (n : nat) :
  blank (videoPrompt p) = false ->
  is_generating (generationStatus p) = false ->
  imagePayload fileToBase64 p = Ok payload ->
  generateVideos remote (request (videoPrompt p) Portrait payload) = Ok op0 ->
  polls remote op0 0 opf n ->
  (n <= fuel)%nat ->
  (forall link response videoBlob,
     uri opf = Some link -> link <> "" ->
     fetch remote (link ++ "&key=" ++ API_KEY remote) = Ok response ->
     ok response = true ->
     blob response = Ok videoBlob ->
     handleGenerateVideo blank fileToBase64 platform_message remote fuel p
     = (Ok (Some tt),
        mkPanel (videoPrompt p) (uploadedImage p) success
          "Fetching your video..." (Some (createObjectURL remote videoBlob))
          "" (isKeySelected p))) /\
  (uri opf = None \/ uri opf = Some "" ->
   handleGenerateVideo blank fileToBase64 platform_message remote fuel p
   = (Ok (Some tt),
      mkPanel (videoPrompt p) (uploadedImage p) failed
        "Video generation complete!" None
        "Video generation failed or returned no link." (isKeySelected p))).
Proof.
  destruct p as [vp ui gs pm gu em ks].
  cbn [videoPrompt generationStatus uploadedImage isKeySelected].
  intros Hb Hg Hi Hgen Hp Hf.
  rewrite (@handleGenerateVideo_eq vp ui gs pm gu em ks Hb Hg), Hi.
  unfold generateVideo, bind, Video.log, modify, lift, ret.
  unfold request in Hgen. cbn [app fst snd]. rewrite Hgen. cbn [fst snd].
  rewrite (VideoFacts.pollLoop_reaches Hp) by exact Hf.
  unfold download, bind, Video.log, modify, lift, ret. cbn [fst snd].
  split.
  - intros link response videoBlob Hu Hne Hfetch Hok Hblob. rewrite Hu.
    destruct link as [|c link]; [contradiction|].
    rewrite Hfetch, Hok, Hblob. cbn [negb fst snd].
    rewrite !latest_app. reflexivity.
  - intros [Hu|Hu]; rewrite Hu; cbn [fst snd];
      rewrite !latest_app; reflexivity.
Qed.

End Environment.

Lemma generation_settles_witness :
  let r := fst (handleGenerateVideo neverBlank unreadable noMessage demoRemote 5
                  ready) in
  let p' := snd (handleGenerateVideo neverBlank unreadable noMessage demoRemote 5
                   ready) in
  r = Ok (Some tt) /\ generationStatus p' = success /\
  generatedVideoUrl p' = Some "blob:video".
Proof.
  destruct (@generation_settles neverBlank unreadable noMessage demoRemote 5
              ready eq_refl eq_refl)
    as [[payload [url [_ [_ [Hr [Hs [Hu _]]]]]]]
       |[[e [_ [_ [Hs _]]]]|[payload [_ [_ [Hr _]]]]]].
  - cbv zeta. split; [exact Hr|]. split; [exact Hs|].
    vm_compute. reflexivity.
  - vm_compute in Hs. discriminate.
  - vm_compute in Hr. discriminate.
Defined.

Lemma unknown_key_is_reported_witness :
  errorMessage (snd (handleGenerateVideo neverBlank unreadable noMessage
                       keylessRemote 5 ready)) = keyNotFound /\
  isKeySelected (snd (handleGenerateVideo neverBlank unreadable noMessage
                        keylessRemote 5 ready)) = false.
Proof.
  destruct (@unknown_key_is_reported neverBlank unreadable noMessage
              keylessRemote 5 ready None
              (Error "404: Requested entity was not found.")
              "404: Requested entity was not found."
              eq_refl eq_refl eq_refl eq_refl eq_refl eq_refl)
    as [_ [_ [He Hk]]].
  split; [exact He|exact Hk].
Defined.

Lemma finished_job_is_shown_witness :
  handleGenerateVideo neverBlank unreadable noMessage demoRemote 5 ready
  = (Ok (Some tt),
     mkPanel "a prompt" None success "Fetching your video..."
       (Some "blob:video") "" true).
Proof.
  assert (Hp : polls demoRemote (mkOperation false None) 0
                 (mkOperation true (Some "https://video/1?alt=media")) 2).
  { eapply polls_next; [reflexivity|reflexivity|].
    eapply polls_next; [reflexivity|reflexivity|].
    apply polls_done. reflexivity. }
  assert (Hf : (2 <= 5)%nat) by lia.
  destruct (@finished_job_is_shown neverBlank unreadable noMessage demoRemote 5
              ready None (mkOperation false None)
              (mkOperation true (Some "https://video/1?alt=media")) 2
              eq_refl eq_refl eq_refl eq_refl Hp Hf) as [H _].
  apply (H "https://video/1?alt=media" (mkResponse true "OK" (Ok 9%nat)) 9%nat);
    try reflexivity.
  discriminate.
Defined.

End PanelFacts.

(** ** Starting and stopping the live session *)

Module RecorderFacts.
Import App AppSpec SessionSpec Recorder RecorderSpec.
Local Open Scope string_scope.

Lemma startRecording_granted (d : Devices) (stream : list handle)
    (inputCtx outputCtx session : handle) (r : recorder) :
  granted d stream inputCtx outputCtx session ->
  startRecording d r
  = (Ok tt,
     mkRecorder
       (mkState true (Some stream) (Some session)
          (Some (mkContexts inputCtx outputCtx None None))
          (audioPlaybackRef (live r)) (trace (live r)) (fresh (live r)))
       (errorMessage r)).
Proof.
  intros [Hm [Hi [Ho Hc]]]. destruct r as [[rec ms sp ac pb tr fr] em].
  unfold startRecording, try_catch, bind, on_live, zoom, lift, modify.
  cbn [live errorMessage fst snd]. rewrite Hm. cbn [fst snd live errorMessage].
  rewrite Hi. cbn [fst snd]. rewrite Ho. cbn [fst snd]. rewrite Hc.
  reflexivity.
Qed.

Lemma startRecording_failed (d : Devices) (r : recorder) :
  (forall stream inputCtx outputCtx session,
      ~ granted d stream inputCtx outputCtx session) ->
  startRecording d r
  = (Ok tt,
     mkRecorder
       (mkState false
          (match getUserMedia d with
           | Ok stream => Some stream
           | Throw _ => mediaStreamRef (live r)
           end)
          (sessionPromiseRef (live r)) (audioContextRef (live r))
          (audioPlaybackRef (live r)) (trace (live r)) (fresh (live r)))
       microphoneError).
Proof.
  intros Hn. destruct r as [[rec ms sp ac pb tr fr] em].
  unfold startRecording, try_catch, bind, on_live, zoom, lift, modify,
    setErrorMessage.
  cbn [live errorMessage fst snd].
  destruct (getUserMedia d) as [stream|e] eqn:Hm; [|reflexivity].
  cbn [fst snd live errorMessage].
  destruct (newAudioContext d 16000) as [i|e] eqn:Hi; [|reflexivity].
  cbn [fst snd].
  destruct (newAudioContext d 24000) as [o|e] eqn:Ho; [|reflexivity].
  cbn [fst snd].
  destruct (connectToLiveSession d) as [sess|e] eqn:Hc; [|reflexivity].
  exfalso. apply (Hn stream i o sess). repeat split; assumption.
Qed.

Lemma toggle_starts (raises : call -> bool) (d : Devices) (r : recorder) :
  isRecording (live r) = false ->
  handleToggleRecording raises d r = startRecording d r.
Proof.
  intros H. unfold handleToggleRecording, bind, get. now rewrite H.
Qed.

Lemma toggle_stops (d : Devices) (r : recorder) :
  isRecording (live r) = true ->
  handleToggleRecording no_failure d r
  = (Ok tt,
     mkRecorder
       (mkState false (mediaStreamRef (live r)) None None (mkPlayback 0 [])
          (trace (live r) ++ releaseCalls (live r)) (fresh (live r)))
       (errorMessage r)).
Proof.
  intros H. unfold handleToggleRecording, bind, get. rewrite H.
  unfold on_live, zoom. now rewrite SessionFacts.stopRecording_no_failure_eq.
Qed.

(** X22: a start that is granted everything, followed by a stop in which no
    call raises, acquires and releases in pairs: every track of the stream
    is stopped, the session is closed, both audio contexts are closed, the
    sources still playing are stopped, and the session and context
    references are null again. *)
Theorem start_then_stop_releases (d d' : Devices) (stream : list handle)
    (inputCtx outputCtx session : handle) (r : recorder) :
  isRecording (live r) = false ->
  granted d stream inputCtx outputCtx session ->
  (handleToggleRecording no_failure d ;; handleToggleRecording no_failure d')%eff r
  = (Ok tt,
     mkRecorder
       (mkState false (Some stream) None None (mkPlayback 0 [])
          (trace (live r)
           ++ map TrackStop stream
           ++ [SessionThenClose session;
               ContextClose inputCtx; ContextClose outputCtx]
           ++ map SourceStop (sources (audioPlaybackRef (live r))))
          (fresh (live r)))
       (errorMessage r)).
Proof.
  intros Hr Hg. unfold bind.
  rewrite (toggle_starts no_failure d r Hr), (startRecording_granted r Hg).
  rewrite toggle_stops by reflexivity.
  reflexivity.
Qed.

Lemma start_then_stop_releases_witness :
  (handleToggleRecording no_failure workingDevices ;;
   handleToggleRecording no_failure workingDevices)%eff atRest
  = (Ok tt,
     mkRecorder
       (mkState false (Some [7%nat]) None None (mkPlayback 0 [])
          [TrackStop 7%nat; SessionThenClose 3%nat;
           ContextClose 1%nat; ContextClose 2%nat] 0%nat)
       "").
Proof.
  refine (@start_then_stop_releases workingDevices workingDevices [7%nat]
            1%nat 2%nat 3%nat atRest eq_refl _).
  repeat split.
Defined.

Lemma onError_stops (r : recorder) :
  onError no_failure r
  = (Ok tt,
     mkRecorder
       (mkState false (mediaStreamRef (live r)) None None (mkPlayback 0 [])
          (trace (live r) ++ releaseCalls (live r)) (fresh (live r)))
       connectionError).
Proof.
  unfold onError, bind, setErrorMessage, modify, on_live, zoom.
  cbn [live errorMessage fst snd].
  now rewrite SessionFacts.stopRecording_no_failure_eq.
Qed.

(** X27: an error of the connection ends the session like a stop: after a
    start that was granted everything, the [onError] callback, when no call
    raises, shows the connection message, stops every track, closes the
    session and both audio contexts, stops the playing sources and leaves
    the recording flag off. *)
Theorem connection_error_releases (d : Devices) (stream : list handle)
    (inputCtx outputCtx session : handle) (r : recorder) :
  isRecording (live r) = false ->
  granted d stream inputCtx outputCtx session ->
  (handleToggleRecording no_failure d ;; onError no_failure)%eff r
  = (Ok tt,
     mkRecorder
       (mkState false (Some stream) None None (mkPlayback 0 [])
          (trace (live r)
           ++ map TrackStop stream
           ++ [SessionThenClose session;
               ContextClose inputCtx; ContextClose outputCtx]
           ++ map SourceStop (sources (audioPlaybackRef (live r))))
          (fresh (live r)))
       connectionError).
Proof.
  intros Hr Hg. unfold bind.
  rewrite (toggle_starts no_failure d r Hr), (startRecording_granted r Hg).
  rewrite onError_stops. reflexivity.
Qed.

Lemma connection_error_releases_witness :
  (handleToggleRecording no_failure workingDevices ;; onError no_failure)%eff
    atRest
  = (Ok tt,
     mkRecorder
       (mkState false (Some [7%nat]) None None (mkPlayback 0 [])
          [TrackStop 7%nat; SessionThenClose 3%nat;
           ContextClose 1%nat; ContextClose 2%nat] 0%nat)
       connectionError).
Proof.
  refine (@connection_error_releases workingDevices [7%nat] 1%nat 2%nat 3%nat
            atRest eq_refl _).
  repeat split.
Defined.

Lemma not_granted (d : Devices) (stream : list handle) :
  fails_after_microphone d stream ->
  forall stream' inputCtx outputCtx session,
    ~ granted d stream' inputCtx outputCtx session.
Proof.
  intros [_ Hf] stream' i o sess [_ [Hi [Ho Hc]]].
  rewrite Hi, Ho, Hc in Hf. exact Hf.
Qed.

(** X23: when the microphone is granted and a later request of
    [startRecording] fails (an audio context, or the connection to the
    session), the handler completes with the recording flag off and the
    message about microphone access, no track is stopped, and the stream
    stays in [mediaStreamRef]. *)
Theorem failed_start_keeps_stream (raises : call -> bool) (d : Devices)
    (stream : list handle) (r : recorder) :
  isRecording (live r) = false ->
  fails_after_microphone d stream ->
  handleToggleRecording raises d r
  = (Ok tt,
     mkRecorder
       (mkState false (Some stream) (sessionPromiseRef (live r))
          (audioContextRef (live r)) (audioPlaybackRef (live r))
          (trace (live r)) (fresh (live r)))
       microphoneError).
Proof.
  intros Hr Hf. rewrite (toggle_starts raises d r Hr).
  rewrite (startRecording_failed r (not_granted Hf)).
  destruct Hf as [-> _]. reflexivity.
Qed.

Lemma failed_start_keeps_stream_witness :
  handleToggleRecording no_failure keylessDevices atRest
  = (Ok tt,
     mkRecorder (mkState false (Some [5%nat]) None None (mkPlayback 0 []) [] 0%nat)
       microphoneError).
Proof.
  refine (@failed_start_keeps_stream no_failure keylessDevices [5%nat] atRest
            eq_refl _).
  split; [reflexivity|exact I].
Defined.

(** X24: the stream of a failed start is never released: the next start
    replaces it in [mediaStreamRef], and the stop that follows stops the
    tracks of the new stream only. *)
Theorem stream_of_failed_start_is_lost (d d' d'' : Devices)
    (stream stream' : list handle) (inputCtx outputCtx session : handle)
    (r : recorder) (track : handle) :
  isRecording (live r) = false ->
  fails_after_microphone d stream ->
  granted d' stream' inputCtx outputCtx session ->
  In track stream -> ~ In track stream' ->
  ~ In (TrackStop track) (trace (live r)) ->
  let final :=
    snd ((handleToggleRecording no_failure d ;;
          handleToggleRecording no_failure d' ;;
          handleToggleRecording no_failure d'')%eff r) in
  isRecording (live final) = false /\
  mediaStreamRef (live final) = Some stream' /\
  ~ In (TrackStop track) (trace (live final)).
Proof.
  intros Hr Hf Hg Hin Hnin Htr. cbv zeta. unfold bind.
  rewrite (toggle_starts no_failure d r Hr).
  rewrite (startRecording_failed r (not_granted Hf)).
  rewrite toggle_starts by reflexivity.
  rewrite (startRecording_granted _ Hg).
  rewrite toggle_stops by reflexivity.
  cbn [snd live isRecording mediaStreamRef trace sessionPromiseRef
       audioContextRef audioPlaybackRef releaseCalls tracks_of].
  repeat split.
  unfold releaseCalls, tracks_of.
  cbn [mediaStreamRef sessionPromiseRef audioContextRef audioPlaybackRef
       scriptProcessor source input output app].
  rewrite !in_app_iff. cbn [In]. intros [H|[H|[H|[H|[H|H]]]]]; try discriminate H.
  - exact (Htr H).
  - apply in_map_iff in H. destruct H as [t [E Ht]].
    injection E as ->. exact (Hnin Ht).
  - apply in_map_iff in H. destruct H as [t [E _]]. discriminate E.
Qed.

Lemma stream_of_failed_start_is_lost_witness :
  let final :=
    snd ((handleToggleRecording no_failure keylessDevices ;;
          handleToggleRecording no_failure workingDevices ;;
          handleToggleRecording no_failure workingDevices)%eff atRest) in
  isRecording (live final) = false /\
  mediaStreamRef (live final) = Some [7%nat] /\
  ~ In (TrackStop 5%nat) (trace (live final)).
Proof.
  refine (@stream_of_failed_start_is_lost keylessDevices workingDevices
            workingDevices [5%nat] [7%nat] 1%nat 2%nat 3%nat atRest 5%nat
            eq_refl _ _ _ _ _).
  - split; [reflexivity|exact I].
  - repeat split.
  - left. reflexivity.
  - intros [H|[]]. discriminate H.
  - intros [].
Defined.

End RecorderFacts.

(** ** The API-key gate over its life *)

Module GateRunFacts.
Import ApiKeySelector GateSpec.

Lemma reported_app (l1 l2 : list effect) (b : bool) :
  reported (l1 ++ l2) b = reported l2 (reported l1 b).
Proof. apply fold_left_app. Qed.

Lemma act_sync (a : action) (c : component) (held : bool) :
  reported (effects c) held = isKeySelected c ->
  reported (effects (act a c)) held = isKeySelected (act a c).
Proof.
  intros H.
  destruct a as [[[[[hasKey|e]|] open]|]|[[has [[[]|e]|]]|]]; cbn;
    rewrite <- ?app_assoc, ?reported_app; cbn; try reflexivity; exact H.
Qed.

Lemma run_snoc (l : list action) (a : action) (c : component) :
  run (l ++ [a]) c = act a (run l c).
Proof. unfold run. now rewrite fold_left_app. Qed.

(** X25: the parent is never told something else than the gate holds: after
    any sequence of checks and clicks, with any answers of the host, the
    last value passed to [onKeySelectionChange] is the gate's
    [isKeySelected] (both are false before the first call). *)
Theorem parent_agrees_with_gate (l : list action) :
  reported (effects (run l mounted)) false = isKeySelected (run l mounted).
Proof.
  induction l as [|a l IH] using rev_ind; [reflexivity|].
  rewrite run_snoc. apply act_sync. exact IH.
Qed.

Lemma act_selected (a : action) (c : component) :
  isKeySelected (act a c) = true -> confirms a \/ isKeySelected c = true.
Proof.
  destruct a as [[[[[[|]|e]|] open]|]|[[has [[[]|e]|]]|]]; cbn;
    intros H; auto; discriminate H.
Qed.

(** X26: the gate fails closed over its whole life: it shows its children
    only if, at some check or click, the host confirmed a key; a check that
    fails, a missing host and a dialog that fails never open it. *)
Theorem children_need_confirmation (l : list action) :
  render (run l mounted) = Children -> Exists confirms l.
Proof.
  intros H.
  assert (Hk : isKeySelected (run l mounted) = true).
  { unfold render in H. destruct (isChecking _); [discriminate|].
    destruct (isKeySelected _); [reflexivity|discriminate]. }
  clear H. induction l as [|a l IH] using rev_ind; [discriminate|].
  rewrite run_snoc in Hk. apply Exists_app.
  destruct (act_selected a _ Hk) as [Hc|Hs]; [right; now constructor|].
  left. exact (IH Hs).
Qed.

Lemma children_need_confirmation_witness :
  Exists confirms
    [Check None; Select (Some (mkAistudio None (Some (Ok tt))))].
Proof.
  apply (@children_need_confirmation
           [Check None; Select (Some (mkAistudio None (Some (Ok tt))))]).
  reflexivity.
Defined.

End GateRunFacts.
